(** * Plakar scheduler: agent control plane, scheduler service, task loops

    A shallow embedding of three Go files of the repository:
    - the [scheduler] sub-command (the agent that owns the process-wide
      [schedulerContextSingleton] and serves start / stop / configure /
      terminate requests on a local socket),
    - [scheduler/scheduler.go] (the service that expands the schedules of
      every job for a date and arms job-ready events),
    - the task loops (backup, check, restore, sync, maintenance) together
      with [loadRepository].

    Calls into other packages are recorded as events of a trace, in the
    order in which the Go code performs them; their results are inputs. *)

From Stdlib Require Import ZArith.
From Stdlib.Strings Require Import Byte.
From stdpp Require Import gmap strings list.

Local Open Scope string_scope.
Local Open Scope list_scope.
Local Open Scope Z_scope.

(** ** The agent: [SchedulerContext] and the request handlers *)

Module Agent.

(** Address of an [*appcontext.AppContext]; [nil] is [None] where a field
    or variable may hold it. *)
Definition AppContextPtr := nat.

(** A Go [error] value, identified with the text [Error()] returns. *)
Definition error := string.

(** [type schedulerState int8] and its two values. *)
Definition schedulerState := Z.
Definition AGENT_SCHEDULER_STOPPED : schedulerState := 0.
Definition AGENT_SCHEDULER_RUNNING : schedulerState := 1.

(** Modelled from the spec: [scheduler.Request] and [scheduler.Response]
    are declared outside the sources; the specification gives them as
    [Request{Type, Payload}] and [Response{ExitCode, Err}], which are the
    fields that [handleClient] reads and writes. *)
Record Request := mkRequest { Type_ : string; Payload : list byte }.
Record Response := mkResponse { ExitCode : Z; Err : string }.

Section WithConfiguration.

(** [scheduler.Configuration] is opaque to the agent. *)
Context {Configuration : Type}.

(** [scheduler.ParseConfigBytes]: a [*Configuration] and an [error], each
    possibly [nil]. *)
Variable ParseConfigBytes : list byte → option Configuration * option error.

Record SchedulerContext := mkSchedulerContext {
  agentCtx : AppContextPtr;
  schedulerCtx : option AppContextPtr;
  schedulerConfig : option Configuration;
  schedulerState_ : schedulerState
}.

(** What a handler does outside the singleton. *)
Inductive Effect :=
| NewAppContextFrom (parent child : AppContextPtr)
| Cancel (ctx : AppContextPtr)
| GoRun (ctx : AppContextPtr) (config : option Configuration)
| ProcessStop.

(** The daemon: the singleton, the next unused context address, and the
    effects performed so far (oldest first). The mutex of the singleton
    makes every handler body one atomic step, which is how the handlers
    are written below. *)
Record Daemon := mkDaemon {
  schedulerContextSingleton : SchedulerContext;
  fresh : AppContextPtr;
  effects : list Effect
}.

Definition emit (e : list Effect) (d : Daemon) : Daemon :=
  mkDaemon (schedulerContextSingleton d) (fresh d) (effects d ++ e).

Definition set_singleton (s : SchedulerContext) (d : Daemon) : Daemon :=
  mkDaemon s (fresh d) (effects d).

(** [Scheduler.Execute]: the singleton is created with [agentCtx] only;
    the other fields take their zero values. *)
Definition Execute (ctx : AppContextPtr) : Daemon :=
  mkDaemon (mkSchedulerContext ctx None None 0) (S ctx) [].

(** [appcontext.NewAppContextFrom(parent)]: a new context at an unused
    address. *)
Definition newAppContextFrom (parent : AppContextPtr) (d : Daemon)
  : AppContextPtr * Daemon :=
  let child := fresh d in
  (child,
   mkDaemon (schedulerContextSingleton d) (S child)
            (effects d ++ [NewAppContextFrom parent child])).

Definition startTasks (d : Daemon) : (Z * option error) * Daemon :=
  let s := schedulerContextSingleton d in
  match schedulerConfig s with
  | None => ((1, Some "agent scheduler does not have a configuration"), d)
  | Some _ =>
    if negb (Z.land (schedulerState_ s) AGENT_SCHEDULER_RUNNING =? 0) then
      ((1, Some "agent scheduler already running"), d)
    else
      let '(ctx, d1) := newAppContextFrom (agentCtx s) d in
      let d2 := emit [GoRun ctx (schedulerConfig s)] d1 in
      let s' := mkSchedulerContext (agentCtx s) (Some ctx)
                  (schedulerConfig s) AGENT_SCHEDULER_RUNNING in
      ((0, None), set_singleton s' d2)
  end.

(** [schedulerCtx.Cancel()] on a nil pointer does not return: the handler
    panics, which [None] stands for. *)
Definition stopTasks (d : Daemon) : option ((Z * option error) * Daemon) :=
  let s := schedulerContextSingleton d in
  if Z.land (schedulerState_ s) AGENT_SCHEDULER_RUNNING =? 0 then
    Some ((1, Some "agent scheduler not running"), d)
  else
    match schedulerCtx s with
    | None => None
    | Some ctx =>
      let d1 := emit [Cancel ctx] d in
      let s' := mkSchedulerContext (agentCtx s) None
                  (schedulerConfig s) AGENT_SCHEDULER_STOPPED in
      Some ((0, None), set_singleton s' d1)
    end.

(** Modelled from the spec: [stop()] is not among the sources; the
    specification says that terminate triggers the shutdown of the whole
    daemon, whatever the run state. It is recorded as [ProcessStop] and
    leaves the singleton alone. *)
Definition stop (d : Daemon) : option error * Daemon :=
  (None, emit [ProcessStop] d).

Definition terminate (d : Daemon) : (Z * option error) * Daemon :=
  let '(err, d1) := stop d in ((0, err), d1).

Definition configureTasks (schedConfigBytes : list byte) (d : Daemon)
  : (Z * option error) * Daemon :=
  match ParseConfigBytes schedConfigBytes with
  | (_, Some err) => ((1, Some err), d)
  | (schedConfig, None) =>
    let s := schedulerContextSingleton d in
    let '(ctx', d2) :=
      match schedulerCtx s with
      | Some old =>
        let d0 := emit [Cancel old] d in
        let '(ctx, d1) := newAppContextFrom (agentCtx s) d0 in
        (Some ctx, emit [GoRun ctx schedConfig] d1)
      | None => (None, d)
      end in
    let s' := mkSchedulerContext (agentCtx s) ctx' schedConfig
                (schedulerState_ s) in
    ((0, None), set_singleton s' d2)
  end.

(** The [switch request.Type] of [handleClient], after the version
    handshake and the decoding of the request. *)
Definition respond (r : (Z * option error) * Daemon) : Response * Daemon :=
  match r with
  | ((_, Some err), d) => (mkResponse 1 err, d)
  | ((_, None), d) => (mkResponse 0 "", d)
  end.

Definition handleClient (request : Request) (d : Daemon)
  : option (Response * Daemon) :=
  if decide (Type_ request = "start") then Some (respond (startTasks d))
  else if decide (Type_ request = "stop") then respond <$> stopTasks d
  else if decide (Type_ request = "terminate") then Some (respond (terminate d))
  else if decide (Type_ request = "configure") then
    Some (respond (configureTasks (Payload request) d))
  else
    Some (mkResponse 1 ("unknown command: " +:+ Type_ request), d).

(** The daemon after a sequence of requests, served one after the other;
    [None] when a handler panicked on the way. *)
Fixpoint serve (requests : list Request) (d : Daemon) : option Daemon :=
  match requests with
  | [] => Some d
  | r :: rest =>
    match handleClient r d with
    | Some (_, d') => serve rest d'
    | None => None
    end
  end.

(** A configure request whose payload deserializes (nil error). *)
Definition applies_configuration (r : Request) : Prop :=
  Type_ r = "configure" ∧ (ParseConfigBytes (Payload r)).2 = None.

(** The contract of the parser that the handlers rely on: a nil error
    comes with a configuration. *)
Definition parser_contract : Prop :=
  ∀ payload, (ParseConfigBytes payload).2 = None →
             is_Some (ParseConfigBytes payload).1.

(** What every reachable daemon satisfies. *)
Record consistent (d : Daemon) : Prop := {
  state_value :
    schedulerState_ (schedulerContextSingleton d) = AGENT_SCHEDULER_STOPPED ∨
    schedulerState_ (schedulerContextSingleton d) = AGENT_SCHEDULER_RUNNING;
  running_ctx :
    schedulerState_ (schedulerContextSingleton d) = AGENT_SCHEDULER_RUNNING ↔
    is_Some (schedulerCtx (schedulerContextSingleton d));
  running_config :
    schedulerState_ (schedulerContextSingleton d) = AGENT_SCHEDULER_RUNNING →
    is_Some (schedulerConfig (schedulerContextSingleton d));
  ctx_allocated :
    ∀ ctx, schedulerCtx (schedulerContextSingleton d) = Some ctx →
           (ctx < fresh d)%nat
}.

End WithConfiguration.

Arguments SchedulerContext : clear implicits.
Arguments Effect : clear implicits.
Arguments Daemon : clear implicits.
Arguments consistent {Configuration} d.

End Agent.

(** ** The scheduler service: [scheduler/scheduler.go] *)

Module Service.

(** A [time.Time], as the instant it denotes, an integer on the time line;
    [Before] compares instants, whatever the locations. *)
Definition Time := Z.
Definition Before (t u : Time) : bool := t <? u.

(** [type Schedule interface]: a value that carries its methods. Only
    [PlanForDate] is called by the service. *)
Record Schedule := mkSchedule {
  PlanForDate : Time → list Time
}.

(** Modelled from the spec: [Job] and [Configuration] are declared outside
    the sources; the specification describes a configuration as a mapping
    from job name to job, and a job as a name with an ordered set of
    schedules. These are the fields that the service reads ([config.Jobs],
    [job.Schedules]). *)
Record Job := mkJob {
  Name : string;
  Schedules : list Schedule
}.

Record Configuration := mkConfiguration {
  Jobs : gmap string Job
}.

(** [ScheduledJob]; its [event] field, the handle returned by the engine,
    is written after the call and never read. *)
Record ScheduledJob := mkScheduledJob {
  scheduled : Time;
  job : Job
}.

(** Arguments of a formatted log line. *)
Inductive Arg :=
| ArgTime (t : Time)
| ArgString (s : string).

(** What the service does to its collaborators: a debug line of the logger,
    and [s.sched.ScheduleAt(sj, t)] on the job-ready engine. *)
Inductive Event :=
| Debug (format : string) (args : list Arg)
| ScheduleAt (sj : ScheduledJob) (t : Time).

(** Body of the innermost loop of [ScheduleForDate], for one [t]. *)
Definition schedule_one (date : Time) (name : string) (j : Job) (t : Time)
  : list Event :=
  if Before t date then
    [Debug "job %q: ignore for past time %v" [ArgString name; ArgTime t]]
  else
    [Debug "job %q: scheduled for %v" [ArgString name; ArgTime t];
     ScheduleAt (mkScheduledJob t j) t].

Definition schedule_plan (date : Time) (name : string) (j : Job)
    (schedule : Schedule) : list Event :=
  PlanForDate schedule date ≫= schedule_one date name j.

Definition schedule_job (date : Time) (entry : string * Job) : list Event :=
  Schedules entry.2 ≫= schedule_plan date entry.1 entry.2.

(** [for name, job := range s.config.Jobs] visits every entry of the map
    once, in an order that Go leaves unspecified: [order] is the order of
    one execution. *)
Definition range_order (config : Configuration) (order : list (string * Job))
  : Prop :=
  order ≡ₚ map_to_list (Jobs config).

Definition ScheduleForDate (order : list (string * Job)) (date : Time)
  : list Event :=
  Debug "scheduling jobs for %v" [ArgTime date]
  :: (order ≫= schedule_job date).

(** The job-ready events armed in a trace, oldest first. *)
Definition armed (trace : list Event) : list (ScheduledJob * Time) :=
  omap (λ e, match e with ScheduleAt sj t => Some (sj, t) | _ => None end) trace.

(** The timestamps that a trace reports as ignored for a job name. *)
Definition ignored (trace : list Event) : list (string * Time) :=
  omap (λ e, match e with
             | Debug "job %q: ignore for past time %v" [ArgString n; ArgTime t] =>
               Some (n, t)
             | _ => None
             end) trace.

(** Every (job, timestamp) that the schedules of a configuration plan for
    a date, in a given order of the jobs. *)
Definition planned (order : list (string * Job)) (date : Time)
  : list (string * Job * Time) :=
  '(name, j) ← order; schedule ← Schedules j; t ← PlanForDate schedule date;
  [(name, j, t)].

End Service.

(** ** The task loops and [loadRepository] *)

Module Tasks.

Definition Time := Z.

(** [time.Duration] is an [int64] count of nanoseconds; unary minus wraps. *)
Definition Duration := Z.
Definition wrap64 (z : Z) : Z := (z + 2 ^ 63) mod 2 ^ 64 - 2 ^ 63.
Definition Duration_neg (d : Duration) : Duration := wrap64 (- d).
Definition Time_Add (t : Time) (d : Duration) : Time := t + d.

(** Addresses of a [storage.Store] and of a [*repository.Repository]. *)
Definition StorePtr := nat.
Definition RepoPtr := nat.

(** Arguments of a format string, and errors: the error of a collaborator,
    known by its text, or one built by [fmt.Errorf]. *)
Inductive Arg (E : Type) :=
| ArgErr (e : option E)
| ArgInt (n : Z)
| ArgStr (s : string)
| ArgVersion (v : Z).
Arguments ArgErr {E} e.
Arguments ArgInt {E} n.
Arguments ArgStr {E} s.
Arguments ArgVersion {E} v.

#[warnings="-register-all"]
Inductive error :=
| Err (text : string)
| Errorf (format : string) (args : list (Arg error)).

(** Modelled from the spec: the task configurations are declared outside
    the sources; the specification gives each kind its interval, its
    retention and its own parameters (path, target, peer, direction,
    latest-only flag). The fields below are the ones that the loops read. *)
Record Task := mkTask { Task_Name : string; Task_Repository : string }.

Record BackupConfig := mkBackupConfig {
  Backup_Name : string;
  Backup_Path : string;
  Backup_Interval : Duration;
  Backup_Retention : Duration;
  Backup_Check_Enabled : bool
}.

Record CheckConfig := mkCheckConfig {
  Check_Interval : Duration;
  Check_Latest : bool;
  Check_Path : string
}.

Record RestoreConfig := mkRestoreConfig {
  Restore_Interval : Duration;
  Restore_Target : string;
  Restore_Path : string
}.

Record MaintenanceConfig := mkMaintenanceConfig {
  Maintenance_Interval : Duration;
  Maintenance_Retention : Duration;
  Maintenance_Repository : string
}.

(** The sub-commands that the loops fill in and execute, with the fields
    that the loops assign (their packages are outside the sources). *)
Record LocateOptions := mkLocateOptions {
  Job : string;
  Latest : bool;
  Before : Time
}.

Record Backup := mkBackup {
  Backup_Silent : bool;
  Backup_Job : string;
  Backup_cmd_Path : string;
  Backup_Quiet : bool;
  Backup_OptCheck : bool
}.

Record Rm := mkRm { Rm_LocateOptions : LocateOptions }.

Record Check := mkCheck {
  Check_LocateOptions : LocateOptions;
  Check_Silent : bool;
  Check_Snapshots : list string
}.

Record Restore := mkRestore {
  Restore_OptJob : string;
  Restore_cmd_Target : string;
  Restore_Silent : bool;
  Restore_Snapshots : list string
}.

Record Sync := mkSync {
  PeerRepositoryLocation : string;
  Sync_Direction : string
}.

(** Declarations of the repository that the loops use and that are not in
    the files embedded here. *)
Class Externals := {
  (** [versioning.FromString(storage.VERSION)] *)
  current_version : Z;
  (** [storage.VERSION], as printed *)
  VERSION : string;
  (** [locate.NewDefaultLocateOptions()] *)
  NewDefaultLocateOptions : LocateOptions;
  (** [type SyncDirection] and its three constants *)
  SyncDirection : Type;
  SyncDirection_eq_dec :: EqDecision SyncDirection;
  SyncDirectionTo : SyncDirection;
  SyncDirectionFrom : SyncDirection;
  SyncDirectionWith : SyncDirection
}.

Record SyncConfig `{Externals} := mkSyncConfig {
  Sync_Interval : Duration;
  Sync_Peer : string;
  Direction : SyncDirection
}.
Arguments mkSyncConfig {_} _ _ _.

(** Every call that leaves the loop, in the order of the calls; a call that
    hands back a resource carries the address it returned ([None] when it
    failed). *)
Inductive Event :=
| ReloadConfig
| GetRepository (name : string)
| StorageOpen (storeConfig : gmap string string) (store : option StorePtr)
| NewConfigurationFromWrappedBytes (config : list byte)
| DeriveKey (passphrase : string)
| VerifyCanary (key : list byte)
| SetSecret (key : list byte)
| RepositoryNew (store : StorePtr) (config : list byte) (repo : option RepoPtr)
| StoreClose (store : StorePtr)
| RepoClose (repo : RepoPtr)
| LogError (format : string) (args : list (Arg error))
| LogInfo (format : string) (args : list (Arg error))
| NewReport
| TaskStart (kind name : string)
| WithRepositoryName (name : string)
| WithRepository (repo : RepoPtr)
| WithSnapshotID (snapId : list byte)
| TaskFailed (code : Z) (format : string) (args : list (Arg error))
| TaskWarning (format : string) (args : list (Arg error))
| TaskDone
| DoBackup (cmd : Backup) (repo : RepoPtr)
| RmExecute (cmd : Rm) (repo : RepoPtr)
| CheckExecute (cmd : Check) (repo : RepoPtr)
| RestoreExecute (cmd : Restore) (repo : RepoPtr)
| SyncExecute (cmd : Sync) (repo : RepoPtr)
| MaintenanceExecute (repo : RepoPtr)
| TimeNow
| TimeAfter (d : Duration)
| CtxCancel.

(** A computation that performs calls and then yields a value. *)
Record M (A : Type) := mkM { trace : list Event; value : A }.
Arguments mkM {A} trace value.
Arguments trace {A} m.
Arguments value {A} m.

#[global] Instance M_ret : MRet M := λ A x, mkM [] x.
#[global] Instance M_bind : MBind M := λ A B f m,
  mkM (trace m ++ trace (f (value m))) (value (f (value m))).

(** Perform one call. *)
Definition call (e : Event) : M unit := mkM [e] tt.

(** *** [loadRepository] *)

(** What the collaborators of [loadRepository] answer during one call. *)
Record LoadResults := mkLoadResults {
  ReloadConfig_err : option error;
  GetRepository_res : gmap string string + error;
  storage_Open_res : StorePtr * list byte + error;
  (** [repoConfig.Version], or the error of
      [storage.NewConfigurationFromWrappedBytes] *)
  NewConfiguration_res : Z + error;
  DeriveKey_res : list byte + error;
  VerifyCanary_res : bool;
  repository_New_res : RepoPtr + error
}.

(** The three shapes of what [loadRepository] returns:
    [(nil, nil, err)], [(nil, store, err)] and [(repo, store, nil)]. *)
Inductive Loaded :=
| LoadFailed (store : option StorePtr) (err : error)
| LoadOK (repo : RepoPtr) (store : StorePtr).

Section WithExternals.
Context `{Externals}.

Definition loadRepository (name : string) (r : LoadResults) : M Loaded :=
  _ ← call ReloadConfig;
  match ReloadConfig_err r with
  | Some err =>
    mret (LoadFailed None
            (Errorf "could not load configuration: %w" [ArgErr (Some err)]))
  | None =>
  _ ← call (GetRepository name);
  match GetRepository_res r with
  | inr err =>
    mret (LoadFailed None
            (Errorf "unable to get repository configuration: %w"
                    [ArgErr (Some err)]))
  | inl storeConfig =>
  match storage_Open_res r with
  | inr err =>
    _ ← call (StorageOpen storeConfig None);
    mret (LoadFailed None
            (Errorf "unable to open storage: %w" [ArgErr (Some err)]))
  | inl (store, config) =>
  _ ← call (StorageOpen storeConfig (Some store));
  _ ← call (NewConfigurationFromWrappedBytes config);
  match NewConfiguration_res r with
  | inr err =>
    _ ← call (StoreClose store);
    mret (LoadFailed None
            (Errorf "unable to read repository configuration: %w"
                    [ArgErr (Some err)]))
  | inl version =>
  if negb (version =? current_version) then
    _ ← call (StoreClose store);
    mret (LoadFailed None
            (Errorf "incompatible repository version: %s != %s"
                    [ArgVersion version; ArgStr VERSION]))
  else
  let open_repository : M Loaded :=
    match repository_New_res r with
    | inr err =>
      _ ← call (RepositoryNew store config None);
      _ ← call (StoreClose store);
      mret (LoadFailed (Some store)
              (Errorf "unable to open repository: %w" [ArgErr (Some err)]))
    | inl repo =>
      _ ← call (RepositoryNew store config (Some repo));
      mret (LoadOK repo store)
    end in
  match storeConfig !! "passphrase" with
  | Some passphrase =>
    _ ← call (DeriveKey passphrase);
    match DeriveKey_res r with
    | inr err =>
      _ ← call (StoreClose store);
      mret (LoadFailed None
              (Errorf "error deriving key: %w" [ArgErr (Some err)]))
    | inl key =>
      _ ← call (VerifyCanary key);
      if negb (VerifyCanary_res r) then
        _ ← call (StoreClose store);
        mret (LoadFailed None (Errorf "invalid passphrase" []))
      else
        _ ← call (SetSecret key);
        open_repository
    end
  | None => open_repository
  end
  end end end end.

(** *** The loops *)

(** One round of [select]: the context is done, or the timer fires and
    the collaborators answer [r] during the tick. *)
Inductive Select (R : Type) :=
| CtxDone
| Tick (r : R).
Arguments CtxDone {R}.
Arguments Tick {R} r.

(** How a loop stands once the rounds it was given are used up: it has
    returned, or it is blocked in [select]. *)
Inductive Status := Returned | Blocked.

Fixpoint loop {R} (interval : Duration) (body : R → M unit)
    (rounds : list (Select R)) : M Status :=
  _ ← call (TimeAfter interval);
  match rounds with
  | [] => mret Blocked
  | CtxDone :: _ => mret Returned
  | Tick r :: rest => _ ← body r; loop interval body rest
  end.

(** [err != nil || retval != 0] *)
Definition failed (retval : Z) (err : option error) : bool :=
  match err with
  | Some _ => true
  | None => negb (retval =? 0)
  end.

(** **** backup *)

Record BackupResults := mkBackupResults {
  backup_load : LoadResults;
  (** [retval, err, snapId, warning] of [DoBackup] *)
  DoBackup_res : Z * option error * list byte * option error;
  backup_now : Time;
  backup_rm_res : Z * option error
}.

Definition backupSubcommand (taskset : Task) (task : BackupConfig) : Backup :=
  mkBackup true (Task_Name taskset) (Backup_Path task) true
           (if Backup_Check_Enabled task then true else false).

Definition backup_rmSubcommand (task : BackupConfig) : Rm :=
  mkRm (mkLocateOptions (Backup_Name task)
          (Latest NewDefaultLocateOptions) (Before NewDefaultLocateOptions)).

Definition set_Before (cmd : Rm) (t : Time) : Rm :=
  mkRm (mkLocateOptions (Job (Rm_LocateOptions cmd))
          (Latest (Rm_LocateOptions cmd)) t).

(** The [case <-tick:] branch of [backupTask]. The label [close] is the
    pair of calls that ends the branch. *)
Definition backupTick (taskset : Task) (task : BackupConfig)
    (r : BackupResults) : M unit :=
  l ← loadRepository (Task_Repository taskset) (backup_load r);
  match l with
  | LoadFailed _ err =>
    call (LogError "Error loading repository: %s" [ArgErr (Some err)])
  | LoadOK repo store =>
    _ ← call NewReport;
    _ ← call (TaskStart "backup" (Task_Name taskset));
    _ ← call (WithRepositoryName (Task_Repository taskset));
    _ ← call (WithRepository repo);
    _ ← call (DoBackup (backupSubcommand taskset task) repo);
    _ ← (let '(retval, err, snapId, warning) := DoBackup_res r in
         if failed retval err then
           _ ← call (LogError "Error creating backup: %s" [ArgErr err]);
           call (TaskFailed 1 "Error creating backup: retval=%d, err=%s"
                   [ArgInt retval; ArgErr err])
         else
           _ ← call (WithSnapshotID snapId);
           let report_outcome : M unit :=
             match warning with
             | Some w =>
               call (TaskWarning "Warning during backup: %s" [ArgErr (Some w)])
             | None => call TaskDone
             end in
           if negb (Backup_Retention task =? 0) then
             _ ← call TimeNow;
             _ ← call (RmExecute
                         (set_Before (backup_rmSubcommand task)
                            (Time_Add (backup_now r)
                               (Duration_neg (Backup_Retention task))))
                         repo);
             let '(retval, err) := backup_rm_res r in
             if failed retval err then
               _ ← call (LogError "Error removing obsolete backups: %s"
                           [ArgErr err]);
               call (TaskWarning
                       "Error removing obsolete backups: retval=%d, err=%s"
                       [ArgInt retval; ArgErr err])
             else report_outcome
           else report_outcome);
    _ ← call (RepoClose repo);
    call (StoreClose store)
  end.

Definition backupTask (taskset : Task) (task : BackupConfig)
    (rounds : list (Select BackupResults)) : M Status :=
  loop (Backup_Interval task) (backupTick taskset task) rounds.

(** **** check, restore *)

Record ExecuteResults := mkExecuteResults {
  execute_load : LoadResults;
  (** [retval, err] of [Execute] *)
  Execute_res : Z * option error
}.

Definition checkSubcommand (taskset : Task) (task : CheckConfig) : Check :=
  mkCheck (mkLocateOptions (Task_Name taskset) (Check_Latest task)
             (Before NewDefaultLocateOptions))
          true
          (if decide (Check_Path task ≠ "")
           then [":" +:+ Check_Path task] else []).

Definition checkTick (taskset : Task) (task : CheckConfig)
    (r : ExecuteResults) : M unit :=
  l ← loadRepository (Task_Repository taskset) (execute_load r);
  match l with
  | LoadFailed _ err =>
    call (LogError "Error loading repository: %s" [ArgErr (Some err)])
  | LoadOK repo store =>
    _ ← call NewReport;
    _ ← call (TaskStart "check" (Task_Name taskset));
    _ ← call (WithRepositoryName (Task_Repository taskset));
    _ ← call (WithRepository repo);
    _ ← call (CheckExecute (checkSubcommand taskset task) repo);
    _ ← (let '(retval, err) := Execute_res r in
         if failed retval err then
           _ ← call (LogError "Error executing check: %s" [ArgErr err]);
           call (TaskFailed 1 "Error executing check: retval=%d, err=%s"
                   [ArgInt retval; ArgErr err])
         else call TaskDone);
    _ ← call (RepoClose repo);
    call (StoreClose store)
  end.

Definition checkTask (taskset : Task) (task : CheckConfig)
    (rounds : list (Select ExecuteResults)) : M Status :=
  loop (Check_Interval task) (checkTick taskset task) rounds.

Definition restoreSubcommand (taskset : Task) (task : RestoreConfig)
  : Restore :=
  mkRestore (Task_Name taskset) (Restore_Target task) true
            (if decide (Restore_Path task ≠ "")
             then [":" +:+ Restore_Path task] else []).

Definition restoreTick (taskset : Task) (task : RestoreConfig)
    (r : ExecuteResults) : M unit :=
  l ← loadRepository (Task_Repository taskset) (execute_load r);
  match l with
  | LoadFailed _ err =>
    call (LogError "Error loading repository: %s" [ArgErr (Some err)])
  | LoadOK repo store =>
    _ ← call NewReport;
    _ ← call (TaskStart "restore" (Task_Name taskset));
    _ ← call (WithRepositoryName (Task_Repository taskset));
    _ ← call (WithRepository repo);
    _ ← call (RestoreExecute (restoreSubcommand taskset task) repo);
    _ ← (let '(retval, err) := Execute_res r in
         if failed retval err then
           _ ← call (LogError "Error executing restore: %s" [ArgErr err]);
           call (TaskFailed 1 "Error executing restore: retval=%d, err=%s"
                   [ArgInt retval; ArgErr err])
         else call TaskDone);
    _ ← call (RepoClose repo);
    call (StoreClose store)
  end.

Definition restoreTask (taskset : Task) (task : RestoreConfig)
    (rounds : list (Select ExecuteResults)) : M Status :=
  loop (Restore_Interval task) (restoreTick taskset task) rounds.

(** **** sync *)

(** The chain of comparisons at the head of [syncTask]: the direction
    written into the sub-command, or [None] in the last [else]. *)
Definition sync_direction (task : SyncConfig) : option string :=
  if decide (Direction task = SyncDirectionTo) then Some "to"
  else if decide (Direction task = SyncDirectionFrom) then Some "from"
  else if decide (Direction task = SyncDirectionWith) then Some "with"
  else None.

Definition syncTick (taskset : Task) (syncSubcommand : Sync)
    (r : ExecuteResults) : M unit :=
  l ← loadRepository (Task_Repository taskset) (execute_load r);
  match l with
  | LoadFailed _ err =>
    call (LogError "Error loading repository: %s" [ArgErr (Some err)])
  | LoadOK repo store =>
    _ ← call NewReport;
    _ ← call (TaskStart "sync" (Task_Name taskset));
    _ ← call (WithRepositoryName (Task_Repository taskset));
    _ ← call (WithRepository repo);
    _ ← call (SyncExecute syncSubcommand repo);
    _ ← (let '(retval, err) := Execute_res r in
         if failed retval err then
           _ ← call (LogError "sync: %s" [ArgErr err]);
           call (TaskFailed 1 "Error executing sync: retval=%d, err=%s"
                   [ArgInt retval; ArgErr err])
         else
           _ ← call (LogInfo "sync: synchronization succeeded" []);
           call TaskDone);
    _ ← call (RepoClose repo);
    call (StoreClose store)
  end.

Definition syncTask (taskset : Task) (task : SyncConfig)
    (rounds : list (Select ExecuteResults)) : M Status :=
  match sync_direction task with
  | None => _ ← call CtxCancel; mret Returned
  | Some direction =>
    loop (Sync_Interval task)
         (syncTick taskset (mkSync (Sync_Peer task) direction)) rounds
  end.

(** **** maintenance *)

Record MaintenanceResults := mkMaintenanceResults {
  maintenance_load : LoadResults;
  (** [retval, err] of the maintenance sub-command *)
  Maintenance_res : Z * option error;
  maintenance_now : Time;
  maintenance_rm_res : Z * option error
}.

Definition maintenance_rmSubcommand : Rm :=
  mkRm (mkLocateOptions "maintenance"
          (Latest NewDefaultLocateOptions) (Before NewDefaultLocateOptions)).

Definition maintenanceTick (task : MaintenanceConfig)
    (r : MaintenanceResults) : M unit :=
  l ← loadRepository (Maintenance_Repository task) (maintenance_load r);
  match l with
  | LoadFailed _ err =>
    call (LogError "Error loading repository: %s" [ArgErr (Some err)])
  | LoadOK repo store =>
    _ ← call NewReport;
    _ ← call (TaskStart "maintenance" "maintenance");
    _ ← call (WithRepositoryName (Maintenance_Repository task));
    _ ← call (WithRepository repo);
    _ ← call (MaintenanceExecute repo);
    _ ← (let '(retval, err) := Maintenance_res r in
         if failed retval err then
           _ ← call (LogError "Error executing maintenance: %s" [ArgErr err]);
           call (TaskFailed 1
                   "Error executing maintenance: retval=%d, err=%s"
                   [ArgInt retval; ArgErr err])
         else
           _ ← call (LogInfo "maintenance of repository %s succeeded"
                       [ArgStr (Maintenance_Repository task)]);
           if negb (Maintenance_Retention task =? 0) then
             _ ← call TimeNow;
             _ ← call (RmExecute
                         (set_Before maintenance_rmSubcommand
                            (Time_Add (maintenance_now r)
                               (Duration_neg (Maintenance_Retention task))))
                         repo);
             let '(retval, err) := maintenance_rm_res r in
             if failed retval err then
               _ ← call (LogError "Error removing obsolete backups: %s"
                           [ArgErr err]);
               call (TaskWarning
                       "Error removing obsolete backups: retval=%d, err=%s"
                       [ArgInt retval; ArgErr err])
             else
               _ ← call (LogInfo "Retention purge succeeded" []);
               call TaskDone
           else call TaskDone);
    _ ← call (RepoClose repo);
    call (StoreClose store)
  end.

Definition maintenanceTask (task : MaintenanceConfig)
    (rounds : list (Select MaintenanceResults)) : M Status :=
  loop (Maintenance_Interval task) (maintenanceTick task) rounds.

End WithExternals.

Arguments CtxDone {R}.
Arguments Tick {R} r.

(** *** Reading a trace *)

(** The cut-offs ([LocateOptions.Before]) of the purges attempted. *)
Definition purges (tr : list Event) : list Time :=
  omap (λ e, match e with
             | RmExecute cmd _ => Some (Before (Rm_LocateOptions cmd))
             | _ => None
             end) tr.

(** How the reports of a trace were finalized. *)
Inductive Outcome :=
| Done
| Warning (format : string) (args : list (Arg error))
| Failed (code : Z) (format : string) (args : list (Arg error)).

Definition outcomes (tr : list Event) : list Outcome :=
  omap (λ e, match e with
             | TaskDone => Some Done
             | TaskWarning f a => Some (Warning f a)
             | TaskFailed c f a => Some (Failed c f a)
             | _ => None
             end) tr.

Definition is_Failed (o : Outcome) : bool :=
  match o with Failed _ _ _ => true | _ => false end.

(** The calls on the reporter and on a report. *)
Definition is_report_event (e : Event) : bool :=
  match e with
  | NewReport | TaskStart _ _ | WithRepositoryName _ | WithRepository _
  | WithSnapshotID _ | TaskFailed _ _ _ | TaskWarning _ _ | TaskDone => true
  | _ => false
  end.

(** The calls that open a store or a repository, whatever they return. *)
Definition is_open_event (e : Event) : bool :=
  match e with
  | StorageOpen _ _ | RepositoryNew _ _ _ => true
  | _ => false
  end.

(** The calls that [loadRepository] makes. *)
Definition is_load_event (e : Event) : bool :=
  match e with
  | ReloadConfig | GetRepository _ | StorageOpen _ _
  | NewConfigurationFromWrappedBytes _ | DeriveKey _ | VerifyCanary _
  | SetSecret _ | RepositoryNew _ _ _ | StoreClose _ => true
  | _ => false
  end.

(** Book-keeping of the stores and repositories that are open: an open
    adds the address, a close removes it and is refused ([None]) when the
    address is not open at that point. *)
Definition Ledger : Type := list StorePtr * list RepoPtr.

(** Remove one occurrence of an address, if there is one. *)
Fixpoint take_out (x : nat) (l : list nat) : option (list nat) :=
  match l with
  | [] => None
  | y :: l' => if decide (x = y) then Some l' else (y ::.) <$> take_out x l'
  end.

Definition account_event (o : Ledger) (e : Event) : option Ledger :=
  match e with
  | StorageOpen _ (Some store) => Some (store :: o.1, o.2)
  | RepositoryNew _ _ (Some repo) => Some (o.1, repo :: o.2)
  | StoreClose store => l ← take_out store o.1; Some (l, o.2)
  | RepoClose repo => l ← take_out repo o.2; Some (o.1, l)
  | _ => Some o
  end.

Fixpoint account (tr : list Event) (o : Ledger) : option Ledger :=
  match tr with
  | [] => Some o
  | e :: tr' => o' ← account_event o e; account tr' o'
  end.


(** What the trace of a tick shows about the purge, for a task with a
    retention, the time read during the tick and the result of the purge:
    no purge when the retention is zero; otherwise one purge, whose cut-off
    is the time read plus the negated retention, which is the time minus
    the retention unless the retention is the least [int64]; when that
    purge fails, the one report of the tick ends as the warning about it;
    and no report of the tick ends as failed. *)
Definition purge_contract (retention : Duration) (now : Time)
    (rm_res : Z * option error) (tr : list Event) : Prop :=
  (retention = 0 → purges tr = []) ∧
  (retention ≠ 0 →
   purges tr = [Time_Add now (Duration_neg retention)]) ∧
  (- 2 ^ 63 < retention < 2 ^ 63 →
   Time_Add now (Duration_neg retention) = now - retention) ∧
  (retention ≠ 0 → failed rm_res.1 rm_res.2 = true →
   outcomes tr =
     [Warning "Error removing obsolete backups: retval=%d, err=%s"
              [ArgInt rm_res.1; ArgErr rm_res.2]]) ∧
  Forall (λ o, is_Failed o = false) (outcomes tr).

(** *** Shapes used to state what the loops do *)

Section Shapes.
Context `{Externals}.

(** What a tick does when the load fails: the calls of [loadRepository],
    then the error line. *)
Definition load_failure_trace (name : string) (r : LoadResults)
    (err : error) : list Event :=
  trace (loadRepository name r) ++
  [LogError "Error loading repository: %s" [ArgErr (Some err)]].

(** A loop skips the tick with answers [r]: the tick is the failed load
    and its error line, no call on the reporter or on a report; the loop
    then goes on with the rounds that follow as it would have gone
    without the tick, and if there is none it is blocked in [select]. *)
Definition skips_tick {R} (task_loop : list (Select R) → M Status)
    (interval : Duration) (tick : M unit) (name : string)
    (load : LoadResults) (err : error) (r : R) : Prop :=
  trace tick = load_failure_trace name load err ∧
  filter (λ e, is_report_event e = true) (trace tick) = [] ∧
  (∀ rest,
     trace (task_loop (Tick r :: rest)) =
       TimeAfter interval :: trace tick ++ trace (task_loop rest) ∧
     value (task_loop (Tick r :: rest)) = value (task_loop rest)) ∧
  value (task_loop [Tick r]) = Blocked.

End Shapes.

End Tasks.

(** ** Concrete collaborators, used to run the definitions *)

Module Examples.

(** A parser of configurations: the empty payload is refused, any other is
    its own configuration. *)
Definition parse (payload : list byte) : option (list byte) * option Agent.error :=
  match payload with
  | [] => (None, Some "empty configuration")
  | _ => (Some payload, None)
  end.

Definition configure (payload : list byte) : Agent.Request :=
  Agent.mkRequest "configure" payload.
Definition start : Agent.Request := Agent.mkRequest "start" [].
Definition stop : Agent.Request := Agent.mkRequest "stop" [].
Definition terminate : Agent.Request := Agent.mkRequest "terminate" [].

(** A daemon that is running a scheduler on context 1. *)
Definition running_daemon : Agent.Daemon (list byte) :=
  Agent.mkDaemon (Agent.mkSchedulerContext 0%nat (Some 1%nat) (Some ["a"%byte])
              Agent.AGENT_SCHEDULER_RUNNING)
           2%nat
           [Agent.NewAppContextFrom 0%nat 1%nat; Agent.GoRun 1%nat (Some ["a"%byte])].

(** A job that runs at 02:00 and at 14:00 of the day of the date, with
    instants counted in seconds. *)
Definition day : Z := 86400.
Definition twice_a_day : Service.Schedule :=
  Service.mkSchedule (λ date, [date `div` day * day + 7200;
                               date `div` day * day + 50400]).
Definition nightly : Service.Job := Service.mkJob "nightly" [twice_a_day].

(** A job that runs at 06:00. *)
Definition at_six : Service.Schedule :=
  Service.mkSchedule (λ date, [date `div` day * day + 21600]).
Definition morning : Service.Job := Service.mkJob "morning" [at_six].

Definition config : Service.Configuration :=
  Service.mkConfiguration (<[ "nightly" := nightly ]> {[ "morning" := morning ]}).

(** 2024-01-10T02:46:40Z, in seconds. *)
Definition date : Service.Time := 19732 * day + 10000.

#[local] Instance externals : Tasks.Externals := {|
  Tasks.current_version := 1;
  Tasks.VERSION := "1.0.0";
  Tasks.NewDefaultLocateOptions := Tasks.mkLocateOptions "" false 0;
  Tasks.SyncDirection := string;
  Tasks.SyncDirectionTo := "to";
  Tasks.SyncDirectionFrom := "from";
  Tasks.SyncDirectionWith := "with"
|}.

(** Answers with which [loadRepository] opens store 7 and repository 9. *)
Definition load_ok : Tasks.LoadResults :=
  Tasks.mkLoadResults None (inl ∅) (inl (7%nat, [])) (inl 1) (inl [])
                      true (inl 9%nat).

(** Answers with which the passphrase is refused after store 7 is open. *)
Definition load_bad_passphrase : Tasks.LoadResults :=
  Tasks.mkLoadResults None (inl {[ "passphrase" := "secret" ]})
                      (inl (7%nat, [])) (inl 1) (inl []) false (inl 9%nat).

(** A job "docs" on the repository "vault": a backup every hour that keeps
    ten minutes of history, a check every hour, a sync whose direction is
    none of the three, a maintenance. Durations and times in nanoseconds. *)
Definition docs : Tasks.Task := Tasks.mkTask "docs" "vault".
Definition docs_backup : Tasks.BackupConfig :=
  Tasks.mkBackupConfig "docs" "/home/docs" 3600000000000 600000000000 false.
Definition docs_check : Tasks.CheckConfig :=
  Tasks.mkCheckConfig 3600000000000 true "".
Definition docs_sync : Tasks.SyncConfig :=
  Tasks.mkSyncConfig 3600000000000 "peer" "sideways".

(** A tick on which the backup succeeds and the purge returns exit code 1. *)
Definition purge_fails : Tasks.BackupResults :=
  Tasks.mkBackupResults load_ok (0, None, [], None) 1704854800000000000
                        (1, None).

(** A tick on which the passphrase is refused. *)
Definition passphrase_refused : Tasks.ExecuteResults :=
  Tasks.mkExecuteResults load_bad_passphrase (0, None).

End Examples.

(** ** Reading the effects of the agent *)

Module AgentLive.
Import Agent.

Section WithConfiguration.
Context {Configuration : Type}.

(** The contexts on which a scheduler was launched and that were not
    cancelled since, oldest first. *)
Definition live_step (acc : list AppContextPtr) (e : Effect Configuration)
  : list AppContextPtr :=
  match e with
  | GoRun ctx _ => acc ++ [ctx]
  | Cancel ctx => filter (λ c, c ≠ ctx) acc
  | _ => acc
  end.

Definition live (es : list (Effect Configuration)) : list AppContextPtr :=
  foldl live_step [] es.

(** The configuration handed to the scheduler launched last on a context. *)
Definition launched_step (ctx : AppContextPtr)
    (acc : option (option Configuration)) (e : Effect Configuration)
  : option (option Configuration) :=
  match e with
  | GoRun ctx' config => if decide (ctx' = ctx) then Some config else acc
  | _ => acc
  end.

Definition launched_with (es : list (Effect Configuration))
    (ctx : AppContextPtr) : option (option Configuration) :=
  foldl (launched_step ctx) None es.

(** What the handlers keep true of the singleton and of the effects. *)
Record tracked (d : Daemon Configuration) : Prop := {
  tracked_state :
    schedulerState_ (schedulerContextSingleton d) = AGENT_SCHEDULER_STOPPED ∨
    schedulerState_ (schedulerContextSingleton d) = AGENT_SCHEDULER_RUNNING;
  tracked_running :
    schedulerState_ (schedulerContextSingleton d) = AGENT_SCHEDULER_RUNNING ↔
    is_Some (schedulerCtx (schedulerContextSingleton d));
  tracked_live :
    live (effects d) = option_list (schedulerCtx (schedulerContextSingleton d));
  tracked_launched :
    ∀ ctx, schedulerCtx (schedulerContextSingleton d) = Some ctx →
           launched_with (effects d) ctx =
             Some (schedulerConfig (schedulerContextSingleton d))
}.

End WithConfiguration.

Arguments tracked {Configuration} d.

End AgentLive.

(** ** The scheduler service: [Run] and [NextDay] *)

Module ServiceRun.
Import Service.

(** The functions of Go's [time] package that [NextDay] calls, on
    instants. *)
Class GoTime := {
  (** [time.Location] *)
  Location_ : Type;
  (** [date.Date()]: year, month, day *)
  Date : Time → Z * Z * Z;
  (** [date.Location()] *)
  Location : Time → Location_;
  (** [time.Date(year, month, day, hour, min, sec, nsec, loc)] *)
  time_Date : Z → Z → Z → Z → Z → Z → Z → Location_ → Time;
  (** [t.AddDate(years, months, days)] *)
  AddDate : Time → Z → Z → Z → Time
}.

(** What [Run] and the loop it launches do to their collaborators.
    [Planning e] is a call made by [ScheduleForDate]; the two engines are
    the job-ready one ([s.sched]) and the rollover one ([sched]). *)
Inductive Call :=
| NewReporter
| JobsStart
| RolloverStart
| LogError (format : string) (err : string)
| TimeNow
| Planning (e : Event)
| RolloverScheduleAt (payload t : Time)
| RolloverStop
| JobsStop
| JobExecute (j : Job) (scheduled : Time)
| StopAndWait.

(** One round of the [select] of the loop: a time from the rollover
    engine (with the order in which [ScheduleForDate] then visits the
    jobs), the context is done, the job-ready engine has stopped, a job
    from the job-ready engine. *)
Inductive Select :=
| FromScheduleq (t : Time) (order : list (string * Job))
| CtxDone
| Stopped
| FromRunq (schedJob : ScheduledJob).

(** Where the loop stands once the rounds are used up: [Run] returned
    without launching it, it ran to its end, or it is blocked in
    [select]. *)
Inductive Status := NotLaunched | Exited | Waiting.

Section WithGoTime.
Context `{GoTime}.

Definition NextDay (date : Time) : Time :=
  let '(year, month, day) := Date date in
  let r := time_Date year month day 0 0 0 0 (Location date) in
  AddDate r 0 0 1.

Fixpoint loop (rounds : list Select) : list Call * Status :=
  match rounds with
  | [] => ([], Waiting)
  | FromScheduleq t order :: rest =>
    let t := NextDay t in
    let '(calls, status) := loop rest in
    ((Planning <$> ScheduleForDate order t) ++ RolloverScheduleAt t t :: calls,
     status)
  | CtxDone :: rest =>
    let '(calls, status) := loop rest in
    (RolloverStop :: JobsStop :: calls, status)
  | Stopped :: _ => ([StopAndWait], Exited)
  | FromRunq schedJob :: rest =>
    let '(calls, status) := loop rest in
    (JobExecute (job schedJob) (scheduled schedJob) :: calls, status)
  end.

(** [Run], given what the two [Start] calls return, the time read, the
    order of the first planning pass and the rounds of the loop. *)
Definition Run (jobs_start rollover_start : option string) (t0 : Time)
    (order : list (string * Job)) (rounds : list Select)
  : list Call * Status :=
  match jobs_start with
  | Some err =>
    ([NewReporter; JobsStart;
      LogError "failed to start scheduler: %v" err], NotLaunched)
  | None =>
    match rollover_start with
    | Some err =>
      ([NewReporter; JobsStart; RolloverStart;
        LogError "failed to start scheduler: %v" err], NotLaunched)
    | None =>
      let '(calls, status) := loop rounds in
      ([NewReporter; JobsStart; RolloverStart; TimeNow] ++
       (Planning <$> ScheduleForDate order t0) ++
       RolloverScheduleAt t0 t0 :: calls,
       status)
    end
  end.

(** *** Reading the calls of [Run] *)

(** The times for which the rollover engine was armed, oldest first. *)
Definition rollover_arms (calls : list Call) : list Time :=
  omap (λ c, match c with RolloverScheduleAt _ t => Some t | _ => None end)
       calls.

(** The dates of the planning passes, oldest first. *)
Definition planning_dates (calls : list Call) : list Time :=
  omap (λ c, match c with
             | Planning (Debug "scheduling jobs for %v" [ArgTime d]) => Some d
             | _ => None
             end) calls.

(** The job-ready events handed to the job-ready engine. *)
Definition jobs_armed (calls : list Call) : list (ScheduledJob * Time) :=
  omap (λ c, match c with
             | Planning (ScheduleAt sj t) => Some (sj, t)
             | _ => None
             end) calls.

(** The jobs executed, with the time they were scheduled for. *)
Definition executions (calls : list Call) : list (Job * Time) :=
  omap (λ c, match c with JobExecute j t => Some (j, t) | _ => None end) calls.

Definition is_stop (c : Call) : bool :=
  match c with
  | RolloverStop | JobsStop | StopAndWait => true
  | _ => false
  end.

Definition is_LogError (c : Call) : bool :=
  match c with LogError _ _ => true | _ => false end.

(** The calls that stop an engine. *)
Definition is_engine_stop (c : Call) : bool :=
  match c with RolloverStop | JobsStop => true | _ => false end.

(** The rounds that the loop gets to: those before the first [Stopped]. *)
Fixpoint served (rounds : list Select) : list Select :=
  match rounds with
  | [] => []
  | Stopped :: _ => []
  | r :: rest => r :: served rest
  end.

Definition ticks (rounds : list Select) : list Time :=
  omap (λ r, match r with FromScheduleq t _ => Some t | _ => None end)
       (served rounds).

Definition deliveries (rounds : list Select) : list ScheduledJob :=
  omap (λ r, match r with FromRunq sj => Some sj | _ => None end)
       (served rounds).

Definition is_Stopped (r : Select) : bool :=
  match r with Stopped => true | _ => false end.

Definition is_CtxDone (r : Select) : bool :=
  match r with CtxDone => true | _ => false end.

(** The rounds that the loop gets to and that find the context done. *)
Definition done_rounds (rounds : list Select) : list Select :=
  filter (λ r, is_CtxDone r = true) (served rounds).

End WithGoTime.

End ServiceRun.

(** Concrete [time] functions for running [Run]: instants are seconds since
    the epoch, in UTC, and a date is given as the day of January 1970 it
    would be, which [time.Date] normalizes. *)

Module RunExamples.

#[local] Instance utc : ServiceRun.GoTime := {|
  ServiceRun.Location_ := unit;
  ServiceRun.Date := λ t, (1970, 1, t `div` 86400 + 1);
  ServiceRun.Location := λ _, tt;
  ServiceRun.time_Date := λ _ _ day hour min sec _ _,
    (day - 1) * 86400 + hour * 3600 + min * 60 + sec;
  ServiceRun.AddDate := λ t _ _ days, t + days * 86400
|}.

Definition order : list (string * Service.Job) :=
  [("nightly", Examples.nightly); ("morning", Examples.morning)].

(** The rollover engine hands back the start time, then the next
    midnight; in between the job-ready engine delivers 06:00. *)
Definition rounds : list ServiceRun.Select :=
  [ServiceRun.FromScheduleq Examples.date order;
   ServiceRun.FromRunq
     (Service.mkScheduledJob (19732 * 86400 + 21600) Examples.morning);
   ServiceRun.FromScheduleq (19733 * 86400) order].

End RunExamples.

(** ** Protocols that the traces of the task loops are checked against *)

Module TaskChecks.
Import Tasks.

(** Runs an automaton over a trace; [None] when a call is refused. *)
Fixpoint check {S : Type} (step : S → Event → option S) (tr : list Event)
    (s : S) : option S :=
  match tr with
  | [] => Some s
  | e :: tr' => s' ← step s e; check step tr' s'
  end.

(** The life of a report: created by [NewReport], filled in, then ended by
    one of [TaskDone], [TaskWarning], [TaskFailed]. A call on a report is
    refused when no report is under way, and so is a second [NewReport]
    while one is. *)
Inductive ReportState := NoReport | ReportUnderWay.

Definition report_step (s : ReportState) (e : Event) : option ReportState :=
  match e, s with
  | NewReport, NoReport => Some ReportUnderWay
  | NewReport, ReportUnderWay => None
  | (TaskStart _ _ | WithRepositoryName _ | WithRepository _ | WithSnapshotID _),
    ReportUnderWay => Some ReportUnderWay
  | (TaskStart _ _ | WithRepositoryName _ | WithRepository _ | WithSnapshotID _),
    NoReport => None
  | (TaskDone | TaskWarning _ _ | TaskFailed _ _ _), ReportUnderWay =>
    Some NoReport
  | (TaskDone | TaskWarning _ _ | TaskFailed _ _ _), NoReport => None
  | _, _ => Some s
  end.

(** Every report of the trace is ended, once, and no call is made on a
    report before it is created or after it is ended. *)
Definition reports_settled (tr : list Event) : Prop :=
  check report_step tr NoReport = Some NoReport.

(** The use of stores and repositories: a repository is opened on a store
    that is open; a call that takes a repository is refused unless that
    repository is open; a store is closed only when no repository is
    open. *)
Definition guard_step (o : Ledger) (e : Event) : option Ledger :=
  match e with
  | StorageOpen _ (Some store) => Some (store :: o.1, o.2)
  | RepositoryNew store _ repo =>
    if bool_decide (store ∈ o.1)
    then Some (o.1, option_list repo ++ o.2) else None
  | StoreClose store =>
    match o.2 with
    | [] => l ← take_out store o.1; Some (l, o.2)
    | _ :: _ => None
    end
  | RepoClose repo => l ← take_out repo o.2; Some (o.1, l)
  | WithRepository repo | DoBackup _ repo | RmExecute _ repo
  | CheckExecute _ repo | RestoreExecute _ repo | SyncExecute _ repo
  | MaintenanceExecute repo =>
    if bool_decide (repo ∈ o.2) then Some o else None
  | _ => Some o
  end.


(** The calls of a trace that can change something outside the loop's own
    store and repository: cancelling the context. *)
Definition is_CtxCancel (e : Event) : bool :=
  match e with CtxCancel => true | _ => false end.

Definition is_TimeAfter (e : Event) : bool :=
  match e with TimeAfter _ => true | _ => false end.

Definition is_CtxDone {R} (r : Select R) : bool :=
  match r with CtxDone => true | Tick _ => false end.

(** The snapshot identifiers attached to reports. *)
Definition snapshot_ids (tr : list Event) : list (list byte) :=
  omap (λ e, match e with WithSnapshotID id => Some id | _ => None end) tr.





End TaskChecks.

(** More answers of the collaborators of the task loops. *)

Module TaskExamples.

(** The backup returns exit code 2 and no error. *)
Definition backup_fails : Tasks.BackupResults :=
  Tasks.mkBackupResults Examples.load_ok (2, None, [], None)
                        1704854800000000000 (0, None).

(** The backup succeeds with a warning and the purge returns an error. *)
Definition warning_then_purge_fails : Tasks.BackupResults :=
  Tasks.mkBackupResults Examples.load_ok
    (0, None, ["s"%byte], Some (Tasks.Err "2 files skipped"))
    1704854800000000000 (0, Some (Tasks.Err "locked")).


End TaskExamples.

(** A backup whose retention is the least [int64] duration. *)

Module RetentionExamples.

Definition least_retention : Tasks.BackupConfig :=
  Tasks.mkBackupConfig "docs" "/home/docs" 3600000000000 (- 2 ^ 63) false.

(** A tick on which the backup and the purge succeed. *)
Definition purge_ok : Tasks.BackupResults :=
  Tasks.mkBackupResults Examples.load_ok (0, None, [], None)
                        1704854800000000000 (0, None).

End RetentionExamples.

(** ** The agent: one connection *)

Module AgentConn.
Import Agent.

(** What the connection answers to the four exchanges of [handleClient]:
    the error of decoding the version of the client, of encoding ours, the
    request decoded or the error of decoding it, the error of encoding the
    response. *)
Record Exchange := mkExchange {
  decode_clientvers_err : option error;
  encode_ourvers_err : option error;
  decode_request : Request + error;
  encode_response_err : option error
}.

(** What [handleClient] does on the connection. *)
Inductive Call :=
| DecodeVersion
| EncodeVersion (ourvers : string)
| DecodeRequest
| EncodeResponse (response : Response)
| ConnClose.

Section WithConfiguration.
Context {Configuration : Type}.
Variable ParseConfigBytes : list byte → option Configuration * option error.

(** [utils.GetVersion()] *)
Variable GetVersion : string.

(** [handleClient]: the calls on the connection, and the daemon after it
    ([None] when the handler panicked). [conn.Close()] is deferred: it is
    the last call on every path. *)
Definition handleConnection (x : Exchange) (d : Daemon Configuration)
  : list Call * option (Daemon Configuration) :=
  match decode_clientvers_err x with
  | Some _ => ([DecodeVersion; ConnClose], Some d)
  | None =>
    match encode_ourvers_err x with
    | Some _ => ([DecodeVersion; EncodeVersion GetVersion; ConnClose], Some d)
    | None =>
      match decode_request x with
      | inr _ =>
        ([DecodeVersion; EncodeVersion GetVersion; DecodeRequest; ConnClose],
         Some d)
      | inl request =>
        match handleClient ParseConfigBytes request d with
        | None =>
          ([DecodeVersion; EncodeVersion GetVersion; DecodeRequest; ConnClose],
           None)
        | Some (response, d') =>
          ([DecodeVersion; EncodeVersion GetVersion; DecodeRequest;
            EncodeResponse response; ConnClose], Some d')
        end
      end
    end
  end.

Definition responses (calls : list Call) : list Response :=
  omap (λ c, match c with EncodeResponse r => Some r | _ => None end) calls.

Definition is_ConnClose (c : Call) : bool :=
  match c with ConnClose => true | _ => false end.

End WithConfiguration.

End AgentConn.

(** ** The gRPC exporter: [StoreFile] *)

Module Exporter.

(** A Go [error] value, by its text. *)
Definition error := string.

(** What [fp.Read(buf)] returns besides the count: nil, [io.EOF], or
    another error. *)
Inductive ReadErr :=
| ReadOK
| EOF
| ReadFailed (err : error).

(** One round of the loop: the bytes that [Read] put in [buf] (its first
    [n] bytes), the error it returned, and the error of the [Send] that
    follows when there is one. *)
Record Round := mkRound {
  data : list byte;
  read_err : ReadErr;
  send_err : option error
}.

(** The calls on the client, the stream and the reader. *)
Inductive Call :=
| OpenStream
| SendHeader (pathname : string) (size : Z)
| Read
| SendData (chunk : list byte)
| CloseAndRecv.

(** [uint64(size)] of an [int64]. *)
Definition to_uint64 (size : Z) : Z := size mod 2 ^ 64.

(** The loop of [StoreFile]: [Some err] when the function returns [err]
    from inside the loop, [None] when the loop is left by [break]. The
    rounds are what the reader and the stream answer; when they are used
    up before the reader has ended, the loop is still reading, which
    [Reading] stands for. *)
Inductive LoopEnd :=
| Break
| Return (err : error)
| Reading.

Fixpoint send_chunks (rounds : list Round) : list Call * LoopEnd :=
  match rounds with
  | [] => ([Read], Reading)
  | r :: rest =>
    match read_err r with
    | EOF => ([Read], Break)
    | ReadFailed err => ([Read], Return err)
    | ReadOK =>
      match send_err r with
      | Some err => ([Read; SendData (data r)], Return err)
      | None =>
        let '(calls, e) := send_chunks rest in
        (Read :: SendData (data r) :: calls, e)
      end
    end
  end.

(** [StoreFile(pathname, fp, size)]: the calls, and the error returned
    ([Some None] is a nil error; [None] when the reader has not ended). *)
Definition StoreFile (pathname : string) (size : Z)
    (stream_err header_err : option error) (rounds : list Round)
    (close_err : option error) : list Call * option (option error) :=
  match stream_err with
  | Some err => ([OpenStream], Some (Some err))
  | None =>
    match header_err with
    | Some err =>
      ([OpenStream; SendHeader pathname (to_uint64 size)], Some (Some err))
    | None =>
      let '(calls, e) := send_chunks rounds in
      match e with
      | Return err =>
        (OpenStream :: SendHeader pathname (to_uint64 size) :: calls,
         Some (Some err))
      | Reading =>
        (OpenStream :: SendHeader pathname (to_uint64 size) :: calls, None)
      | Break =>
        (OpenStream :: SendHeader pathname (to_uint64 size) :: calls ++
         [CloseAndRecv], Some close_err)
      end
    end
  end.

(** The bytes sent as data, in order. *)
Definition sent (calls : list Call) : list byte :=
  mjoin (omap (λ c, match c with SendData chunk => Some chunk | _ => None end)
              calls).

Definition is_CloseAndRecv (c : Call) : bool :=
  match c with CloseAndRecv => true | _ => false end.

Definition is_Read (c : Call) : bool :=
  match c with Read => true | _ => false end.

(** The rounds before the first one whose read does not return nil. *)
Fixpoint accepted (rounds : list Round) : list Round :=
  match rounds with
  | [] => []
  | r :: rest =>
    match read_err r with
    | ReadOK => r :: accepted rest
    | _ => []
    end
  end.

End Exporter.

(** ** The entry point of the container: [docker/docker-entrypoint.sh] *)

Module Entrypoint.

(** How the script ends: it replaces itself by a program ([exec], with the
    program first), or it exits with a status. *)
Inductive Outcome :=
| Exec (argv : list string)
| Exit (status : Z).

(** [${name:-word}]: the value of the variable unless it is unset or
    empty. *)
Definition or_default (variable : option string) (word : string) : string :=
  match variable with
  | Some value => if decide (value = "") then word else value
  | None => word
  end.

(** The pattern [-*] of [case]. *)
Definition starts_with_dash (s : string) : bool := String.prefix "-" s.

Section WithShell.

(** [eval "set -- $cmd"]: the positional parameters that the shell makes
    of the string, or the status with which the shell exits when it
    cannot. *)
Variable shell_words : string → list string + Z.

(** [run_start_command]. The script runs under [set -e]: the function
    returning 1 ends the script with status 1. *)
Definition run_start_command (cmd : string) : Outcome :=
  if decide (cmd = "") then Exit 1
  else
    match shell_words cmd with
    | inr status => Exit status
    | inl [] => Exit 1
    | inl (first :: rest) =>
      if decide (first = "plakar") then Exec ("/usr/bin/plakar" :: rest)
      else Exec (first :: rest)
    end.

(** The script, given its arguments and the two variables of the
    environment that it reads ([None] when unset). *)
Definition entrypoint (args : list string)
    (PLAKAR_STARTUP_COMMAND PLAKAR_COMMAND : option string) : Outcome :=
  match args with
  | first :: rest =>
    if decide (first = "plakar") then Exec ("/usr/bin/plakar" :: rest)
    else if starts_with_dash first then Exec ("/usr/bin/plakar" :: first :: rest)
    else Exec (first :: rest)
  | [] =>
    let start_cmd :=
      or_default PLAKAR_STARTUP_COMMAND (or_default PLAKAR_COMMAND "") in
    if decide (start_cmd ≠ "") then run_start_command start_cmd
    else Exec ["tail"; "-f"; "/dev/null"]
  end.

End WithShell.

(** A splitting of a string at its spaces, to run the definitions. *)
Fixpoint split_spaces (current : string) (s : string) : list string :=
  match s with
  | EmptyString => if decide (current = "") then [] else [current]
  | String c rest =>
    if decide (String c EmptyString = " ") then
      if decide (current = "") then split_spaces "" rest
      else current :: split_spaces "" rest
    else split_spaces (current +:+ String c EmptyString) rest
  end.

Definition words (s : string) : list string + Z := inl (split_spaces "" s).

End Entrypoint.

(** ** [pkg create]: [PkgCreate.Execute] *)

Module PkgCreate.

(** An error built by [fmt.Errorf(format, err)] around the error of a
    collaborator, known by its text. *)
Record error := Errorf { format : string; cause : string }.

Definition StorePtr := nat.

(** What the collaborators answer: the error of each fallible step, and
    the address of the store that [storage.Create] returns. *)
Record Results := mkResults {
  ToBytes_err : option string;
  Serialize_err : option string;
  ReadAll_err : option string;
  Create_res : StorePtr + string;
  New_err : option string;
  Scan_err : option string;
  CreateSnapshot_err : option string;
  Backup_err : option string;
  Commit_err : option string;
  Close_err : option string
}.

(** [snapshot.BackupOptions], with the fields that are set. *)
Record BackupOptions := mkBackupOptions {
  MaxConcurrency : Z;
  NoCheckpoint : bool;
  NoCommit : bool
}.

Inductive Call :=
| NewConfiguration
| SetEncryptionNil
| SetPackfileMaxSize (n : Z)
| GetHasher
| ToBytes
| Serialize
| ReadAll
| StorageCreate (location : string) (store : option StorePtr)
| RepositoryNew (store : StorePtr)
| RandomMAC
| Scan
| NewRepositoryWriter
| CreateWithRepositoryWriter
| Backup (files : list string) (options : BackupOptions)
| PackerWait
| CommitTransaction
| StoreClose (store : StorePtr).

(** A step that may fail: on error the function returns 1 and the error
    wrapped with the format of the step; otherwise it goes on. *)
Definition try (calls : list Call) (err : option string) (message : string)
    (rest : list Call * (Z * option error)) : list Call * (Z * option error) :=
  match err with
  | Some e => (calls, (1, Some (Errorf message e)))
  | None => (calls ++ rest.1, rest.2)
  end.

(** [math.MaxUint64] *)
Definition MaxUint64 : Z := 2 ^ 64 - 1.

(** [Execute], for a command with output [Out] and arguments [Args]. *)
Definition Execute (Out : string) (Args : list string) (r : Results)
  : list Call * (Z * option error) :=
  try [NewConfiguration; SetEncryptionNil; SetPackfileMaxSize MaxUint64;
       GetHasher; ToBytes]
      (ToBytes_err r) "failed to serialize configuration: %w" (
  try [Serialize] (Serialize_err r) "failed to wrap configuration: %w" (
  try [ReadAll] (ReadAll_err r) "failed to read wrapped configuration: %w" (
  match Create_res r with
  | inr e =>
    ([StorageCreate ("ptar:" +:+ Out) None],
     (1, Some (Errorf "failed to create the storage: %w" e)))
  | inl st =>
    try [StorageCreate ("ptar:" +:+ Out) (Some st); RepositoryNew st]
        (New_err r) "failed to create ptar: %w" (
    try [RandomMAC; Scan] (Scan_err r) "failed to get the scan cache: %w" (
    try [NewRepositoryWriter; CreateWithRepositoryWriter]
        (CreateSnapshot_err r) "failed to create snapshot: %w" (
    try [Backup Args (mkBackupOptions 1 true true)]
        (Backup_err r) "failed to populate the snapshot: %w" (
    try [PackerWait; CommitTransaction]
        (Commit_err r) "failed to commit transaction: %w" (
    try [StoreClose st] (Close_err r) "failed to close the storage: %w" (
    ([], (0, None))))))))
  end))).

(** The stores created and the stores closed. *)
Definition created (calls : list Call) : list StorePtr :=
  omap (λ c, match c with StorageCreate _ (Some st) => Some st | _ => None end)
       calls.

Definition closed (calls : list Call) : list StorePtr :=
  omap (λ c, match c with StoreClose st => Some st | _ => None end) calls.

(** Every step before the closing of the store succeeds. *)
Definition populated (r : Results) : Prop :=
  ToBytes_err r = None ∧ Serialize_err r = None ∧ ReadAll_err r = None ∧
  (∃ st, Create_res r = inl st) ∧ New_err r = None ∧ Scan_err r = None ∧
  CreateSnapshot_err r = None ∧ Backup_err r = None ∧ Commit_err r = None.

End PkgCreate.

(** ** Plugins: [loadplugin] *)

Module Plugins.

(** One element of [Manifest], with the fields that [loadplugin] reads. *)
Record Entry := mkEntry {
  Type_ : string;
  Protocols : list string;
  LocationFlags : list string;
  Executable : string
}.

(** An error built by [fmt.Errorf], by its format and arguments, or the
    error of a collaborator returned as it is. *)
Inductive error :=
| Errorf (format : string) (args : list string)
| Plain (text : string).

(** The calls of [loadplugin]. A registration carries the protocol, the
    flags and the executable that its connector will start. *)
Inductive Call :=
| Stat (path : string)
| Extract (path dest : string)
| Open (path : string)
| Decode
| Close
| RegisterImporter (proto : string) (flags : Z) (exe : string)
| RegisterExporter (proto : string) (flags : Z) (exe : string)
| RegisterStorage (proto : string) (flags : Z) (exe : string).

Section WithLibraries.

(** [filepath.Join], [filepath.Ext] and [location.ParseFlag] ([None] when
    it returns an error). *)
Variable Join : string → string → string.
Variable Ext : string → string.
Variable ParseFlag : string → option Z.

(** The loop over [LocationFlags]: the flags or-ed together, or the first
    flag that does not parse. *)
Fixpoint parse_flags (flags : Z) (l : list string) : Z + string :=
  match l with
  | [] => inl flags
  | flag :: rest =>
    match ParseFlag flag with
    | None => inr flag
    | Some f => parse_flags (Z.lor flags f) rest
    end
  end.

(** The loop over [Protocols] with its [switch] on the type. *)
Fixpoint register_protocols (type : string) (flags : Z) (exe : string)
    (protocols : list string) : list Call * option error :=
  match protocols with
  | [] => ([], None)
  | proto :: rest =>
    if decide (type = "importer") then
      let '(calls, err) := register_protocols type flags exe rest in
      (RegisterImporter proto flags exe :: calls, err)
    else if decide (type = "exporter") then
      let '(calls, err) := register_protocols type flags exe rest in
      (RegisterExporter proto flags exe :: calls, err)
    else if decide (type = "storage") then
      let '(calls, err) := register_protocols type flags exe rest in
      (RegisterStorage proto flags exe :: calls, err)
    else ([], Some (Errorf "unknown plugin type: %s" [type]))
  end.

(** The body of the loop over the manifest, for one entry. *)
Definition register_entry (plugin name : string) (e : Entry)
  : list Call * option error :=
  let exe := Join plugin (Executable e) in
  if negb (String.prefix plugin exe) then
    ([], Some (Errorf "bad executable path %q in plugin %s"
                      [Executable e; name]))
  else
    match parse_flags 0 (LocationFlags e) with
    | inr flag =>
      ([], Some (Errorf "unknown flag %q in plugin %s" [flag; name]))
    | inl flags => register_protocols (Type_ e) flags exe (Protocols e)
    end.

Fixpoint register_manifest (plugin name : string) (manifest : list Entry)
  : list Call * option error :=
  match manifest with
  | [] => ([], None)
  | e :: rest =>
    match register_entry plugin name e with
    | (calls, Some err) => (calls, Some err)
    | (calls, None) =>
      let '(calls', err) := register_manifest plugin name rest in
      (calls ++ calls', err)
    end
  end.

(** What the file system and the decoder answer to [loadplugin]. *)
Record Results := mkResults {
  Stat_err : option string;
  extract_err : option string;
  Open_err : option string;
  Decode_res : list Entry + string
}.

(** [name[:len(name)-extlen]] *)
Definition without_ext (name : string) : string :=
  String.substring 0 (String.length name - String.length (Ext name)) name.

(** [loadplugin]; closing the manifest is deferred from the moment it is
    open. *)
Definition loadplugin (pluginsDir cacheDir name : string) (r : Results)
  : list Call * option error :=
  let plugin := Join cacheDir (without_ext name) in
  let after_extract : list Call * option error :=
    match Open_err r with
    | Some err =>
      ([Open (Join plugin "manifest.yaml")],
       Some (Errorf "can't open the manifest: %w" [err]))
    | None =>
      match Decode_res r with
      | inr err =>
        ([Open (Join plugin "manifest.yaml"); Decode; Close],
         Some (Errorf "failed to decode the manifest: %w" [err]))
      | inl manifest =>
        let '(calls, err) := register_manifest plugin name manifest in
        (Open (Join plugin "manifest.yaml") :: Decode :: calls ++ [Close], err)
      end
    end in
  match Stat_err r with
  | None => (Stat plugin :: after_extract.1, after_extract.2)
  | Some _ =>
    match extract_err r with
    | Some err =>
      ([Stat plugin; Extract (Join pluginsDir name) plugin], Some (Plain err))
    | None =>
      (Stat plugin :: Extract (Join pluginsDir name) plugin :: after_extract.1,
       after_extract.2)
    end
  end.

(** *** Reading the entries and the calls *)

(** An entry that the loop accepts: its executable stays under the
    directory of the plugin as far as the prefix test can tell, its flags
    parse, and its type is a known one unless it has no protocol. *)
Definition entry_ok (plugin : string) (e : Entry) : bool :=
  String.prefix plugin (Join plugin (Executable e)) &&
  match parse_flags 0 (LocationFlags e) with inl _ => true | inr _ => false end &&
  match Protocols e with
  | [] => true
  | _ :: _ =>
    bool_decide (Type_ e = "importer" ∨ Type_ e = "exporter" ∨
                 Type_ e = "storage")
  end.

(** The entries before the first one that is not accepted. *)
Fixpoint accepted (plugin : string) (manifest : list Entry) : list Entry :=
  match manifest with
  | [] => []
  | e :: rest => if entry_ok plugin e then e :: accepted plugin rest else []
  end.


(** The registry, protocol, flags and executable of a registration. *)
Definition registered (calls : list Call)
  : list (string * string * Z * string) :=
  omap (λ c, match c with
             | RegisterImporter p f x => Some ("importer", p, f, x)
             | RegisterExporter p f x => Some ("exporter", p, f, x)
             | RegisterStorage p f x => Some ("storage", p, f, x)
             | _ => None
             end) calls.

(** The registrations that an accepted entry asks for. *)
Definition wanted (plugin : string) (e : Entry)
  : list (string * string * Z * string) :=
  match parse_flags 0 (LocationFlags e) with
  | inl flags =>
    (λ proto, (Type_ e, proto, flags, Join plugin (Executable e))) <$>
      Protocols e
  | inr _ => []
  end.

End WithLibraries.

End Plugins.

(** ** Reading the calls of [loadplugin] *)

Module PluginCalls.
Import Plugins.





End PluginCalls.

(** ** Extracting a plugin archive: [extract] *)

Module PluginExtract.

(** The error of a collaborator returned as it is, or an error built by
    [fmt.Errorf] with a count ([%d]) or around a cause ([%w]). *)
Inductive error :=
| Plain (text : string)
| Errorf_d (format : string) (n : Z)
| Errorf_w (format : string) (cause : string).

(** What the collaborators answer. [LocateSnapshotIDs] returns the
    identifiers and an error; [MkdirTemp] returns the directory it made;
    [base] is the directory of the importer in the header of the
    snapshot. *)
Record Results := mkResults {
  Open_err : option string;
  New_err : option string;
  Locate_ids : list string;
  Locate_err : option string;
  Load_err : option string;
  NewFSExporter_err : option string;
  MkdirTemp_res : string + string;
  base : string;
  Restore_err : option string;
  Rename_err : option string
}.

Inductive Call :=
| StorageOpen (location : string)
| RepositoryNew
| LocateSnapshotIDs
| SnapshotLoad (snapid : string)
| NewFSExporter (MaxConcurrency : Z) (name location : string)
| MkdirTemp (dir pattern : string)
| Restore (dest base : string) (MaxConcurrency : Z) (Strip : string)
| Rename (oldpath newpath : string)
| RemoveAll (path : string).

(** A step whose error is returned as it is. *)
Definition try (calls : list Call) (err : option string)
    (rest : list Call * option error) : list Call * option error :=
  match err with
  | Some e => (calls, Some (Plain e))
  | None => (calls ++ rest.1, rest.2)
  end.

Section WithLibraries.

(** [filepath.Dir] *)
Variable Dir : string → string.

(** [extract], from the creation of the temporary directory on; its
    removal is deferred from the moment it exists. *)
Definition install (destDir : string) (r : Results)
  : list Call * option error :=
  match MkdirTemp_res r with
  | inr e => ([MkdirTemp (Dir destDir) "plugin-extract-*"], Some (Plain e))
  | inl tmpdir =>
    let '(calls, err) :=
      try [Restore tmpdir (base r) 1 (base r)] (Restore_err r)
        match Rename_err r with
        | Some e =>
          ([Rename tmpdir destDir], Some (Errorf_w "failed to rename: %w" e))
        | None => ([Rename tmpdir destDir], None)
        end in
    (MkdirTemp (Dir destDir) "plugin-extract-*" :: calls ++ [RemoveAll tmpdir],
     err)
  end.

(** [extract]; the error of [LocateSnapshotIDs] is assigned and not
    read. *)
Definition extract (plugin destDir : string) (r : Results)
  : list Call * option error :=
  try [StorageOpen ("ptar://" +:+ plugin)] (Open_err r) (
  try [RepositoryNew] (New_err r) (
  match Locate_ids r with
  | [snapid] =>
    try [LocateSnapshotIDs; SnapshotLoad snapid] (Load_err r) (
    try [NewFSExporter 1 "fs" ("ptar://" +:+ plugin)] (NewFSExporter_err r) (
    install destDir r))
  | snapids =>
    ([LocateSnapshotIDs],
     Some (Errorf_d "too many snapshot in ptar plugin: %d"
                    (Z.of_nat (length snapids))))
  end)).

End WithLibraries.

(** *** Reading the calls *)

Definition is_Rename (c : Call) : bool :=
  match c with Rename _ _ => true | _ => false end.

Definition is_RemoveAll (c : Call) : bool :=
  match c with RemoveAll _ => true | _ => false end.

(** The paths that a call writes to or removes. *)
Definition touches (c : Call) : list string :=
  match c with
  | Restore dest _ _ _ => [dest]
  | Rename oldpath newpath => [oldpath; newpath]
  | RemoveAll path => [path]
  | _ => []
  end.

(** Every step before the creation of the temporary directory succeeds,
    with one snapshot in the archive. *)
Definition loaded (r : Results) : Prop :=
  Open_err r = None ∧ New_err r = None ∧ (∃ snapid, Locate_ids r = [snapid]) ∧
  Load_err r = None ∧ NewFSExporter_err r = None.

(** The archive is restored into a temporary directory. *)
Definition restored (r : Results) : Prop :=
  loaded r ∧ (∃ tmpdir, MkdirTemp_res r = inl tmpdir) ∧ Restore_err r = None.

End PluginExtract.

(** ** A manifest and an archive to run [loadplugin] and [extract] on *)

Module PluginExamples.
Import Plugins.

(** A join that does not clean its result, for paths without dots. *)
Definition Join (dir name : string) : string := dir +:+ "/" +:+ name.

Definition Ext (name : string) : string :=
  if String.eqb name "fs_v1.0.0.ptar" then ".ptar" else "".

(** Three flags, each on a bit of its own. *)
Definition ParseFlag (flag : string) : option Z :=
  if String.eqb flag "localfs" then Some 1
  else if String.eqb flag "file" then Some 2
  else if String.eqb flag "stream" then Some 4
  else None.

(** An importer for two protocols, an entry whose type is misspelt, and a
    storage after it. *)
Definition manifest : list Entry :=
  [mkEntry "importer" ["fs"; "file"] ["localfs"; "file"] "fs-importer";
   mkEntry "exportr" ["fs"] [] "fs-exporter";
   mkEntry "storage" ["fs"] ["localfs"] "fs-storage"].

(** The plugin is not in the cache and extracts well. *)
Definition not_cached : Results :=
  mkResults (Some "no such file or directory") None None (inl manifest).

(** An archive without a snapshot, whose listing also fails. *)
Definition empty_archive : PluginExtract.Results :=
  PluginExtract.mkResults None None [] (Some "listing failed") None None
                          (inl "/cache/plugin-extract-1") "/" None None.

End PluginExamples.

(** ** Parsing the command line of [pkg create]: [PkgCreate.Parse] *)

Module PkgCreateParse.

(** [plugins.Manifest], with the two fields that [Parse] reads. *)
Record Manifest := mkManifest {
  Name : string;
  Version : string
}.

(** The fields of [PkgCreate]. *)
Record PkgCreate := mkPkgCreate {
  Out : string;
  Args : list string;
  Manifest_ : Manifest
}.

Record error := Errorf { format : string; args : list string }.

(** What opening and decoding the manifest answer. A decoding that fails
    is taken to leave [cmd.Manifest] as it was. *)
Record Results := mkResults {
  Open_err : option string;
  Decode_res : Manifest + string
}.

Inductive Call :=
| Open (path : string)
| Decode
| Close.

Section WithLibraries.

(** [filepath.Join] *)
Variable Join : string → string → string.

(** [Parse], from what [flags.Parse] leaves: [out] is the value of [-out]
    (empty when the option is absent), stored in [cmd.Out] by the flag
    set, and [positional] is [flags.Args()]. Closing the manifest is
    deferred from the moment it is open. *)
Definition Parse (CWD out : string) (positional : list string)
    (cmd : PkgCreate) (r : Results) : PkgCreate * list Call * option error :=
  let cmd := mkPkgCreate out (Args cmd) (Manifest_ cmd) in
  match positional with
  | [] | [_] => (cmd, [], Some (Errorf "not enough arguments" []))
  | path :: _ =>
    let cmd := mkPkgCreate (Out cmd) positional (Manifest_ cmd) in
    match Open_err r with
    | Some e => (cmd, [Open path], Some (Errorf "can't open %s: %w" [path; e]))
    | None =>
      match Decode_res r with
      | inr e =>
        (cmd, [Open path; Decode; Close],
         Some (Errorf "failed to parse the manifest %s: %w" [path; e]))
      | inl m =>
        let cmd := mkPkgCreate (Out cmd) (Args cmd) m in
        let cmd :=
          if decide (Out cmd = "") then
            mkPkgCreate (Join CWD (Name m +:+ "-v" +:+ Version m +:+ ".ptar"))
                        (Args cmd) (Manifest_ cmd)
          else cmd in
        (cmd, [Open path; Decode; Close], None)
      end
    end
  end.

End WithLibraries.

(** *** Reading the calls of [PkgCreate.Execute] *)

(** The locations of the stores that are created. *)
Definition locations (calls : list PkgCreate.Call) : list string :=
  omap (λ c, match c with
             | PkgCreate.StorageCreate location _ => Some location
             | _ => None
             end) calls.

(** The files that the importer of a backup is given. *)
Definition packed (calls : list PkgCreate.Call) : list (list string) :=
  omap (λ c, match c with
             | PkgCreate.Backup files _ => Some files
             | _ => None
             end) calls.

End PkgCreateParse.

(** * Properties of the agent *)

Module AgentSpec.
Import Agent.

Section Handlers.
Context {Configuration : Type}.
Variable ParseConfigBytes : list byte → option Configuration * option error.

Lemma consistent_Execute ctx : consistent (Execute ctx : Daemon Configuration).
Proof.
  split; simpl.
  - by left.
  - split; [discriminate | by intros [? ?]].
  - discriminate.
  - discriminate.
Qed.

Lemma startTasks_consistent (d : Daemon Configuration) :
  consistent d → consistent (startTasks d).2.
Proof.
  intros [Hv Hc Hcfg Ha]. unfold startTasks.
  destruct d as [[a c cfg st] f e]; simpl in *.
  destruct cfg as [cfg|]; simpl; [|by split].
  destruct Hv as [-> | ->]; simpl.
  - split; simpl.
    + by right.
    + split; eauto.
    + eauto.
    + intros ctx [= <-]. lia.
  - split; simpl; auto.
Qed.

Lemma stopTasks_consistent (d : Daemon Configuration) :
  consistent d → ∃ r, stopTasks d = Some r ∧ consistent r.2.
Proof.
  intros [Hv Hc Hcfg Ha]. unfold stopTasks.
  destruct d as [[a c cfg st] f e]; simpl in *.
  destruct Hv as [-> | ->]; simpl.
  - eexists; split; [done|]. split; simpl; auto.
  - destruct Hc as [Hc _]. destruct (Hc eq_refl) as [ctx ->]. simpl.
    eexists; split; [done|]. split; simpl.
    + by left.
    + split; [discriminate | by intros [? ?]].
    + discriminate.
    + discriminate.
Qed.

Lemma terminate_consistent (d : Daemon Configuration) : consistent d → consistent (terminate d).2.
Proof. intros [Hv Hc Hcfg Ha]. by split. Qed.

Lemma configureTasks_consistent payload d :
  parser_contract ParseConfigBytes →
  consistent d → consistent (configureTasks ParseConfigBytes payload d).2.
Proof.
  intros Hp [Hv Hc Hcfg Ha]. unfold configureTasks.
  specialize (Hp payload).
  destruct (ParseConfigBytes payload) as [cfg' [err|]]; simpl in *; [by split|].
  destruct (Hp eq_refl) as [c' ->].
  destruct d as [[a c cfg st] f e]; simpl in *.
  destruct c as [old|]; simpl.
  - split; simpl.
    + done.
    + split; [by eauto | intros _; by apply Hc].
    + eauto.
    + intros ctx [= <-]. lia.
  - split; simpl; eauto.
Qed.

Lemma respond_daemon (r : (Z * option error) * Daemon Configuration) : (respond r).2 = r.2.
Proof. by destruct r as [[? [?|]] ?]. Qed.

Lemma handleClient_consistent request d :
  parser_contract ParseConfigBytes →
  consistent d → ∃ r, handleClient ParseConfigBytes request d = Some r ∧ consistent r.2.
Proof.
  intros Hp Hd. unfold handleClient.
  repeat case_decide.
  - eexists; split; [done|]. rewrite respond_daemon. by apply startTasks_consistent.
  - destruct (stopTasks_consistent d Hd) as (r & -> & Hr). simpl.
    eexists; split; [done|]. by rewrite respond_daemon.
  - eexists; split; [done|]. rewrite respond_daemon. by apply terminate_consistent.
  - eexists; split; [done|]. rewrite respond_daemon.
    by apply configureTasks_consistent.
  - eexists; split; [done|]. done.
Qed.

Lemma serve_consistent requests d :
  parser_contract ParseConfigBytes →
  consistent d → ∃ d', serve ParseConfigBytes requests d = Some d' ∧ consistent d'.
Proof.
  intros Hp. revert d. induction requests as [|r rest IH]; intros d Hd; simpl.
  - by exists d.
  - destruct (handleClient_consistent r d Hp Hd) as ([resp d'] & -> & Hd').
    by apply IH.
Qed.

(** As long as no configure request has gone through, the singleton has
    no configuration. *)
Lemma handleClient_unconfigured request (d : Daemon Configuration) r :
  ¬ applies_configuration ParseConfigBytes request →
  schedulerConfig (schedulerContextSingleton d) = None →
  handleClient ParseConfigBytes request d = Some r →
  schedulerConfig (schedulerContextSingleton r.2) = None.
Proof.
  intros Hna Hnone. unfold handleClient, applies_configuration in *.
  repeat case_decide.
  - intros [= <-]. rewrite respond_daemon. unfold startTasks. by rewrite Hnone.
  - unfold stopTasks.
    destruct (Z.land _ _ =? 0); simpl.
    + by intros [= <-].
    + destruct (schedulerCtx _); simpl; [|done]. by intros [= <-].
  - by intros [= <-].
  - intros [= <-]. rewrite respond_daemon. unfold configureTasks.
    destruct (ParseConfigBytes (Payload request)) as [cfg [err|]]; simpl in *;
      [done|].
    by destruct Hna.
  - by intros [= <-].
Qed.

Lemma serve_unconfigured requests (d d' : Daemon Configuration) :
  Forall (λ r, ¬ applies_configuration ParseConfigBytes r) requests →
  schedulerConfig (schedulerContextSingleton d) = None →
  serve ParseConfigBytes requests d = Some d' →
  schedulerConfig (schedulerContextSingleton d') = None.
Proof.
  intros Hall. revert d.
  induction Hall as [|r rest Hr _ IH]; intros d Hnone; simpl.
  - by intros [= <-].
  - destruct (handleClient _ r d) as [[resp d1]|] eqn:Hstep; [|done].
    apply IH.
    by apply (handleClient_unconfigured r d (resp, d1)).
Qed.

(** C1. After any sequence of requests served since the daemon was
    created: a start request, when no configure request has gone through
    so far, is answered with exit code 1 and "agent scheduler does not
    have a configuration"; a start request in the RUNNING state is
    answered with exit code 1 and "agent scheduler already running"; a
    stop request in the STOPPED state is answered with exit code 1 and
    "agent scheduler not running". In the three cases the daemon (the
    singleton, and what was done outside it) is exactly as before. *)
Theorem start_stop_errors :
  parser_contract ParseConfigBytes →
  ∀ (ctx : AppContextPtr) (requests : list Request),
  ∃ d, serve ParseConfigBytes requests (Execute ctx) = Some d ∧
    (∀ request, Type_ request = "start" →
       Forall (λ r, ¬ applies_configuration ParseConfigBytes r) requests →
       handleClient ParseConfigBytes request d =
         Some (mkResponse 1 "agent scheduler does not have a configuration", d)) ∧
    (∀ request, Type_ request = "start" →
       schedulerState_ (schedulerContextSingleton d) = AGENT_SCHEDULER_RUNNING →
       handleClient ParseConfigBytes request d =
         Some (mkResponse 1 "agent scheduler already running", d)) ∧
    (∀ request, Type_ request = "stop" →
       schedulerState_ (schedulerContextSingleton d) = AGENT_SCHEDULER_STOPPED →
       handleClient ParseConfigBytes request d =
         Some (mkResponse 1 "agent scheduler not running", d)).
Proof.
  intros Hp ctx requests.
  destruct (serve_consistent requests (Execute ctx) Hp
              (consistent_Execute ctx)) as (d & Hserve & Hd).
  exists d. split; [done|]. split; [|split].
  - intros request Hty Hall. unfold handleClient. rewrite Hty.
    rewrite decide_True by done. unfold startTasks.
    by rewrite (serve_unconfigured requests (Execute ctx) d Hall eq_refl Hserve).
  - intros request Hty Hrun. unfold handleClient. rewrite Hty.
    rewrite decide_True by done. unfold startTasks.
    destruct (running_config _ Hd Hrun) as [cfg ->]. by rewrite Hrun.
  - intros request Hty Hstop. unfold handleClient. rewrite Hty.
    rewrite decide_False by done. rewrite decide_True by done.
    unfold stopTasks. by rewrite Hstop.
Qed.

(** C9. After any sequence of requests served since the daemon was
    created with only its agent context, no handler has panicked, the
    state is RUNNING exactly when the stored scheduler context is not
    nil, and a RUNNING daemon has a stored configuration. *)
Theorem running_iff_context :
  parser_contract ParseConfigBytes →
  ∀ (ctx : AppContextPtr) (requests : list Request),
  ∃ d, serve ParseConfigBytes requests (Execute ctx) = Some d ∧
    (schedulerState_ (schedulerContextSingleton d) = AGENT_SCHEDULER_RUNNING ↔
     schedulerCtx (schedulerContextSingleton d) ≠ None) ∧
    (schedulerState_ (schedulerContextSingleton d) = AGENT_SCHEDULER_RUNNING →
     schedulerConfig (schedulerContextSingleton d) ≠ None).
Proof.
  intros Hp ctx requests.
  destruct (serve_consistent requests (Execute ctx) Hp
              (consistent_Execute ctx)) as (d & Hserve & Hd).
  exists d. split; [done|]. split.
  - rewrite (running_ctx _ Hd). by rewrite not_eq_None_Some.
  - intros Hrun. apply not_eq_None_Some. by apply (running_config _ Hd).
Qed.

(** C2. A configure request whose payload deserializes is answered with
    exit code 0 and stores the new configuration, whatever the run state,
    which it leaves as it was. If a scheduler context is stored, the
    request cancels that one context, creates one context from the agent
    context, launches one scheduler on it with the new configuration and
    stores it, and does nothing else; on a daemon reached by requests the
    new context is not the cancelled one. If no context is stored, the
    request does nothing outside the singleton and no context is
    stored. *)
Theorem configure_replaces_scheduler :
  ∀ (payload : list byte) (schedConfig : option Configuration)
    (d : Daemon Configuration),
  ParseConfigBytes payload = (schedConfig, None) →
  ∃ d', configureTasks ParseConfigBytes payload d = ((0, None), d') ∧
    (∀ request, Type_ request = "configure" → Payload request = payload →
       handleClient ParseConfigBytes request d = Some (mkResponse 0 "", d')) ∧
    schedulerConfig (schedulerContextSingleton d') = schedConfig ∧
    schedulerState_ (schedulerContextSingleton d') =
      schedulerState_ (schedulerContextSingleton d) ∧
    agentCtx (schedulerContextSingleton d') =
      agentCtx (schedulerContextSingleton d) ∧
    match schedulerCtx (schedulerContextSingleton d) with
    | Some old =>
      effects d' = effects d ++
        [Cancel old;
         NewAppContextFrom (agentCtx (schedulerContextSingleton d)) (fresh d);
         GoRun (fresh d) schedConfig] ∧
      schedulerCtx (schedulerContextSingleton d') = Some (fresh d) ∧
      (consistent d → old ≠ fresh d)
    | None =>
      effects d' = effects d ∧
      schedulerCtx (schedulerContextSingleton d') = None
    end.
Proof.
  intros payload schedConfig d Hparse.
  assert (Hcfg : ∃ d', configureTasks ParseConfigBytes payload d = ((0, None), d')).
  { unfold configureTasks. rewrite Hparse.
    destruct (schedulerCtx _); simpl; eauto. }
  destruct Hcfg as [d' Hcfg]. exists d'. split; [done|]. split.
  { intros request Hty Hpl. unfold handleClient. rewrite Hty, Hpl.
    rewrite decide_False by done. rewrite decide_False by done.
    rewrite decide_False by done. rewrite decide_True by done.
    by rewrite Hcfg. }
  revert Hcfg. unfold configureTasks. rewrite Hparse.
  destruct d as [[a c cfg st] f e]; simpl.
  destruct c as [old|]; simpl; intros [= <-]; simpl.
  - repeat split; try done.
    + by rewrite <- !app_assoc.
    + intros Hd. pose proof (ctx_allocated _ Hd old eq_refl) as Hlt.
      simpl in Hlt. lia.
  - done.
Qed.

(** C10. A configure request whose payload does not deserialize is
    answered with exit code 1 and the error of the parser, and the daemon
    is exactly as before: same stored configuration, run state and
    scheduler context, nothing cancelled and nothing launched. *)
Theorem configure_parse_error :
  ∀ (payload : list byte) (schedConfig : option Configuration) (err : error)
    (d : Daemon Configuration),
  ParseConfigBytes payload = (schedConfig, Some err) →
  configureTasks ParseConfigBytes payload d = ((1, Some err), d) ∧
  (∀ request, Type_ request = "configure" → Payload request = payload →
     handleClient ParseConfigBytes request d = Some (mkResponse 1 err, d)).
Proof.
  intros payload schedConfig err d Hparse.
  assert (Hcfg : configureTasks ParseConfigBytes payload d = ((1, Some err), d)).
  { unfold configureTasks. by rewrite Hparse. }
  split; [done|].
  intros request Hty Hpl. unfold handleClient. rewrite Hty, Hpl.
  rewrite decide_False by done. rewrite decide_False by done.
  rewrite decide_False by done. rewrite decide_True by done.
  by rewrite Hcfg.
Qed.

End Handlers.

Lemma parse_meets_contract : parser_contract Examples.parse.
Proof. intros [|b payload]; simpl; [discriminate | eauto]. Qed.

(** The daemon after configure, start, configure, stop: the three refusals
    at that point. *)
Lemma start_stop_errors_witness :
  ∃ d, serve Examples.parse
         [Examples.configure ["a"%byte]; Examples.start;
          Examples.configure ["b"%byte]; Examples.stop] (Execute 0%nat) = Some d ∧
    (∀ request, Type_ request = "start" →
       Forall (λ r, ¬ applies_configuration Examples.parse r)
         [Examples.configure ["a"%byte]; Examples.start;
          Examples.configure ["b"%byte]; Examples.stop] →
       handleClient Examples.parse request d =
         Some (mkResponse 1 "agent scheduler does not have a configuration", d)) ∧
    (∀ request, Type_ request = "start" →
       schedulerState_ (schedulerContextSingleton d) = AGENT_SCHEDULER_RUNNING →
       handleClient Examples.parse request d =
         Some (mkResponse 1 "agent scheduler already running", d)) ∧
    (∀ request, Type_ request = "stop" →
       schedulerState_ (schedulerContextSingleton d) = AGENT_SCHEDULER_STOPPED →
       handleClient Examples.parse request d =
         Some (mkResponse 1 "agent scheduler not running", d)).
Proof.
  apply (start_stop_errors Examples.parse parse_meets_contract 0%nat
           [Examples.configure ["a"%byte]; Examples.start;
            Examples.configure ["b"%byte]; Examples.stop]).
Defined.

Lemma running_iff_context_witness :
  ∃ d, serve Examples.parse
         [Examples.configure ["a"%byte]; Examples.start;
          Examples.configure []; Examples.terminate] (Execute 0%nat) = Some d ∧
    (schedulerState_ (schedulerContextSingleton d) = AGENT_SCHEDULER_RUNNING ↔
     schedulerCtx (schedulerContextSingleton d) ≠ None) ∧
    (schedulerState_ (schedulerContextSingleton d) = AGENT_SCHEDULER_RUNNING →
     schedulerConfig (schedulerContextSingleton d) ≠ None).
Proof.
  apply (running_iff_context Examples.parse parse_meets_contract 0%nat
           [Examples.configure ["a"%byte]; Examples.start;
            Examples.configure []; Examples.terminate]).
Defined.

Lemma configure_replaces_scheduler_witness :
  ∃ d', configureTasks Examples.parse ["b"%byte] Examples.running_daemon = ((0, None), d') ∧
    (∀ request, Type_ request = "configure" → Payload request = ["b"%byte] →
       handleClient Examples.parse request Examples.running_daemon =
         Some (mkResponse 0 "", d')) ∧
    schedulerConfig (schedulerContextSingleton d') = Some ["b"%byte] ∧
    schedulerState_ (schedulerContextSingleton d') = AGENT_SCHEDULER_RUNNING ∧
    agentCtx (schedulerContextSingleton d') = 0%nat ∧
    effects d' =
      [NewAppContextFrom 0%nat 1%nat; GoRun 1%nat (Some ["a"%byte]);
       Cancel 1%nat; NewAppContextFrom 0%nat 2%nat; GoRun 2%nat (Some ["b"%byte])] ∧
    schedulerCtx (schedulerContextSingleton d') = Some 2%nat ∧
    (consistent Examples.running_daemon → 1%nat ≠ 2%nat).
Proof.
  apply (configure_replaces_scheduler Examples.parse ["b"%byte]
           (Some ["b"%byte]) Examples.running_daemon).
  reflexivity.
Defined.

Lemma configure_parse_error_witness :
  configureTasks Examples.parse [] Examples.running_daemon =
    ((1, Some "empty configuration"), Examples.running_daemon) ∧
  (∀ request, Type_ request = "configure" → Payload request = [] →
     handleClient Examples.parse request Examples.running_daemon =
       Some (mkResponse 1 "empty configuration", Examples.running_daemon)).
Proof.
  apply (configure_parse_error Examples.parse [] None "empty configuration"
           Examples.running_daemon).
  reflexivity.
Defined.

(** configure, start, configure, stop, and a second stop that is refused:
    two schedulers were launched and both were cancelled. *)
Example serve_configure_start_configure_stop :
  serve Examples.parse
    [Examples.configure ["a"%byte]; Examples.start;
     Examples.configure ["b"%byte]; Examples.stop; Examples.stop]
    (Execute 0%nat) =
  Some (mkDaemon
          (mkSchedulerContext 0%nat None (Some ["b"%byte]) AGENT_SCHEDULER_STOPPED)
          3%nat
          [NewAppContextFrom 0%nat 1%nat; GoRun 1%nat (Some ["a"%byte]);
           Cancel 1%nat; NewAppContextFrom 0%nat 2%nat;
           GoRun 2%nat (Some ["b"%byte]); Cancel 2%nat]).
Proof. reflexivity. Qed.

Example start_before_configure :
  handleClient Examples.parse Examples.start (Execute 0%nat) =
  Some (mkResponse 1 "agent scheduler does not have a configuration",
        Execute 0%nat).
Proof. reflexivity. Qed.

Example unknown_command :
  handleClient Examples.parse (mkRequest "restart" []) (Execute 0%nat) =
  Some (mkResponse 1 "unknown command: restart", Execute 0%nat).
Proof. reflexivity. Qed.

End AgentSpec.

(** * Properties of the scheduler service *)

Module ServiceSpec.
Import Service.

Section Traces.

Lemma omap_bind {A B C} (f : B → option C) (k : A → list B) (l : list A) :
  omap f (l ≫= k) = l ≫= (λ x, omap f (k x)).
Proof.
  induction l as [|x l IH]; [done|].
  cbn [mbind list_bind]. rewrite omap_app. by f_equal.
Qed.

Lemma fmap_filter_bind {A B C} (h : B → C) (P : B → Prop)
    `{!∀ x, Decision (P x)} (k : A → list B) (l : list A) :
  h <$> filter P (l ≫= k) = l ≫= (λ x, h <$> filter P (k x)).
Proof.
  induction l as [|x l IH]; [done|].
  cbn [mbind list_bind]. rewrite filter_app, fmap_app. by f_equal.
Qed.

Lemma bind_ext {A B} (f g : A → list B) (l : list A) :
  (∀ x, f x = g x) → l ≫= f = l ≫= g.
Proof.
  intros Hfg. induction l as [|x l IH]; [done|].
  cbn [mbind list_bind]. by rewrite Hfg, IH.
Qed.

Lemma elem_of_planned order date name j t :
  (name, j, t) ∈ planned order date ↔
  (name, j) ∈ order ∧
  ∃ schedule, schedule ∈ Schedules j ∧ t ∈ PlanForDate schedule date.
Proof.
  unfold planned. rewrite list_elem_of_bind. split.
  - intros ([name' j'] & Hin & Ho).
    apply list_elem_of_bind in Hin as (schedule & Hin & Hs).
    apply list_elem_of_bind in Hin as (t' & Hin & Ht).
    apply list_elem_of_singleton in Hin as [= -> -> ->]. eauto.
  - intros (Ho & schedule & Hs & Ht).
    exists (name, j). split; [|done].
    apply list_elem_of_bind. exists schedule. split; [|done].
    apply list_elem_of_bind. exists t. split; [|done].
    by apply list_elem_of_singleton.
Qed.

Lemma armed_schedule_one date name j t :
  armed (schedule_one date name j t) =
  (λ x, (mkScheduledJob x.2 x.1.2, x.2)) <$>
    filter (λ x : string * Job * Time, Before x.2 date = false) [(name, j, t)].
Proof.
  unfold schedule_one.
  rewrite filter_cons, filter_nil. cbn [snd].
  by destruct (Before t date).
Qed.

Lemma ignored_schedule_one date name j t :
  ignored (schedule_one date name j t) =
  (λ x, (x.1.1, x.2)) <$>
    filter (λ x : string * Job * Time, Before x.2 date = true) [(name, j, t)].
Proof.
  unfold schedule_one.
  rewrite filter_cons, filter_nil. cbn [snd].
  by destruct (Before t date).
Qed.

(** The events armed by [ScheduleForDate], in the order of the calls. *)
Lemma armed_ScheduleForDate order date :
  armed (ScheduleForDate order date) =
  (λ x, (mkScheduledJob x.2 x.1.2, x.2)) <$>
    filter (λ x : string * Job * Time, Before x.2 date = false)
           (planned order date).
Proof.
  unfold ScheduleForDate, planned. cbn [armed omap list_omap]. fold (armed (order ≫= schedule_job date)).
  unfold armed at 1. rewrite omap_bind, fmap_filter_bind.
  apply bind_ext. intros [name j]. unfold schedule_job. cbn [fst snd].
  rewrite omap_bind, fmap_filter_bind.
  apply bind_ext. intros schedule. unfold schedule_plan.
  rewrite omap_bind, fmap_filter_bind.
  apply bind_ext. intros t. apply armed_schedule_one.
Qed.

Lemma ignored_ScheduleForDate order date :
  ignored (ScheduleForDate order date) =
  (λ x, (x.1.1, x.2)) <$>
    filter (λ x : string * Job * Time, Before x.2 date = true)
           (planned order date).
Proof.
  unfold ScheduleForDate, planned.
  change (ignored (?e :: ?l)) with (ignored l).
  unfold ignored at 1. rewrite omap_bind, fmap_filter_bind.
  apply bind_ext. intros [name j]. unfold schedule_job. cbn [fst snd].
  rewrite omap_bind, fmap_filter_bind.
  apply bind_ext. intros schedule. unfold schedule_plan.
  rewrite omap_bind, fmap_filter_bind.
  apply bind_ext. intros t. apply ignored_schedule_one.
Qed.

Lemma elem_of_range_order config order name j :
  range_order config order →
  (name, j) ∈ order ↔ Jobs config !! name = Some j.
Proof.
  unfold range_order. intros ->. apply elem_of_map_to_list.
Qed.

(** C3. For a configuration, an order in which the map of jobs is
    visited and a date: [ScheduleForDate] arms one job-ready event, at
    [t] and for the job, for each timestamp [t] that a schedule of a job
    plans for the date and that is not before the date, in the order of
    the plans, and arms nothing else; so an event is armed for [(job, t)]
    exactly when [t] is planned by a schedule of the job and is not
    before the date, and no armed event is before the date. A planned
    timestamp that is before the date gets its "ignore for past time"
    line and nothing else. *)
Theorem ScheduleForDate_skips_past (config : Configuration)
    (order : list (string * Job)) (date : Time) :
  range_order config order →
  armed (ScheduleForDate order date) =
    ((λ x, (mkScheduledJob x.2 x.1.2, x.2)) <$>
       filter (λ x : string * Job * Time, Before x.2 date = false)
              (planned order date)) ∧
  ignored (ScheduleForDate order date) =
    ((λ x, (x.1.1, x.2)) <$>
       filter (λ x : string * Job * Time, Before x.2 date = true)
              (planned order date)) ∧
  (∀ sj t, (sj, t) ∈ armed (ScheduleForDate order date) ↔
     ∃ name schedule,
       Jobs config !! name = Some (job sj) ∧
       schedule ∈ Schedules (job sj) ∧
       t ∈ PlanForDate schedule date ∧
       ¬ t < date ∧ scheduled sj = t) ∧
  (∀ sj t, (sj, t) ∈ armed (ScheduleForDate order date) → date ≤ t) ∧
  (∀ name j schedule t,
     Jobs config !! name = Some j → schedule ∈ Schedules j →
     t ∈ PlanForDate schedule date → t < date →
     (name, t) ∈ ignored (ScheduleForDate order date) ∧
     ∀ sj, (sj, t) ∉ armed (ScheduleForDate order date)).
Proof.
  intros Horder.
  assert (Harmed : ∀ sj t, (sj, t) ∈ armed (ScheduleForDate order date) ↔
     ∃ name schedule,
       Jobs config !! name = Some (job sj) ∧
       schedule ∈ Schedules (job sj) ∧
       t ∈ PlanForDate schedule date ∧
       ¬ t < date ∧ scheduled sj = t).
  { intros sj t. rewrite armed_ScheduleForDate, list_elem_of_fmap. split.
    - intros ([[name j] t'] & [= -> ->] & Hin). cbn [fst snd] in *.
      apply list_elem_of_filter in Hin as [Hdue Hin]. cbn [snd] in Hdue.
      apply elem_of_planned in Hin as (Ho & schedule & Hs & Ht).
      exists name, schedule. cbn [job scheduled].
      rewrite <- (elem_of_range_order config order name j Horder).
      repeat split; try done.
      unfold Before in Hdue. apply Z.ltb_ge in Hdue. lia.
    - intros (name & schedule & Hj & Hs & Ht & Hdue & <-).
      exists (name, job sj, scheduled sj). split; [by destruct sj|].
      apply list_elem_of_filter. split.
      + cbn [snd]. unfold Before. apply Z.ltb_ge. lia.
      + apply elem_of_planned. split; [|by eauto].
        by apply (elem_of_range_order config order). }
  split; [apply armed_ScheduleForDate|].
  split; [apply ignored_ScheduleForDate|].
  split; [done|]. split.
  - intros sj t (name & schedule & _ & _ & _ & Hdue & _)%Harmed. lia.
  - intros name j schedule t Hj Hs Ht Hpast. split.
    + rewrite ignored_ScheduleForDate, list_elem_of_fmap.
      exists (name, j, t). split; [done|].
      apply list_elem_of_filter. split.
      * cbn [snd]. unfold Before. by apply Z.ltb_lt.
      * apply elem_of_planned. split; [|by eauto].
        by apply (elem_of_range_order config order).
    + intros sj (name' & schedule' & _ & _ & _ & Hdue & _)%Harmed. lia.
Qed.

(** C7. For a configuration and a date, two calls of [ScheduleForDate],
    each with its own order of visiting the map of jobs, arm the same
    events, each as many times in one call as in the other; in
    particular the same set of (job, timestamp). *)
Theorem ScheduleForDate_twice (config : Configuration)
    (order1 order2 : list (string * Job)) (date : Time) :
  range_order config order1 →
  range_order config order2 →
  armed (ScheduleForDate order1 date) ≡ₚ armed (ScheduleForDate order2 date) ∧
  (∀ sj t, (sj, t) ∈ armed (ScheduleForDate order1 date) ↔
           (sj, t) ∈ armed (ScheduleForDate order2 date)).
Proof.
  unfold range_order. intros H1 H2.
  assert (Hperm : armed (ScheduleForDate order1 date) ≡ₚ
                  armed (ScheduleForDate order2 date)).
  { rewrite !armed_ScheduleForDate. unfold planned.
    rewrite H1, <- H2. done. }
  split; [done|].
  intros sj t. by rewrite Hperm.
Qed.

End Traces.

Lemma range_order_config_1 :
  range_order Examples.config
    [("nightly", Examples.nightly); ("morning", Examples.morning)].
Proof.
  unfold range_order, Examples.config. cbn [Jobs].
  rewrite map_to_list_insert by done.
  by rewrite map_to_list_singleton.
Qed.

Lemma range_order_config_2 :
  range_order Examples.config
    [("morning", Examples.morning); ("nightly", Examples.nightly)].
Proof.
  unfold range_order. rewrite <- range_order_config_1. apply perm_swap.
Qed.

(** Planning at 02:46:40 arms 14:00 for the first job and 06:00 for the
    second, and ignores 02:00. *)
Lemma ScheduleForDate_skips_past_witness :
  armed (ScheduleForDate
           [("nightly", Examples.nightly); ("morning", Examples.morning)]
           Examples.date) =
    [(mkScheduledJob (19732 * 86400 + 50400) Examples.nightly,
      19732 * 86400 + 50400);
     (mkScheduledJob (19732 * 86400 + 21600) Examples.morning,
      19732 * 86400 + 21600)] ∧
  ignored (ScheduleForDate
             [("nightly", Examples.nightly); ("morning", Examples.morning)]
             Examples.date) =
    [("nightly", 19732 * 86400 + 7200)].
Proof.
  pose proof (ScheduleForDate_skips_past Examples.config
                [("nightly", Examples.nightly); ("morning", Examples.morning)]
                Examples.date range_order_config_1) as (Harmed & Hignored & _).
  split; [exact Harmed | exact Hignored].
Defined.

Lemma ScheduleForDate_twice_witness :
  armed (ScheduleForDate
           [("nightly", Examples.nightly); ("morning", Examples.morning)]
           Examples.date) ≡ₚ
  armed (ScheduleForDate
           [("morning", Examples.morning); ("nightly", Examples.nightly)]
           Examples.date).
Proof.
  apply (ScheduleForDate_twice Examples.config
           [("nightly", Examples.nightly); ("morning", Examples.morning)]
           [("morning", Examples.morning); ("nightly", Examples.nightly)]
           Examples.date range_order_config_1 range_order_config_2).
Defined.

(** The trace of planning at 02:46:40. *)
Example ScheduleForDate_example :
  ScheduleForDate [("nightly", Examples.nightly); ("morning", Examples.morning)]
                  Examples.date =
  [Debug "scheduling jobs for %v" [ArgTime 1704854800];
   Debug "job %q: ignore for past time %v"
         [ArgString "nightly"; ArgTime 1704852000];
   Debug "job %q: scheduled for %v" [ArgString "nightly"; ArgTime 1704895200];
   ScheduleAt (mkScheduledJob 1704895200 Examples.nightly) 1704895200;
   Debug "job %q: scheduled for %v" [ArgString "morning"; ArgTime 1704866400];
   ScheduleAt (mkScheduledJob 1704866400 Examples.morning) 1704866400].
Proof. reflexivity. Qed.

End ServiceSpec.

(** * Properties of the task loops *)

Module TasksSpec.
Import Tasks.

Section Loops.
Context `{Externals}.

Lemma trace_bind {A B} (m : M A) (f : A → M B) :
  trace (m ≫= f) = trace m ++ trace (f (value m)).
Proof. done. Qed.

Lemma value_bind {A B} (m : M A) (f : A → M B) :
  value (m ≫= f) = value (f (value m)).
Proof. done. Qed.

(** [loadRepository] only makes calls of its own kind. *)
Lemma loadRepository_events name r :
  Forall (λ e, is_load_event e = true) (trace (loadRepository name r)).
Proof.
  unfold loadRepository.
  destruct r as [reload get open conf derive canary new]; cbn.
  destruct reload; cbn; [by repeat constructor|].
  destruct get as [storeConfig|]; cbn; [|by repeat constructor].
  destruct open as [[store config]|]; cbn; [|by repeat constructor].
  destruct conf as [version|]; cbn; [|by repeat constructor].
  destruct (version =? current_version); cbn; [|by repeat constructor].
  destruct (storeConfig !! "passphrase"); cbn.
  - destruct derive; cbn; [|by repeat constructor].
    destruct canary; cbn; [|by repeat constructor].
    destruct new; cbn; by repeat constructor.
  - destruct new; cbn; by repeat constructor.
Qed.

Lemma omap_load_events {B} (f : Event → option B) (tr : list Event) :
  (∀ e, is_load_event e = true → f e = None) →
  Forall (λ e, is_load_event e = true) tr → omap f tr = [].
Proof.
  intros Hf. induction 1 as [|e tr He _ IH]; [done|].
  cbn. by rewrite (Hf e He).
Qed.

Lemma purges_loadRepository name r : purges (trace (loadRepository name r)) = [].
Proof.
  apply omap_load_events; [|apply loadRepository_events]. by intros [].
Qed.

Lemma outcomes_loadRepository name r :
  outcomes (trace (loadRepository name r)) = [].
Proof.
  apply omap_load_events; [|apply loadRepository_events]. by intros [].
Qed.

Lemma reports_loadRepository name r :
  filter (λ e, is_report_event e = true) (trace (loadRepository name r)) = [].
Proof.
  induction (loadRepository_events name r) as [|e tr He _ IH]; [done|].
  rewrite filter_cons. rewrite decide_False; [done|]. by destruct e.
Qed.

Lemma purges_app tr1 tr2 : purges (tr1 ++ tr2) = purges tr1 ++ purges tr2.
Proof. apply omap_app. Qed.

Lemma outcomes_app tr1 tr2 :
  outcomes (tr1 ++ tr2) = outcomes tr1 ++ outcomes tr2.
Proof. apply omap_app. Qed.

(** *** The ledger *)

Lemma take_out_head x l : take_out x (x :: l) = Some l.
Proof. cbn. by rewrite decide_True. Qed.

Lemma account_app tr1 tr2 o :
  account (tr1 ++ tr2) o = account tr1 o ≫= account tr2.
Proof.
  revert o. induction tr1 as [|e tr1 IH]; intros o; [done|].
  cbn. destruct (account_event o e) as [o'|]; cbn; [apply IH | done].
Qed.


(** The end of a tick: [repo.Close()] then [store.Close()]. *)
Lemma account_close tr repo store o :
  account tr (store :: o.1, repo :: o.2) = Some (store :: o.1, repo :: o.2) →
  account (tr ++ [RepoClose repo; StoreClose store])
          (store :: o.1, repo :: o.2) = Some o.
Proof.
  intros Htr. rewrite account_app, Htr. cbn.
  rewrite decide_True by done. cbn.
  rewrite decide_True by done. cbn. by destruct o.
Qed.









Lemma skips_tick_loop {R} interval (body : R → M unit) name load err r :
  trace (body r) = load_failure_trace name load err →
  skips_tick (loop interval body) interval (body r) name load err r.
Proof.
  intros Htick. repeat split.
  - done.
  - rewrite Htick. unfold load_failure_trace.
    by rewrite filter_app, reports_loadRepository.
Qed.

(** C5. In each of the five loops, a tick on which [loadRepository]
    returns an error consists of the calls of [loadRepository] followed
    by the line "Error loading repository: %s" with that error; it makes
    no call on the reporter or on a report; and the loop takes up the
    following rounds as it would have without that tick, blocked in
    [select] on a new timer if none follows. (The sync loop exists when
    the direction of the task is a recognized one.) *)
Theorem load_failure_skips_tick :
  (∀ taskset task r store err,
     value (loadRepository (Task_Repository taskset) (backup_load r)) =
       LoadFailed store err →
     skips_tick (backupTask taskset task) (Backup_Interval task)
       (backupTick taskset task r) (Task_Repository taskset)
       (backup_load r) err r) ∧
  (∀ taskset task r store err,
     value (loadRepository (Task_Repository taskset) (execute_load r)) =
       LoadFailed store err →
     skips_tick (checkTask taskset task) (Check_Interval task)
       (checkTick taskset task r) (Task_Repository taskset)
       (execute_load r) err r) ∧
  (∀ taskset task r store err,
     value (loadRepository (Task_Repository taskset) (execute_load r)) =
       LoadFailed store err →
     skips_tick (restoreTask taskset task) (Restore_Interval task)
       (restoreTick taskset task r) (Task_Repository taskset)
       (execute_load r) err r) ∧
  (∀ taskset task direction r store err,
     sync_direction task = Some direction →
     value (loadRepository (Task_Repository taskset) (execute_load r)) =
       LoadFailed store err →
     skips_tick (syncTask taskset task) (Sync_Interval task)
       (syncTick taskset (mkSync (Sync_Peer task) direction) r)
       (Task_Repository taskset) (execute_load r) err r) ∧
  (∀ task r store err,
     value (loadRepository (Maintenance_Repository task) (maintenance_load r)) =
       LoadFailed store err →
     skips_tick (maintenanceTask task) (Maintenance_Interval task)
       (maintenanceTick task r) (Maintenance_Repository task)
       (maintenance_load r) err r).
Proof.
  split; [|split; [|split; [|split]]].
  - intros taskset task r store err Hload.
    apply skips_tick_loop. unfold backupTick.
    by rewrite trace_bind, Hload.
  - intros taskset task r store err Hload.
    apply skips_tick_loop. unfold checkTick.
    by rewrite trace_bind, Hload.
  - intros taskset task r store err Hload.
    apply skips_tick_loop. unfold restoreTick.
    by rewrite trace_bind, Hload.
  - intros taskset task direction r store err Hdir Hload.
    unfold syncTask. rewrite Hdir.
    apply skips_tick_loop. unfold syncTick.
    by rewrite trace_bind, Hload.
  - intros task r store err Hload.
    apply skips_tick_loop. unfold maintenanceTick.
    by rewrite trace_bind, Hload.
Qed.


Lemma Duration_neg_exact (d : Duration) :
  - 2 ^ 63 < d < 2 ^ 63 → Duration_neg d = - d.
Proof.
  intros Hd. unfold Duration_neg, wrap64.
  rewrite Z.mod_small by lia. lia.
Qed.

Lemma purge_contract_intro retention now rm_res tr :
  (retention = 0 → purges tr = [] ∧ Forall (λ o, is_Failed o = false) (outcomes tr)) →
  (retention ≠ 0 →
   purges tr = [Time_Add now (Duration_neg retention)] ∧
   Forall (λ o, is_Failed o = false) (outcomes tr) ∧
   (failed rm_res.1 rm_res.2 = true →
    outcomes tr =
      [Warning "Error removing obsolete backups: retval=%d, err=%s"
               [ArgInt rm_res.1; ArgErr rm_res.2]])) →
  purge_contract retention now rm_res tr.
Proof.
  intros Hzero Hnonzero. unfold purge_contract.
  split; [by intros [? _]%Hzero|].
  split; [by intros [? _]%Hnonzero|].
  split; [intros Hd; unfold Time_Add; rewrite Duration_neg_exact by done; lia|].
  split; [by intros (_ & _ & Hw)%Hnonzero|].
  destruct (decide (retention = 0)) as [Hr|Hr].
  - by destruct (Hzero Hr).
  - by destruct (Hnonzero Hr) as (_ & ? & _).
Qed.

(** C4. On a tick of the backup loop whose backup returns no error and
    exit code 0, and on a tick of the maintenance loop whose maintenance
    does: no purge is attempted when [Retention] is zero; one purge is
    attempted otherwise, with the cut-off [time.Now().Add(-Retention)],
    which is the time read minus [Retention] (for every retention but the
    least [int64], which is its own negation); if that purge returns an
    error or a non-zero exit code, the report of the tick ends as the
    warning "Error removing obsolete backups"; and the report never ends
    as failed. *)
Theorem purge_failure_is_warning :
  (∀ taskset task r repo store snapId warning,
     value (loadRepository (Task_Repository taskset) (backup_load r)) =
       LoadOK repo store →
     DoBackup_res r = (0, None, snapId, warning) →
     purge_contract (Backup_Retention task) (backup_now r) (backup_rm_res r)
       (trace (backupTick taskset task r))) ∧
  (∀ task r repo store,
     value (loadRepository (Maintenance_Repository task) (maintenance_load r)) =
       LoadOK repo store →
     Maintenance_res r = (0, None) →
     purge_contract (Maintenance_Retention task) (maintenance_now r)
       (maintenance_rm_res r) (trace (maintenanceTick task r))).
Proof.
  split.
  - intros taskset task r repo store snapId warning Hload Hres.
    unfold backupTick. rewrite trace_bind, Hload, Hres.
    destruct (backup_rm_res r) as [rm_retval rm_err].
    apply purge_contract_intro; intros Hr;
      rewrite purges_app, outcomes_app,
        purges_loadRepository, outcomes_loadRepository.
    + rewrite Hr. cbn. destruct warning; cbn; by repeat constructor.
    + apply Z.eqb_neq in Hr. rewrite Hr. cbn.
      destruct (failed rm_retval rm_err); cbn.
      * by repeat constructor.
      * destruct warning; cbn; by repeat constructor.
  - intros task r repo store Hload Hres.
    unfold maintenanceTick. rewrite trace_bind, Hload, Hres.
    destruct (maintenance_rm_res r) as [rm_retval rm_err].
    apply purge_contract_intro; intros Hr;
      rewrite purges_app, outcomes_app,
        purges_loadRepository, outcomes_loadRepository.
    + rewrite Hr. cbn. by repeat constructor.
    + apply Z.eqb_neq in Hr. rewrite Hr. cbn.
      destruct (failed rm_retval rm_err); cbn; by repeat constructor.
Qed.

(** C8. A sync task whose direction is none of [SyncDirectionTo],
    [SyncDirectionFrom] and [SyncDirectionWith] cancels the context of
    the scheduler and returns, whatever rounds of [select] would have
    followed: that cancellation is its only call, so it opens no store
    and no repository and makes no call on the reporter or on a
    report. *)
Theorem invalid_direction_cancels taskset task rounds :
  Direction task ≠ SyncDirectionTo →
  Direction task ≠ SyncDirectionFrom →
  Direction task ≠ SyncDirectionWith →
  syncTask taskset task rounds = mkM [CtxCancel] Returned ∧
  filter (λ e, is_open_event e = true)
         (trace (syncTask taskset task rounds)) = [] ∧
  filter (λ e, is_report_event e = true)
         (trace (syncTask taskset task rounds)) = [].
Proof.
  intros Hto Hfrom Hwith.
  assert (Hsync : syncTask taskset task rounds = mkM [CtxCancel] Returned).
  { unfold syncTask, sync_direction. by rewrite !decide_False by done. }
  rewrite Hsync. done.
Qed.

End Loops.

#[local] Existing Instance Examples.externals.

(** The backup succeeds, the purge of what is older than ten minutes
    fails: one purge, a warning. *)
Lemma purge_failure_is_warning_witness :
  purge_contract 600000000000 1704854800000000000 (1, None)
    (trace (backupTick Examples.docs Examples.docs_backup Examples.purge_fails)) ∧
  purges (trace (backupTick Examples.docs Examples.docs_backup
                   Examples.purge_fails)) = [1704854200000000000] ∧
  outcomes (trace (backupTick Examples.docs Examples.docs_backup
                     Examples.purge_fails)) =
    [Warning "Error removing obsolete backups: retval=%d, err=%s"
             [ArgInt 1; ArgErr None]].
Proof.
  assert (Hc : purge_contract 600000000000 1704854800000000000 (1, None)
    (trace (backupTick Examples.docs Examples.docs_backup Examples.purge_fails))).
  { apply (proj1 purge_failure_is_warning Examples.docs Examples.docs_backup
             Examples.purge_fails 9%nat 7%nat [] None); reflexivity. }
  split; [exact Hc|].
  destruct Hc as (_ & Hpurge & _ & Hwarn & _).
  split; [apply Hpurge; discriminate | apply Hwarn; [discriminate | reflexivity]].
Defined.

(** The check loop when the passphrase is refused: the store that was
    opened is closed, the error is logged, the loop waits again. *)
Lemma load_failure_skips_tick_witness :
  skips_tick (checkTask Examples.docs Examples.docs_check) 3600000000000
    (checkTick Examples.docs Examples.docs_check Examples.passphrase_refused)
    "vault" Examples.load_bad_passphrase (Errorf "invalid passphrase" [])
    Examples.passphrase_refused.
Proof.
  apply (proj1 (proj2 load_failure_skips_tick) Examples.docs Examples.docs_check
           Examples.passphrase_refused None (Errorf "invalid passphrase" [])).
  reflexivity.
Defined.

Lemma invalid_direction_cancels_witness :
  syncTask Examples.docs Examples.docs_sync
    [Tick Examples.passphrase_refused; CtxDone] = mkM [CtxCancel] Returned ∧
  filter (λ e, is_open_event e = true)
    (trace (syncTask Examples.docs Examples.docs_sync
              [Tick Examples.passphrase_refused; CtxDone])) = [] ∧
  filter (λ e, is_report_event e = true)
    (trace (syncTask Examples.docs Examples.docs_sync
              [Tick Examples.passphrase_refused; CtxDone])) = [].
Proof.
  apply (invalid_direction_cancels Examples.docs Examples.docs_sync
           [Tick Examples.passphrase_refused; CtxDone]); discriminate.
Defined.

(** One tick of the backup loop on which the purge fails, then the loop
    waits for the next one. *)
Example backupTask_purge_fails :
  backupTask Examples.docs Examples.docs_backup [Tick Examples.purge_fails] =
  mkM [TimeAfter 3600000000000; ReloadConfig; GetRepository "vault";
       StorageOpen ∅ (Some 7%nat); NewConfigurationFromWrappedBytes [];
       RepositoryNew 7%nat [] (Some 9%nat); NewReport;
       TaskStart "backup" "docs"; WithRepositoryName "vault";
       WithRepository 9%nat;
       DoBackup (mkBackup true "docs" "/home/docs" true false) 9%nat;
       WithSnapshotID []; TimeNow;
       RmExecute (mkRm (mkLocateOptions "docs" false 1704854200000000000))
                 9%nat;
       LogError "Error removing obsolete backups: %s" [ArgErr None];
       TaskWarning "Error removing obsolete backups: retval=%d, err=%s"
                   [ArgInt 1; ArgErr None];
       RepoClose 9%nat; StoreClose 7%nat; TimeAfter 3600000000000]
      Blocked.
Proof. vm_compute. reflexivity. Qed.

(** One tick of the check loop on which the passphrase is refused. *)
Example checkTick_passphrase_refused :
  trace (checkTick Examples.docs Examples.docs_check
           Examples.passphrase_refused) =
  [ReloadConfig; GetRepository "vault";
   StorageOpen {[ "passphrase" := "secret" ]} (Some 7%nat);
   NewConfigurationFromWrappedBytes []; DeriveKey "secret"; VerifyCanary [];
   StoreClose 7%nat;
   LogError "Error loading repository: %s"
            [ArgErr (Some (Errorf "invalid passphrase" []))]].
Proof. vm_compute. reflexivity. Qed.

(** The ledger refuses a trace that closes a store twice, and one that
    leaves a repository open. *)
Example ledger_refuses_double_close :
  account [StorageOpen ∅ (Some 7%nat); StoreClose 7%nat; StoreClose 7%nat]
          ([], []) = None.
Proof. reflexivity. Qed.

Example ledger_sees_leak :
  account [StorageOpen ∅ (Some 7%nat); RepositoryNew 7%nat [] (Some 9%nat);
           StoreClose 7%nat] ([], []) = Some ([], [9%nat]).
Proof. reflexivity. Qed.

(** The least [int64] is its own negation. *)
Example Duration_neg_min : Duration_neg (- 2 ^ 63) = - 2 ^ 63.
Proof. reflexivity. Qed.

(** C4, as it is stated, fails for the least retention: the backup
    succeeds with exit code 0, the retention is not zero and one purge is
    attempted, but its cut-off is the time read plus the retention, about
    292 years before it, and not the time read minus the retention. *)
Lemma purge_cutoff_of_least_retention :
  value (loadRepository (Task_Repository Examples.docs)
           (backup_load RetentionExamples.purge_ok)) = LoadOK 9%nat 7%nat ∧
  DoBackup_res RetentionExamples.purge_ok = (0, None, [], None) ∧
  Backup_Retention RetentionExamples.least_retention ≠ 0 ∧
  purges (trace (backupTick Examples.docs RetentionExamples.least_retention
                   RetentionExamples.purge_ok)) =
    [backup_now RetentionExamples.purge_ok +
     Backup_Retention RetentionExamples.least_retention] ∧
  purges (trace (backupTick Examples.docs RetentionExamples.least_retention
                   RetentionExamples.purge_ok)) ≠
    [backup_now RetentionExamples.purge_ok -
     Backup_Retention RetentionExamples.least_retention].
Proof.
  split; [reflexivity|]. split; [reflexivity|]. split; [discriminate|].
  split; [reflexivity|]. vm_compute. discriminate.
Qed.

End TasksSpec.

(** * Further properties of the agent *)

Module AgentExtra.
Import Agent AgentLive.

Section Handlers.
Context {Configuration : Type}.
Variable ParseConfigBytes : list byte → option Configuration * option error.

Lemma live_snoc (es : list (Effect Configuration)) e :
  live (es ++ [e]) = live_step (live es) e.
Proof. unfold live. by rewrite foldl_snoc. Qed.

Lemma launched_with_snoc (es : list (Effect Configuration)) e ctx :
  launched_with (es ++ [e]) ctx = launched_step ctx (launched_with es ctx) e.
Proof. unfold launched_with. by rewrite foldl_snoc. Qed.

Lemma tracked_Execute ctx : tracked (Execute ctx : Daemon Configuration).
Proof.
  split; simpl.
  - by left.
  - split; [discriminate | by intros [? ?]].
  - done.
  - discriminate.
Qed.

Lemma tracked_startTasks (d : Daemon Configuration) :
  tracked d → tracked (startTasks d).2.
Proof.
  intros [Hv Hr Hl Hw]. unfold startTasks.
  destruct d as [[a c cfg st] f e]; simpl in *.
  destruct cfg as [cfg|]; simpl; [|by split].
  destruct Hv as [-> | ->]; simpl.
  - assert (c = None) as ->.
    { destruct c; [|done]. destruct Hr as [_ Hr]. by specialize (Hr (mk_is_Some _ _ eq_refl)). }
    split; simpl.
    + by right.
    + split; eauto.
    + rewrite !live_snoc, Hl. done.
    + intros ctx [= <-]. rewrite !launched_with_snoc. simpl.
      by rewrite decide_True.
  - split; simpl; auto.
Qed.

Lemma tracked_stopTasks (d : Daemon Configuration) :
  tracked d → ∃ r, stopTasks d = Some r ∧ tracked r.2.
Proof.
  intros [Hv Hr Hl Hw]. unfold stopTasks.
  destruct d as [[a c cfg st] f e]; simpl in *.
  destruct Hv as [-> | ->]; simpl.
  - eexists; split; [done|]. split; simpl; auto.
  - destruct Hr as [Hr _]. destruct (Hr eq_refl) as [ctx ->]. simpl in *.
    eexists; split; [done|]. split; simpl.
    + by left.
    + split; [discriminate | by intros [? ?]].
    + rewrite live_snoc, Hl. simpl. rewrite filter_cons, filter_nil.
      by rewrite decide_False by (intros Hne; by apply Hne).
    + discriminate.
Qed.

Lemma tracked_terminate (d : Daemon Configuration) :
  tracked d → tracked (terminate d).2.
Proof.
  intros [Hv Hr Hl Hw]. split; simpl; auto.
  - by rewrite live_snoc.
  - intros ctx Hctx. rewrite launched_with_snoc. by apply Hw.
Qed.

Lemma tracked_configureTasks payload (d : Daemon Configuration) :
  tracked d → tracked (configureTasks ParseConfigBytes payload d).2.
Proof.
  intros [Hv Hr Hl Hw]. unfold configureTasks.
  destruct (ParseConfigBytes payload) as [cfg' [err|]]; simpl; [by split|].
  destruct d as [[a c cfg st] f e]; simpl in *.
  destruct c as [old|]; simpl.
  - split; simpl.
    + done.
    + split; [by eauto | intros _; by apply Hr].
    + rewrite !live_snoc, Hl. simpl. rewrite filter_cons, filter_nil.
      by rewrite decide_False by (intros Hne; by apply Hne).
    + intros ctx [= <-]. rewrite !launched_with_snoc. simpl.
      by rewrite decide_True.
  - split; simpl; auto. intros ctx. discriminate.
Qed.

Lemma tracked_handleClient request (d : Daemon Configuration) :
  tracked d →
  ∃ r, handleClient ParseConfigBytes request d = Some r ∧ tracked r.2.
Proof.
  intros Hd. unfold handleClient. repeat case_decide.
  - eexists; split; [done|]. rewrite AgentSpec.respond_daemon.
    by apply tracked_startTasks.
  - destruct (tracked_stopTasks d Hd) as (r & -> & Hr). simpl.
    eexists; split; [done|]. by rewrite AgentSpec.respond_daemon.
  - eexists; split; [done|]. rewrite AgentSpec.respond_daemon.
    by apply tracked_terminate.
  - eexists; split; [done|]. rewrite AgentSpec.respond_daemon.
    by apply tracked_configureTasks.
  - by eexists.
Qed.

Lemma tracked_serve requests (d : Daemon Configuration) :
  tracked d →
  ∃ d', serve ParseConfigBytes requests d = Some d' ∧ tracked d'.
Proof.
  revert d. induction requests as [|r rest IH]; intros d Hd; simpl.
  - by exists d.
  - destruct (tracked_handleClient r d Hd) as ([resp d'] & -> & Hd').
    by apply IH.
Qed.

(** X1. After any sequence of requests served since the daemon was created,
    whatever the parser answers: the contexts on which a scheduler was
    launched and that were not cancelled since are exactly the stored
    scheduler context, if there is one; so at most one scheduler is live,
    and none when the stored context is nil. *)
Theorem one_live_scheduler (ctx : AppContextPtr) (requests : list Request) :
  ∃ d, serve ParseConfigBytes requests (Execute ctx) = Some d ∧
    live (effects d) = option_list (schedulerCtx (schedulerContextSingleton d)) ∧
    (length (live (effects d)) ≤ 1)%nat.
Proof.
  destruct (tracked_serve requests (Execute ctx) (tracked_Execute ctx))
    as (d & Hserve & Hd).
  exists d. split; [done|]. split; [apply (tracked_live _ Hd)|].
  rewrite (tracked_live _ Hd). destruct (schedulerCtx _); simpl; lia.
Qed.

(** X2. After any sequence of requests served since the daemon was created:
    the scheduler launched last on the stored context was given the
    configuration that is stored now. A configure request never leaves a
    scheduler running on the configuration it replaced. *)
Theorem live_scheduler_has_stored_configuration
    (ctx : AppContextPtr) (requests : list Request) :
  ∃ d, serve ParseConfigBytes requests (Execute ctx) = Some d ∧
    match schedulerCtx (schedulerContextSingleton d) with
    | Some c =>
      launched_with (effects d) c =
        Some (schedulerConfig (schedulerContextSingleton d))
    | None => True
    end.
Proof.
  destruct (tracked_serve requests (Execute ctx) (tracked_Execute ctx))
    as (d & Hserve & Hd).
  exists d. split; [done|].
  destruct (schedulerCtx _) as [c|] eqn:Hc; [|done].
  by apply (tracked_launched _ Hd).
Qed.

(** Settles the three parts of the statement below once the response is
    known. *)
Ltac answer := simpl; split; [auto | split; intros; congruence].

(** X3. Whatever the daemon, a request other than terminate is answered
    with exit code 0 or 1; with exit code 0 the error text is empty; and a
    request answered with a non-zero exit code (start or stop refused,
    payload of configure not deserialized, unknown command) leaves the
    daemon exactly as it was: nothing stored, nothing cancelled, nothing
    launched. *)
Theorem refused_request_changes_nothing
    (request : Request) (d d' : Daemon Configuration) (resp : Response) :
  Type_ request ≠ "terminate" →
  handleClient ParseConfigBytes request d = Some (resp, d') →
  (ExitCode resp = 0 ∨ ExitCode resp = 1) ∧
  (ExitCode resp = 0 → Err resp = "") ∧
  (ExitCode resp ≠ 0 → d' = d).
Proof.
  intros Hterm. unfold handleClient. repeat case_decide; try done.
  - unfold startTasks.
    destruct (schedulerConfig _); simpl; [|intros [= <- <-]; answer].
    destruct (negb _); simpl; intros [= <- <-]; answer.
  - unfold stopTasks.
    destruct (Z.land _ _ =? 0); simpl; [intros [= <- <-]; answer|].
    destruct (schedulerCtx _); simpl; [|done].
    intros [= <- <-]; answer.
  - unfold configureTasks.
    destruct (ParseConfigBytes (Payload request)) as [cfg [err|]]; simpl.
    + intros [= <- <-]; answer.
    + destruct (schedulerCtx _); simpl; intros [= <- <-]; answer.
  - intros [= <- <-]; answer.
Qed.

(** X4. On a daemon reached by requests and in the RUNNING state, a stop
    request is accepted and the start request that follows it is accepted
    too: stop keeps the configuration. Together they cancel the stored
    context and launch a scheduler with the stored configuration on a new
    context, different from the cancelled one, which becomes the stored
    context. *)
Theorem stop_then_start :
  parser_contract ParseConfigBytes →
  ∀ (ctx : AppContextPtr) (requests : list Request) (d : Daemon Configuration)
    (stop_request start_request : Request),
  serve ParseConfigBytes requests (Execute ctx) = Some d →
  schedulerState_ (schedulerContextSingleton d) = AGENT_SCHEDULER_RUNNING →
  Type_ stop_request = "stop" → Type_ start_request = "start" →
  ∃ old d1 d2,
    schedulerCtx (schedulerContextSingleton d) = Some old ∧
    handleClient ParseConfigBytes stop_request d = Some (mkResponse 0 "", d1) ∧
    handleClient ParseConfigBytes start_request d1 = Some (mkResponse 0 "", d2) ∧
    schedulerState_ (schedulerContextSingleton d1) = AGENT_SCHEDULER_STOPPED ∧
    schedulerCtx (schedulerContextSingleton d1) = None ∧
    schedulerState_ (schedulerContextSingleton d2) = AGENT_SCHEDULER_RUNNING ∧
    schedulerCtx (schedulerContextSingleton d2) = Some (fresh d) ∧
    fresh d ≠ old ∧
    schedulerConfig (schedulerContextSingleton d2) =
      schedulerConfig (schedulerContextSingleton d) ∧
    effects d2 = effects d ++
      [Cancel old;
       NewAppContextFrom (agentCtx (schedulerContextSingleton d)) (fresh d);
       GoRun (fresh d) (schedulerConfig (schedulerContextSingleton d))].
Proof.
  intros Hp ctx requests d stop_request start_request Hserve Hrun Hstop Hstart.
  destruct (AgentSpec.serve_consistent ParseConfigBytes requests (Execute ctx)
              Hp (AgentSpec.consistent_Execute ctx)) as (d0 & Hserve0 & Hd).
  rewrite Hserve in Hserve0. injection Hserve0 as <-.
  destruct Hd as [Hv Hc Hcfg Ha].
  destruct (proj1 Hc Hrun) as [old Hold].
  destruct (Hcfg Hrun) as [cfg Hconfig].
  specialize (Ha old Hold).
  exists old. unfold handleClient. rewrite Hstop, Hstart.
  rewrite (decide_False (P := "stop" = "start")) by done.
  rewrite !decide_True by done.
  unfold stopTasks. rewrite Hrun, Hold. simpl.
  destruct d as [[a c cf st] f e]; simpl in *. subst.
  eexists _, _. repeat split; simpl; try done.
  - lia.
  - by rewrite <- !app_assoc.
Qed.

End Handlers.

(** A stop request on a daemon that was just created. *)
Lemma refused_request_changes_nothing_witness :
  (ExitCode (mkResponse 1 "agent scheduler not running") = 0 ∨
   ExitCode (mkResponse 1 "agent scheduler not running") = 1) ∧
  (ExitCode (mkResponse 1 "agent scheduler not running") = 0 →
   Err (mkResponse 1 "agent scheduler not running") = "") ∧
  (ExitCode (mkResponse 1 "agent scheduler not running") ≠ 0 →
   (Execute 0%nat : Daemon (list byte)) = Execute 0%nat).
Proof.
  apply (refused_request_changes_nothing Examples.parse Examples.stop
           (Execute 0%nat) (Execute 0%nat)
           (mkResponse 1 "agent scheduler not running")).
  - discriminate.
  - reflexivity.
Defined.

(** configure and start, then stop and start again: context 1 is cancelled
    and the scheduler runs on context 2 with the same configuration. *)
Lemma stop_then_start_witness :
  ∃ old d1 d2,
    schedulerCtx (schedulerContextSingleton Examples.running_daemon) = Some old ∧
    handleClient Examples.parse Examples.stop Examples.running_daemon =
      Some (mkResponse 0 "", d1) ∧
    handleClient Examples.parse Examples.start d1 = Some (mkResponse 0 "", d2) ∧
    schedulerState_ (schedulerContextSingleton d1) = AGENT_SCHEDULER_STOPPED ∧
    schedulerCtx (schedulerContextSingleton d1) = None ∧
    schedulerState_ (schedulerContextSingleton d2) = AGENT_SCHEDULER_RUNNING ∧
    schedulerCtx (schedulerContextSingleton d2) = Some 2%nat ∧
    2%nat ≠ old ∧
    schedulerConfig (schedulerContextSingleton d2) = Some ["a"%byte] ∧
    effects d2 = effects Examples.running_daemon ++
      [Cancel old; NewAppContextFrom 0%nat 2%nat; GoRun 2%nat (Some ["a"%byte])].
Proof.
  apply (stop_then_start Examples.parse AgentSpec.parse_meets_contract 0%nat
           [Examples.configure ["a"%byte]; Examples.start]
           Examples.running_daemon Examples.stop Examples.start);
    reflexivity.
Defined.

End AgentExtra.

(** * Further properties of the scheduler service *)

Module ServiceExtra.
Import Service.

Section Planning.

Lemma length_filter_split {A} (f : A → bool) (l : list A) :
  (length (filter (λ x, f x = false) l) + length (filter (λ x, f x = true) l)
   = length l)%nat.
Proof.
  induction l as [|x l IH]; [done|].
  rewrite !filter_cons. destruct (f x); simpl; lia.
Qed.

Lemma length_bind_sum {A B C} (f : A → list B) (g : A → list C)
    (w : list C → nat) (l : list A) :
  w [] = 0%nat →
  (∀ k1 k2, w (k1 ++ k2) = (w k1 + w k2)%nat) →
  (∀ x, length (f x) = w (g x)) →
  length (l ≫= f) = w (l ≫= g).
Proof.
  intros Hnil Happ Hfg. induction l as [|x l IH]; [done|].
  cbn [mbind list_bind]. by rewrite length_app, Happ, Hfg, IH.
Qed.

(** The number of calls that the planned items account for: one line for an
    item before the date, a line and a [ScheduleAt] for the others. *)
Lemma length_trace_planned (date : Time) (l : list (string * Job * Time)) k :
  (length (filter (λ x : string * Job * Time, Before x.2 date = true) (l ++ k)) +
   2 * length (filter (λ x : string * Job * Time, Before x.2 date = false) (l ++ k))
   = (length (filter (λ x : string * Job * Time, Before x.2 date = true) l) +
      2 * length (filter (λ x : string * Job * Time, Before x.2 date = false) l)) +
     (length (filter (λ x : string * Job * Time, Before x.2 date = true) k) +
      2 * length (filter (λ x : string * Job * Time, Before x.2 date = false) k)))%nat.
Proof. rewrite !filter_app, !length_app. lia. Qed.

(** X5. [ScheduleForDate] handles every planned timestamp once: the events
    armed and the timestamps ignored are together as many as the
    timestamps planned, and the calls of the function are one line for the
    date, one line per ignored timestamp, and a line and a [ScheduleAt] per
    armed event. Nothing planned is dropped silently or armed twice. *)
Theorem ScheduleForDate_accounts_for_every_timestamp
    (order : list (string * Job)) (date : Time) :
  (length (armed (ScheduleForDate order date)) +
   length (ignored (ScheduleForDate order date)) =
   length (planned order date))%nat ∧
  (length (ScheduleForDate order date) =
   1 + length (ignored (ScheduleForDate order date)) +
   2 * length (armed (ScheduleForDate order date)))%nat.
Proof.
  rewrite ServiceSpec.armed_ScheduleForDate, ServiceSpec.ignored_ScheduleForDate.
  rewrite !length_fmap. split; [apply length_filter_split|].
  unfold ScheduleForDate, planned. cbn [length].
  set (w := λ l : list (string * Job * Time),
         (length (filter (λ x : string * Job * Time, Before x.2 date = true) l) +
          2 * length (filter (λ x : string * Job * Time, Before x.2 date = false) l))%nat).
  enough (length (order ≫= schedule_job date) =
          w (order ≫= λ '(name, j), Schedules j ≫= λ schedule,
               PlanForDate schedule date ≫= λ t, [(name, j, t)])) as Hw
    by (unfold w in Hw; lia).
  apply length_bind_sum; [done | apply length_trace_planned |].
  intros [name j]. unfold schedule_job. cbn [fst snd].
  apply length_bind_sum; [done | apply length_trace_planned |].
  intros schedule. unfold schedule_plan.
  apply length_bind_sum; [done | apply length_trace_planned |].
  intros t. unfold schedule_one, w.
  rewrite !filter_cons, !filter_nil. cbn [snd].
  by destruct (Before t date).
Qed.

(** X6. The events are armed in the order in which the timestamps are
    planned: the times of the armed events are what is left of the planned
    times, jobs in the order visited, schedules and timestamps in their own
    order, when the times before the date are taken out. *)
Theorem ScheduleForDate_keeps_plan_order
    (order : list (string * Job)) (date : Time) :
  (armed (ScheduleForDate order date)).*2 `sublist_of` (planned order date).*2 ∧
  (armed (ScheduleForDate order date)).*2 =
    filter (λ t, ¬ t < date) (planned order date).*2.
Proof.
  rewrite ServiceSpec.armed_ScheduleForDate.
  assert (Heq : ((λ x : string * Job * Time, (mkScheduledJob x.2 x.1.2, x.2)) <$>
                   filter (λ x : string * Job * Time, Before x.2 date = false)
                          (planned order date)).*2 =
                filter (λ t, ¬ t < date) (planned order date).*2).
  { induction (planned order date) as [|[[name j] t] l IH]; [done|].
    rewrite filter_cons. cbn [fmap list_fmap snd]. rewrite filter_cons.
    unfold Before. destruct (Z.ltb_spec t date).
    - rewrite decide_False by done. rewrite decide_False by lia. apply IH.
    - rewrite decide_True by done. rewrite decide_True by lia.
      cbn [fmap list_fmap snd]. f_equal. apply IH. }
  split; [|done]. rewrite Heq. apply sublist_filter.
Qed.

Lemma bind_ext_in {A B} (f g : A → list B) (l : list A) :
  (∀ x, x ∈ l → f x = g x) → l ≫= f = l ≫= g.
Proof.
  induction l as [|x l IH]; intros Hfg; [done|].
  cbn [mbind list_bind]. rewrite (Hfg x) by by left. f_equal.
  apply IH. intros y Hy. apply Hfg. by right.
Qed.

Lemma filter_sublist_impl {A} (P Q : A → Prop)
    `{!∀ x, Decision (P x)} `{!∀ x, Decision (Q x)} (l : list A) :
  (∀ x, P x → Q x) → filter P l `sublist_of` filter Q l.
Proof.
  intros HPQ. induction l as [|x l IH]; [done|].
  rewrite !filter_cons. destruct (decide (P x)) as [HP|HP].
  - rewrite decide_True by auto. by constructor.
  - destruct (decide (Q x)); [by constructor | done].
Qed.

(** X7. Planning again for a later date for which every schedule of the
    configuration plans the same timestamps (a restart later in the same
    day) arms nothing new: the events armed for the later date are among
    those armed for the earlier one, in the same order, and they are the
    ones not before the later date. *)
Theorem ScheduleForDate_later_date (config : Configuration)
    (order : list (string * Job)) (date date' : Time) :
  range_order config order →
  date ≤ date' →
  (∀ name j schedule,
     Jobs config !! name = Some j → schedule ∈ Schedules j →
     PlanForDate schedule date' = PlanForDate schedule date) →
  armed (ScheduleForDate order date') `sublist_of`
    armed (ScheduleForDate order date) ∧
  armed (ScheduleForDate order date') =
    filter (λ e, ¬ e.2 < date') (armed (ScheduleForDate order date)).
Proof.
  intros Horder Hle Hplan.
  assert (Hplanned : planned order date' = planned order date).
  { unfold planned. apply bind_ext_in. intros [name j] Hin.
    apply (ServiceSpec.elem_of_range_order config order name j Horder) in Hin.
    apply bind_ext_in. intros schedule Hs.
    by rewrite (Hplan name j schedule Hin Hs). }
  rewrite !ServiceSpec.armed_ScheduleForDate, Hplanned.
  split.
  - apply fmap_sublist, filter_sublist_impl.
    intros [[name j] t]. unfold Before. cbn [snd].
    rewrite !Z.ltb_ge. lia.
  - clear Hplanned.
    induction (planned order date) as [|[[name j] t] l IH]; [done|].
    rewrite !filter_cons. cbn [snd]. unfold Before.
    destruct (Z.ltb_spec t date'), (Z.ltb_spec t date); try lia.
    + rewrite decide_False by done. rewrite decide_False by done. apply IH.
    + rewrite decide_False by done. rewrite decide_True by done.
      cbn [fmap list_fmap]. rewrite filter_cons. cbn [snd].
      rewrite decide_False by lia. apply IH.
    + rewrite decide_True by done. rewrite decide_True by done.
      cbn [fmap list_fmap]. rewrite filter_cons. cbn [snd].
      rewrite decide_True by lia. f_equal. apply IH.
Qed.

End Planning.

(** Planning at 02:46:40, then at 07:00 of the same day: the second pass
    arms 14:00 only. *)
Lemma ScheduleForDate_later_date_witness :
  armed (ScheduleForDate
           [("nightly", Examples.nightly); ("morning", Examples.morning)]
           (19732 * 86400 + 25200)) `sublist_of`
    armed (ScheduleForDate
             [("nightly", Examples.nightly); ("morning", Examples.morning)]
             Examples.date) ∧
  armed (ScheduleForDate
           [("nightly", Examples.nightly); ("morning", Examples.morning)]
           (19732 * 86400 + 25200)) =
    filter (λ e, ¬ e.2 < 19732 * 86400 + 25200)
      (armed (ScheduleForDate
                [("nightly", Examples.nightly); ("morning", Examples.morning)]
                Examples.date)).
Proof.
  apply (ScheduleForDate_later_date Examples.config
           [("nightly", Examples.nightly); ("morning", Examples.morning)]
           Examples.date (19732 * 86400 + 25200)
           ServiceSpec.range_order_config_1).
  - vm_compute. discriminate.
  - intros name j schedule Hj Hs.
    apply (ServiceSpec.elem_of_range_order Examples.config _ name j
             ServiceSpec.range_order_config_1) in Hj.
    apply list_elem_of_In in Hj. simpl in Hj.
    destruct Hj as [[= <- <-] | [[= <- <-] | []]];
      apply list_elem_of_singleton in Hs as ->; reflexivity.
Defined.

End ServiceExtra.

(** * Properties of [Run] *)

Module ServiceRunSpec.
Import Service ServiceRun.

Section WithGoTime.
Context `{GoTime}.

(** A generic step: what an [omap] over the calls of one round adds. *)
Lemma omap_Planning_bind {A B} (f : Call → option B) (k : A → list Event)
    (l : list A) :
  (∀ x, omap f (Planning <$> k x) = []) →
  omap f (Planning <$> (l ≫= k)) = [].
Proof.
  intros Hk. induction l as [|x l IH]; [done|].
  cbn [mbind list_bind]. by rewrite fmap_app, omap_app, Hk, IH.
Qed.

Lemma planning_dates_ScheduleForDate order date :
  planning_dates (Planning <$> ScheduleForDate order date) = [date].
Proof.
  unfold ScheduleForDate, planning_dates. cbn [fmap list_fmap omap list_omap].
  f_equal. apply omap_Planning_bind. intros [name j].
  apply omap_Planning_bind. intros schedule.
  apply omap_Planning_bind. intros t.
  unfold schedule_one. by destruct (Before t date).
Qed.

Lemma rollover_arms_Planning (tr : list Event) :
  rollover_arms (Planning <$> tr) = [].
Proof. induction tr as [|e tr IH]; [done|]. apply IH. Qed.

Lemma executions_Planning (tr : list Event) :
  executions (Planning <$> tr) = [].
Proof. induction tr as [|e tr IH]; [done|]. apply IH. Qed.

Lemma stops_Planning (tr : list Event) :
  filter (λ c, is_stop c = true) (Planning <$> tr) = [].
Proof. induction tr as [|e tr IH]; [done|]. apply IH. Qed.

Lemma loop_rollover_arms rounds :
  rollover_arms (loop rounds).1 = NextDay <$> ticks rounds ∧
  planning_dates (loop rounds).1 = NextDay <$> ticks rounds.
Proof.
  induction rounds as [|[t order| | |sj] rest [IHa IHp]]; [done | | | done |].
  - cbn [loop]. destruct (loop rest) as [calls status]. cbn [fst] in *.
    unfold rollover_arms, planning_dates in *. rewrite !omap_app.
    fold (rollover_arms (Planning <$> ScheduleForDate order (NextDay t))).
    fold (planning_dates (Planning <$> ScheduleForDate order (NextDay t))).
    rewrite rollover_arms_Planning, planning_dates_ScheduleForDate.
    cbn [omap list_omap app]. unfold ticks in *. cbn [served omap list_omap fmap list_fmap].
    by rewrite IHa, IHp.
  - cbn [loop]. destruct (loop rest) as [calls status]. cbn [fst] in *.
    unfold ticks in *. by cbn [served omap list_omap].
  - cbn [loop]. destruct (loop rest) as [calls status]. cbn [fst] in *.
    unfold ticks in *. by cbn [served omap list_omap].
Qed.

(** The times delivered by an engine that hands back, in order, the times
    it was armed for are the days that follow the first one. *)
Lemma ticks_iterate (l : list Time) (t0 : Time) :
  l `prefix_of` t0 :: (NextDay <$> l) →
  l = (λ i, Nat.iter i NextDay t0) <$> seq 0 (length l).
Proof.
  revert t0. induction l as [|a l IH]; intros t0 Hpre; [done|].
  cbn [fmap list_fmap] in Hpre.
  destruct Hpre as [k Hk]. cbn [app] in Hk. injection Hk as <- Hk.
  cbn [length seq fmap list_fmap Nat.iter nat_rect]. f_equal.
  rewrite (IH (NextDay t0)) at 1 by (by exists k).
  rewrite <- fmap_S_seq, <- list_fmap_compose.
  apply list_fmap_ext. intros _ i _. cbn [compose].
  by rewrite Nat.iter_succ_r.
Qed.

(** X8. When one of the two engines fails to start, [Run] logs the error
    of the start that failed, once and as its last call, and returns
    without launching the loop, whatever would have followed: nothing is
    planned, no event is armed on either engine, no job is executed, and
    nothing is stopped; in particular the job-ready engine, when it is the
    rollover engine that failed, stays started and the reporter is never
    drained. *)
Theorem Run_start_failure (jobs_start rollover_start : option string)
    (t0 : Time) (order : list (string * Job)) (rounds : list Select) :
  jobs_start ≠ None ∨ rollover_start ≠ None →
  (Run jobs_start rollover_start t0 order rounds).2 = NotLaunched ∧
  planning_dates (Run jobs_start rollover_start t0 order rounds).1 = [] ∧
  jobs_armed (Run jobs_start rollover_start t0 order rounds).1 = [] ∧
  rollover_arms (Run jobs_start rollover_start t0 order rounds).1 = [] ∧
  executions (Run jobs_start rollover_start t0 order rounds).1 = [] ∧
  filter (λ c, is_stop c = true)
         (Run jobs_start rollover_start t0 order rounds).1 = [] ∧
  (jobs_start = None →
   JobsStart ∈ (Run jobs_start rollover_start t0 order rounds).1) ∧
  ∃ err,
    (jobs_start = Some err ∨ jobs_start = None ∧ rollover_start = Some err) ∧
    filter (λ c, is_LogError c = true)
           (Run jobs_start rollover_start t0 order rounds).1 =
      [LogError "failed to start scheduler: %v" err] ∧
    last (Run jobs_start rollover_start t0 order rounds).1 =
      Some (LogError "failed to start scheduler: %v" err).
Proof.
  intros Hfail. unfold Run.
  destruct jobs_start as [err|].
  { do 6 (split; [done|]). split; [done|]. exists err. split; [by left|]. done. }
  destruct rollover_start as [err|]; [|by destruct Hfail].
  do 6 (split; [done|]). split.
  - intros _. apply list_elem_of_In. simpl. tauto.
  - exists err. split; [by right|]. done.
Qed.

(** X9. When both engines start, [Run] plans for the time it reads and
    arms the rollover engine for it; then every time [t] that the rollover
    engine delivers is followed by a planning pass for [NextDay t] and by
    arming the rollover engine for [NextDay t]: one planning pass and one
    arming per delivery, for the same date, and none besides. When the
    engine delivers, in order, the times it was armed for, the dates
    planned are the time read, its next day, the next day of that one, and
    so on. *)
Theorem Run_plans_day_after_day (t0 : Time) (order : list (string * Job))
    (rounds : list Select) :
  rollover_arms (Run None None t0 order rounds).1 =
    t0 :: (NextDay <$> ticks rounds) ∧
  planning_dates (Run None None t0 order rounds).1 =
    rollover_arms (Run None None t0 order rounds).1 ∧
  (ticks rounds `prefix_of` rollover_arms (Run None None t0 order rounds).1 →
   planning_dates (Run None None t0 order rounds).1 =
     (λ i, Nat.iter i NextDay t0) <$> seq 0 (S (length (ticks rounds)))).
Proof.
  destruct (loop_rollover_arms rounds) as [Harms Hdates].
  assert (Ha : rollover_arms (Run None None t0 order rounds).1 =
               t0 :: (NextDay <$> ticks rounds)).
  { unfold Run. destruct (loop rounds) as [calls status]. cbn [fst] in *.
    unfold rollover_arms in *. rewrite !omap_app.
    fold (rollover_arms (Planning <$> ScheduleForDate order t0)).
    rewrite rollover_arms_Planning. cbn [omap list_omap app].
    by rewrite Harms. }
  assert (Hp : planning_dates (Run None None t0 order rounds).1 =
               t0 :: (NextDay <$> ticks rounds)).
  { unfold Run. destruct (loop rounds) as [calls status]. cbn [fst] in *.
    unfold planning_dates in *. rewrite !omap_app.
    fold (planning_dates (Planning <$> ScheduleForDate order t0)).
    rewrite planning_dates_ScheduleForDate. cbn [omap list_omap app].
    by rewrite Hdates. }
  split; [done|]. split; [by rewrite Ha, Hp|].
  rewrite Ha, Hp. intros Hpre.
  rewrite (ticks_iterate (ticks rounds) t0 Hpre) at 1.
  cbn [seq fmap list_fmap Nat.iter nat_rect]. f_equal.
  rewrite <- fmap_S_seq, <- !list_fmap_compose.
  apply list_fmap_ext. intros _ i _. cbn [compose]. done.
Qed.

Lemma loop_summary rounds :
  (loop rounds).2 =
    (if existsb is_Stopped rounds then Exited else Waiting) ∧
  executions (loop rounds).1 =
    ((λ sj, (job sj, scheduled sj)) <$> deliveries rounds) ∧
  ∃ calls, (StopAndWait ∉ calls) ∧
    (loop rounds).1 =
      calls ++ (if existsb is_Stopped rounds then [StopAndWait] else []).
Proof.
  induction rounds as [|[t order| | |sj] rest (IHs & IHe & calls & Hnot & IHc)].
  - repeat split. exists []. split; [by apply not_elem_of_nil | done].
  - cbn [loop existsb is_Stopped orb].
    destruct (loop rest) as [calls' status]. cbn [fst snd] in *.
    split; [done|]. split.
    + unfold executions in *. rewrite omap_app.
      fold (executions (Planning <$> ScheduleForDate order (NextDay t))).
      rewrite executions_Planning. cbn [omap list_omap app].
      by rewrite IHe.
    + exists ((Planning <$> ScheduleForDate order (NextDay t)) ++
              RolloverScheduleAt (NextDay t) (NextDay t) :: calls).
      split.
      * rewrite elem_of_app, list_elem_of_fmap, elem_of_cons.
        intros [(e & He & _) | [He | He]]; done.
      * rewrite IHc. by rewrite <- app_assoc.
  - cbn [loop existsb is_Stopped orb].
    destruct (loop rest) as [calls' status]. cbn [fst snd] in *.
    split; [done|]. split; [done|].
    exists (RolloverStop :: JobsStop :: calls). split.
    + rewrite !elem_of_cons. intros [He | [He | He]]; done.
    + by rewrite IHc.
  - cbn [loop existsb is_Stopped orb fst snd]. repeat split.
    exists []. split; [by apply not_elem_of_nil | done].
  - cbn [loop existsb is_Stopped orb].
    destruct (loop rest) as [calls' status]. cbn [fst snd] in *.
    split; [done|]. split.
    + unfold executions, deliveries in *. cbn [served omap list_omap fmap list_fmap].
      by rewrite IHe.
    + exists (JobExecute (job sj) (scheduled sj) :: calls). split.
      * rewrite elem_of_cons. intros [He | He]; done.
      * by rewrite IHc.
Qed.

Lemma engine_stops_Planning (tr : list Event) :
  filter (λ c, is_engine_stop c = true) (Planning <$> tr) = [].
Proof. induction tr as [|e tr IH]; [done|]. apply IH. Qed.

Lemma loop_engine_stops rounds :
  filter (λ c, is_engine_stop c = true) (loop rounds).1 =
    done_rounds rounds ≫= (λ _, [RolloverStop; JobsStop]).
Proof.
  unfold done_rounds.
  induction rounds as [|[t order| | |sj] rest IH]; [done | | | done |];
    cbn [loop served]; destruct (loop rest) as [calls status];
    cbn [fst] in *.
  - rewrite filter_app, engine_stops_Planning. cbn [app].
    by rewrite !filter_cons_False by done.
  - rewrite !filter_cons_True by done.
    cbn [mbind list_bind app]. by rewrite IH.
  - by rewrite !filter_cons_False by done.
Qed.

(** X10. Once launched, the loop of [Run] ends only on the signal that the
    job-ready engine has stopped: it has run to its end exactly when a
    round brought that signal, it is blocked in [select] otherwise, also
    after the context is done. A round that finds the context done stops
    the rollover engine and then the job-ready engine, and the engines are
    stopped by nothing else. The loop drains the reporter once, as its
    last call, when it ends and never before. Until then it executes every
    job that the job-ready engine delivers, once, in the order delivered,
    with the time the job was scheduled for; rounds after the signal are
    never taken up. *)
Theorem Run_ends_on_stopped (t0 : Time) (order : list (string * Job))
    (rounds : list Select) :
  (Run None None t0 order rounds).2 =
    (if existsb is_Stopped rounds then Exited else Waiting) ∧
  executions (Run None None t0 order rounds).1 =
    ((λ sj, (job sj, scheduled sj)) <$> deliveries rounds) ∧
  filter (λ c, is_engine_stop c = true) (Run None None t0 order rounds).1 =
    done_rounds rounds ≫= (λ _, [RolloverStop; JobsStop]) ∧
  ∃ calls, (StopAndWait ∉ calls) ∧
    (Run None None t0 order rounds).1 =
      calls ++ (if existsb is_Stopped rounds then [StopAndWait] else []).
Proof.
  destruct (loop_summary rounds) as (Hs & He & calls & Hnot & Hc).
  pose proof (loop_engine_stops rounds) as Hstops.
  unfold Run. destruct (loop rounds) as [calls' status]. cbn [fst snd] in *.
  split; [done|]. split; [|split].
  - unfold executions in *. rewrite !omap_app.
    fold (executions (Planning <$> ScheduleForDate order t0)).
    rewrite executions_Planning. cbn [omap list_omap app]. by rewrite He.
  - rewrite !filter_app, engine_stops_Planning. cbn [app].
    rewrite !filter_cons_False by done. by rewrite filter_nil.
  - exists ([NewReporter; JobsStart; RolloverStart; TimeNow] ++
            (Planning <$> ScheduleForDate order t0) ++
            RolloverScheduleAt t0 t0 :: calls).
    split.
    + rewrite !elem_of_app, list_elem_of_fmap, !elem_of_cons.
      intros [[He' | [He' | [He' | [He' | He']]]] | [(e & He' & _) | [He' | He']]];
        try done. by apply not_elem_of_nil in He'.
    + rewrite Hc. by rewrite <- !app_assoc.
Qed.

End WithGoTime.

#[local] Existing Instance RunExamples.utc.

(** The rollover engine fails to start. *)
Lemma Run_start_failure_witness :
  (Run None (Some "already started") Examples.date RunExamples.order
       RunExamples.rounds).2 = NotLaunched ∧
  planning_dates (Run None (Some "already started") Examples.date
                      RunExamples.order RunExamples.rounds).1 = [] ∧
  jobs_armed (Run None (Some "already started") Examples.date
                  RunExamples.order RunExamples.rounds).1 = [] ∧
  rollover_arms (Run None (Some "already started") Examples.date
                     RunExamples.order RunExamples.rounds).1 = [] ∧
  executions (Run None (Some "already started") Examples.date
                  RunExamples.order RunExamples.rounds).1 = [] ∧
  filter (λ c, is_stop c = true)
         (Run None (Some "already started") Examples.date
              RunExamples.order RunExamples.rounds).1 = [] ∧
  ((None : option string) = None →
   JobsStart ∈ (Run None (Some "already started") Examples.date
                    RunExamples.order RunExamples.rounds).1) ∧
  ∃ err,
    ((None : option string) = Some err ∨
     (None : option string) = None ∧ Some "already started" = Some err) ∧
    filter (λ c, is_LogError c = true)
           (Run None (Some "already started") Examples.date
                RunExamples.order RunExamples.rounds).1 =
      [LogError "failed to start scheduler: %v" err] ∧
    last (Run None (Some "already started") Examples.date
              RunExamples.order RunExamples.rounds).1 =
      Some (LogError "failed to start scheduler: %v" err).
Proof.
  apply (Run_start_failure None (Some "already started") Examples.date
           RunExamples.order RunExamples.rounds).
  right. discriminate.
Defined.

(** Started on 2024-01-10 at 02:46:40: the passes are for that time, for
    midnight of the 11th and for midnight of the 12th. *)
Lemma Run_plans_day_after_day_witness :
  planning_dates
    (Run None None Examples.date RunExamples.order RunExamples.rounds).1 =
  [19732 * 86400 + 10000; 19733 * 86400; 19734 * 86400].
Proof.
  pose proof (Run_plans_day_after_day Examples.date RunExamples.order
                RunExamples.rounds) as (Harms & _ & Hdays).
  rewrite Hdays; [reflexivity|].
  rewrite Harms. by exists [19734 * 86400].
Defined.

End ServiceRunSpec.

(** * Further properties of the task loops *)

Module TasksExtra.
Import Tasks TaskChecks.

Section Loops.
Context `{Externals}.

Lemma check_app {S} (step : S → Event → option S) tr1 tr2 s :
  check step (tr1 ++ tr2) s = check step tr1 s ≫= check step tr2.
Proof.
  revert s. induction tr1 as [|e tr1 IH]; intros s; [done|].
  cbn. destruct (step s e) as [s'|]; cbn; [apply IH | done].
Qed.

Lemma check_report_load_events tr s :
  Forall (λ e, is_load_event e = true) tr → check report_step tr s = Some s.
Proof.
  induction 1 as [|e tr He _ IH]; [done|].
  cbn. destruct e, s; try done; cbn; apply IH.
Qed.

Lemma check_report_loadRepository name r s :
  check report_step (trace (loadRepository name r)) s = Some s.
Proof. apply check_report_load_events, TasksSpec.loadRepository_events. Qed.



Lemma check_loop {R S} (step : S → Event → option S) interval
    (body : R → M unit) rounds s :
  step s (TimeAfter interval) = Some s →
  (∀ r, check step (trace (body r)) s = Some s) →
  check step (trace (loop interval body rounds)) s = Some s.
Proof.
  intros Htimer Hbody. induction rounds as [|[|r] rest IH].
  - cbn. by rewrite Htimer.
  - cbn. by rewrite Htimer.
  - cbn [loop]. rewrite TasksSpec.trace_bind. cbn [call trace value app check].
    rewrite Htimer. cbn [mbind option_bind].
    rewrite TasksSpec.trace_bind, check_app, Hbody. apply IH.
Qed.

(** Opens a tick: the load, then the two cases of its result. *)
Ltac open_report_tick :=
  rewrite TasksSpec.trace_bind, check_app, check_report_loadRepository;
  cbn [mbind option_bind];
  destruct (value (loadRepository _ _)) as [? ? | repo store]; [done|].


Lemma report_backupTick taskset task r :
  reports_settled (trace (backupTick taskset task r)).
Proof.
  unfold reports_settled, backupTick. open_report_tick.
  destruct (DoBackup_res r) as [[[retval err] snapId] warning].
  destruct (backup_rm_res r) as [rm_retval rm_err].
  destruct (failed retval err); [done|].
  destruct (Backup_Retention task =? 0); cbn [negb].
  - by destruct warning.
  - destruct (failed rm_retval rm_err); [done|]. by destruct warning.
Qed.

Lemma report_checkTick taskset task r :
  reports_settled (trace (checkTick taskset task r)).
Proof.
  unfold reports_settled, checkTick. open_report_tick.
  destruct (Execute_res r) as [retval err]. by destruct (failed retval err).
Qed.

Lemma report_restoreTick taskset task r :
  reports_settled (trace (restoreTick taskset task r)).
Proof.
  unfold reports_settled, restoreTick. open_report_tick.
  destruct (Execute_res r) as [retval err]. by destruct (failed retval err).
Qed.

Lemma report_syncTick taskset cmd r :
  reports_settled (trace (syncTick taskset cmd r)).
Proof.
  unfold reports_settled, syncTick. open_report_tick.
  destruct (Execute_res r) as [retval err]. by destruct (failed retval err).
Qed.

Lemma report_maintenanceTick task r :
  reports_settled (trace (maintenanceTick task r)).
Proof.
  unfold reports_settled, maintenanceTick. open_report_tick.
  destruct (Maintenance_res r) as [retval err].
  destruct (maintenance_rm_res r) as [rm_retval rm_err].
  destruct (failed retval err); [done|].
  destruct (Maintenance_Retention task =? 0); cbn [negb]; [done|].
  by destruct (failed rm_retval rm_err).
Qed.

(** X11. In the five loops, on every tick and over every run of a loop,
    whatever the collaborators answer: a report is created only when the
    previous one is ended, every report created is ended by exactly one of
    [TaskDone], [TaskWarning] and [TaskFailed], and no call is made on a
    report before it is created or after it is ended. *)
Theorem every_report_ended_once :
  ((∀ taskset task r, reports_settled (trace (backupTick taskset task r))) ∧
   (∀ taskset task r, reports_settled (trace (checkTick taskset task r))) ∧
   (∀ taskset task r, reports_settled (trace (restoreTick taskset task r))) ∧
   (∀ taskset cmd r, reports_settled (trace (syncTick taskset cmd r))) ∧
   (∀ task r, reports_settled (trace (maintenanceTick task r)))) ∧
  ((∀ taskset task rounds,
      reports_settled (trace (backupTask taskset task rounds))) ∧
   (∀ taskset task rounds,
      reports_settled (trace (checkTask taskset task rounds))) ∧
   (∀ taskset task rounds,
      reports_settled (trace (restoreTask taskset task rounds))) ∧
   (∀ taskset task rounds,
      reports_settled (trace (syncTask taskset task rounds))) ∧
   (∀ task rounds,
      reports_settled (trace (maintenanceTask task rounds)))).
Proof.
  split.
  - split; [|split; [|split; [|split]]]; intros.
    + apply report_backupTick.
    + apply report_checkTick.
    + apply report_restoreTick.
    + apply report_syncTick.
    + apply report_maintenanceTick.
  - unfold reports_settled.
    split; [|split; [|split; [|split]]]; intros.
    + apply check_loop; [done|]. intros. apply report_backupTick.
    + apply check_loop; [done|]. intros. apply report_checkTick.
    + apply check_loop; [done|]. intros. apply report_restoreTick.
    + unfold syncTask. destruct (sync_direction task); [|done].
      apply check_loop; [done|]. intros. apply report_syncTick.
    + apply check_loop; [done|]. intros. apply report_maintenanceTick.
Qed.







Lemma snapshot_ids_loadRepository name r :
  snapshot_ids (trace (loadRepository name r)) = [].
Proof.
  apply TasksSpec.omap_load_events; [|apply TasksSpec.loadRepository_events].
  by intros [].
Qed.

Lemma snapshot_ids_app tr1 tr2 :
  snapshot_ids (tr1 ++ tr2) = snapshot_ids tr1 ++ snapshot_ids tr2.
Proof. apply omap_app. Qed.

(** Splits what is read from a tick into the load and what follows it. *)
Ltac read_tick Hload :=
  rewrite TasksSpec.trace_bind, Hload;
  rewrite ?TasksSpec.purges_app, ?TasksSpec.outcomes_app, ?snapshot_ids_app;
  rewrite ?TasksSpec.purges_loadRepository, ?TasksSpec.outcomes_loadRepository,
    ?snapshot_ids_loadRepository.

(** X13. In the five loops, a tick on which the repository loads and the
    operation returns an error or a non-zero exit code ends its report as
    failed, with the code 1 whatever the exit code was (the exit code and
    the error only appear in the message); no purge is attempted, and the
    backup loop attaches no snapshot identifier to the report. *)
Theorem operation_failure_is_failed :
  (∀ taskset task r repo store,
     value (loadRepository (Task_Repository taskset) (backup_load r)) =
       LoadOK repo store →
     failed (DoBackup_res r).1.1.1 (DoBackup_res r).1.1.2 = true →
     outcomes (trace (backupTick taskset task r)) =
       [Failed 1 "Error creating backup: retval=%d, err=%s"
               [ArgInt (DoBackup_res r).1.1.1; ArgErr (DoBackup_res r).1.1.2]] ∧
     purges (trace (backupTick taskset task r)) = [] ∧
     snapshot_ids (trace (backupTick taskset task r)) = []) ∧
  (∀ taskset task r repo store,
     value (loadRepository (Task_Repository taskset) (execute_load r)) =
       LoadOK repo store →
     failed (Execute_res r).1 (Execute_res r).2 = true →
     outcomes (trace (checkTick taskset task r)) =
       [Failed 1 "Error executing check: retval=%d, err=%s"
               [ArgInt (Execute_res r).1; ArgErr (Execute_res r).2]] ∧
     purges (trace (checkTick taskset task r)) = []) ∧
  (∀ taskset task r repo store,
     value (loadRepository (Task_Repository taskset) (execute_load r)) =
       LoadOK repo store →
     failed (Execute_res r).1 (Execute_res r).2 = true →
     outcomes (trace (restoreTick taskset task r)) =
       [Failed 1 "Error executing restore: retval=%d, err=%s"
               [ArgInt (Execute_res r).1; ArgErr (Execute_res r).2]] ∧
     purges (trace (restoreTick taskset task r)) = []) ∧
  (∀ taskset cmd r repo store,
     value (loadRepository (Task_Repository taskset) (execute_load r)) =
       LoadOK repo store →
     failed (Execute_res r).1 (Execute_res r).2 = true →
     outcomes (trace (syncTick taskset cmd r)) =
       [Failed 1 "Error executing sync: retval=%d, err=%s"
               [ArgInt (Execute_res r).1; ArgErr (Execute_res r).2]] ∧
     purges (trace (syncTick taskset cmd r)) = []) ∧
  (∀ task r repo store,
     value (loadRepository (Maintenance_Repository task) (maintenance_load r)) =
       LoadOK repo store →
     failed (Maintenance_res r).1 (Maintenance_res r).2 = true →
     outcomes (trace (maintenanceTick task r)) =
       [Failed 1 "Error executing maintenance: retval=%d, err=%s"
               [ArgInt (Maintenance_res r).1; ArgErr (Maintenance_res r).2]] ∧
     purges (trace (maintenanceTick task r)) = []).
Proof.
  split; [|split; [|split; [|split]]].
  - intros taskset task r repo store Hload Hfail. unfold backupTick.
    read_tick Hload.
    destruct (DoBackup_res r) as [[[retval err] snapId] warning].
    cbn [fst snd] in *. by rewrite Hfail.
  - intros taskset task r repo store Hload Hfail. unfold checkTick.
    read_tick Hload.
    destruct (Execute_res r) as [retval err].
    cbn [fst snd] in *. by rewrite Hfail.
  - intros taskset task r repo store Hload Hfail. unfold restoreTick.
    read_tick Hload.
    destruct (Execute_res r) as [retval err].
    cbn [fst snd] in *. by rewrite Hfail.
  - intros taskset cmd r repo store Hload Hfail. unfold syncTick.
    read_tick Hload.
    destruct (Execute_res r) as [retval err].
    cbn [fst snd] in *. by rewrite Hfail.
  - intros task r repo store Hload Hfail. unfold maintenanceTick.
    read_tick Hload.
    destruct (Maintenance_res r) as [retval err].
    cbn [fst snd] in *. by rewrite Hfail.
Qed.

(** X14. A tick ends its report as done exactly when nothing went wrong:
    the repository loaded, the operation returned no error and exit code
    0, and, in the backup and maintenance loops, the purge was not due
    ([Retention] zero) or returned no error and exit code 0, and, in the
    backup loop, the backup gave no warning. In every other case the tick
    has no report or a report that ends otherwise. *)
Theorem done_iff_nothing_went_wrong :
  (∀ taskset task r,
     outcomes (trace (backupTick taskset task r)) = [Done] ↔
     (∃ repo store,
        value (loadRepository (Task_Repository taskset) (backup_load r)) =
          LoadOK repo store) ∧
     failed (DoBackup_res r).1.1.1 (DoBackup_res r).1.1.2 = false ∧
     (DoBackup_res r).2 = None ∧
     (Backup_Retention task = 0 ∨
      failed (backup_rm_res r).1 (backup_rm_res r).2 = false)) ∧
  (∀ taskset task r,
     outcomes (trace (checkTick taskset task r)) = [Done] ↔
     (∃ repo store,
        value (loadRepository (Task_Repository taskset) (execute_load r)) =
          LoadOK repo store) ∧
     failed (Execute_res r).1 (Execute_res r).2 = false) ∧
  (∀ taskset task r,
     outcomes (trace (restoreTick taskset task r)) = [Done] ↔
     (∃ repo store,
        value (loadRepository (Task_Repository taskset) (execute_load r)) =
          LoadOK repo store) ∧
     failed (Execute_res r).1 (Execute_res r).2 = false) ∧
  (∀ taskset cmd r,
     outcomes (trace (syncTick taskset cmd r)) = [Done] ↔
     (∃ repo store,
        value (loadRepository (Task_Repository taskset) (execute_load r)) =
          LoadOK repo store) ∧
     failed (Execute_res r).1 (Execute_res r).2 = false) ∧
  (∀ task r,
     outcomes (trace (maintenanceTick task r)) = [Done] ↔
     (∃ repo store,
        value (loadRepository (Maintenance_Repository task) (maintenance_load r)) =
          LoadOK repo store) ∧
     failed (Maintenance_res r).1 (Maintenance_res r).2 = false ∧
     (Maintenance_Retention task = 0 ∨
      failed (maintenance_rm_res r).1 (maintenance_rm_res r).2 = false)).
Proof.
  split; [|split; [|split; [|split]]].
  - intros taskset task r. unfold backupTick.
    rewrite TasksSpec.trace_bind, TasksSpec.outcomes_app,
      TasksSpec.outcomes_loadRepository.
    destruct (value (loadRepository _ _)) as [? ? | repo store].
    { split; [done | by intros [(? & ? & ?) _]]. }
    destruct (DoBackup_res r) as [[[retval err] snapId] warning].
    destruct (backup_rm_res r) as [rm_retval rm_err]. cbn [fst snd].
    destruct (failed retval err); [split; [done | by intros (_ & ? & _)]|].
    destruct (Z.eqb_spec (Backup_Retention task) 0) as [Hr|Hr]; cbn [negb].
    + destruct warning; cbn; [split; [done | by intros (_ & _ & ? & _)]|].
      split; [|done]. intros _. repeat split; eauto.
    + destruct (failed rm_retval rm_err).
      * cbn. split; [done | by intros (_ & _ & _ & [?|?])].
      * destruct warning; cbn; [split; [done | by intros (_ & _ & ? & _)]|].
        split; [|done]. intros _. repeat split; eauto.
  - intros taskset task r. unfold checkTick.
    rewrite TasksSpec.trace_bind, TasksSpec.outcomes_app,
      TasksSpec.outcomes_loadRepository.
    destruct (value (loadRepository _ _)) as [? ? | repo store].
    { split; [done | by intros [(? & ? & ?) _]]. }
    destruct (Execute_res r) as [retval err]. cbn [fst snd].
    destruct (failed retval err); cbn; [split; [done | by intros [_ ?]]|].
    split; [|done]. intros _. split; eauto.
  - intros taskset task r. unfold restoreTick.
    rewrite TasksSpec.trace_bind, TasksSpec.outcomes_app,
      TasksSpec.outcomes_loadRepository.
    destruct (value (loadRepository _ _)) as [? ? | repo store].
    { split; [done | by intros [(? & ? & ?) _]]. }
    destruct (Execute_res r) as [retval err]. cbn [fst snd].
    destruct (failed retval err); cbn; [split; [done | by intros [_ ?]]|].
    split; [|done]. intros _. split; eauto.
  - intros taskset cmd r. unfold syncTick.
    rewrite TasksSpec.trace_bind, TasksSpec.outcomes_app,
      TasksSpec.outcomes_loadRepository.
    destruct (value (loadRepository _ _)) as [? ? | repo store].
    { split; [done | by intros [(? & ? & ?) _]]. }
    destruct (Execute_res r) as [retval err]. cbn [fst snd].
    destruct (failed retval err); cbn; [split; [done | by intros [_ ?]]|].
    split; [|done]. intros _. split; eauto.
  - intros task r. unfold maintenanceTick.
    rewrite TasksSpec.trace_bind, TasksSpec.outcomes_app,
      TasksSpec.outcomes_loadRepository.
    destruct (value (loadRepository _ _)) as [? ? | repo store].
    { split; [done | by intros [(? & ? & ?) _]]. }
    destruct (Maintenance_res r) as [retval err].
    destruct (maintenance_rm_res r) as [rm_retval rm_err]. cbn [fst snd].
    destruct (failed retval err); [split; [done | by intros (_ & ? & _)]|].
    destruct (Z.eqb_spec (Maintenance_Retention task) 0) as [Hr|Hr]; cbn [negb].
    + cbn. split; [|done]. intros _. repeat split; eauto.
    + destruct (failed rm_retval rm_err); cbn.
      * split; [done | by intros (_ & _ & [?|?])].
      * split; [|done]. intros _. repeat split; eauto.
Qed.

(** X15. On a tick of the backup loop whose backup succeeds with a warning:
    the report ends as the warning of the backup when no purge is due or
    when the purge succeeds; when the purge fails the report ends as the
    warning about the purge alone, and the warning of the backup is not
    reported. *)
Theorem backup_warning_outcome taskset task r repo store w :
  value (loadRepository (Task_Repository taskset) (backup_load r)) =
    LoadOK repo store →
  failed (DoBackup_res r).1.1.1 (DoBackup_res r).1.1.2 = false →
  (DoBackup_res r).2 = Some w →
  (Backup_Retention task = 0 ∨
   failed (backup_rm_res r).1 (backup_rm_res r).2 = false →
   outcomes (trace (backupTick taskset task r)) =
     [Warning "Warning during backup: %s" [ArgErr (Some w)]]) ∧
  (Backup_Retention task ≠ 0 →
   failed (backup_rm_res r).1 (backup_rm_res r).2 = true →
   outcomes (trace (backupTick taskset task r)) =
     [Warning "Error removing obsolete backups: retval=%d, err=%s"
              [ArgInt (backup_rm_res r).1; ArgErr (backup_rm_res r).2]]).
Proof.
  intros Hload Hok Hw. unfold backupTick. read_tick Hload.
  destruct (DoBackup_res r) as [[[retval err] snapId] warning].
  destruct (backup_rm_res r) as [rm_retval rm_err]. cbn [fst snd] in *.
  subst warning. rewrite Hok.
  destruct (Z.eqb_spec (Backup_Retention task) 0) as [Hr|Hr]; cbn [negb].
  - split; [done|]. by intros ?.
  - destruct (failed rm_retval rm_err); cbn.
    + split; [by intros [?|?] | done].
    + split; [done | by intros _ ?].
Qed.






(** X18. The loop that the five task functions run returns exactly when a
    round of [select] finds the context done, and is blocked in [select]
    otherwise. Cancellation adds no call: the calls made up to it are those
    of the ticks before it, and no round after it is taken up, so no
    repository is opened after the context is done. *)
Theorem loop_returns_on_cancellation {R : Type} (interval : Duration)
    (body : R → M unit) :
  (∀ rounds,
     value (loop interval body rounds) =
       if existsb is_CtxDone rounds then Returned else Blocked) ∧
  (∀ pre post,
     trace (loop interval body (pre ++ CtxDone :: post)) =
       trace (loop interval body pre) ∧
     value (loop interval body (pre ++ CtxDone :: post)) = Returned).
Proof.
  split.
  - intros rounds. induction rounds as [|[|r] rest IH]; [done | done |].
    cbn [loop existsb is_CtxDone orb].
    by rewrite !TasksSpec.value_bind.
  - intros pre post. induction pre as [|[|r] pre [IHt IHv]]; [done | done |].
    cbn [app loop].
    rewrite !TasksSpec.trace_bind, !TasksSpec.value_bind.
    by rewrite IHt, IHv.
Qed.

Lemma loadRepository_no_cancel name r :
  Forall (λ e, is_CtxCancel e = false) (trace (loadRepository name r)).
Proof.
  eapply Forall_impl; [apply TasksSpec.loadRepository_events|].
  by intros [].
Qed.

(** Opens a tick whose calls are to be shown not to cancel the context. *)
Ltac open_quiet_tick :=
  rewrite TasksSpec.trace_bind; apply Forall_app; split;
    [apply loadRepository_no_cancel|];
  destruct (value (loadRepository _ _)) as [? ? | repo store];
    [by repeat constructor|].

Lemma no_cancel_backupTick taskset task r :
  Forall (λ e, is_CtxCancel e = false) (trace (backupTick taskset task r)).
Proof.
  unfold backupTick. open_quiet_tick.
  destruct (DoBackup_res r) as [[[retval err] snapId] warning].
  destruct (backup_rm_res r) as [rm_retval rm_err].
  destruct (failed retval err); [by repeat constructor|].
  destruct (Backup_Retention task =? 0); cbn [negb].
  - destruct warning; by repeat constructor.
  - destruct (failed rm_retval rm_err); [by repeat constructor|].
    destruct warning; by repeat constructor.
Qed.

Lemma no_cancel_checkTick taskset task r :
  Forall (λ e, is_CtxCancel e = false) (trace (checkTick taskset task r)).
Proof.
  unfold checkTick. open_quiet_tick.
  destruct (Execute_res r) as [retval err].
  destruct (failed retval err); by repeat constructor.
Qed.

Lemma no_cancel_restoreTick taskset task r :
  Forall (λ e, is_CtxCancel e = false) (trace (restoreTick taskset task r)).
Proof.
  unfold restoreTick. open_quiet_tick.
  destruct (Execute_res r) as [retval err].
  destruct (failed retval err); by repeat constructor.
Qed.

Lemma no_cancel_syncTick taskset cmd r :
  Forall (λ e, is_CtxCancel e = false) (trace (syncTick taskset cmd r)).
Proof.
  unfold syncTick. open_quiet_tick.
  destruct (Execute_res r) as [retval err].
  destruct (failed retval err); by repeat constructor.
Qed.

Lemma no_cancel_maintenanceTick task r :
  Forall (λ e, is_CtxCancel e = false) (trace (maintenanceTick task r)).
Proof.
  unfold maintenanceTick. open_quiet_tick.
  destruct (Maintenance_res r) as [retval err].
  destruct (maintenance_rm_res r) as [rm_retval rm_err].
  destruct (failed retval err); [by repeat constructor|].
  destruct (Maintenance_Retention task =? 0); cbn [negb];
    [by repeat constructor|].
  destruct (failed rm_retval rm_err); by repeat constructor.
Qed.

Lemma no_cancel_loop {R} interval (body : R → M unit) rounds :
  (∀ r, Forall (λ e, is_CtxCancel e = false) (trace (body r))) →
  Forall (λ e, is_CtxCancel e = false) (trace (loop interval body rounds)).
Proof.
  intros Hbody. induction rounds as [|[|r] rest IH].
  - by repeat constructor.
  - by repeat constructor.
  - cbn [loop]. rewrite TasksSpec.trace_bind. cbn [call trace value app].
    constructor; [done|]. rewrite TasksSpec.trace_bind.
    apply Forall_app. split; [apply Hbody | apply IH].
Qed.

Lemma not_cancelled (tr : list Event) :
  Forall (λ e, is_CtxCancel e = false) tr → CtxCancel ∉ tr.
Proof.
  intros Hall Hin. rewrite Forall_forall in Hall. by specialize (Hall _ Hin).
Qed.

(** X19. Among the five loops only the sync loop ever cancels the context
    of the scheduler, and it does so exactly when the direction of its
    task is none of the three recognized ones; no failure of a load, of an
    operation or of a purge cancels it. *)
Theorem only_invalid_direction_cancels :
  (∀ taskset task rounds,
     CtxCancel ∈ trace (syncTask taskset task rounds) ↔
     Direction task ≠ SyncDirectionTo ∧
     Direction task ≠ SyncDirectionFrom ∧
     Direction task ≠ SyncDirectionWith) ∧
  (∀ taskset task rounds,
     CtxCancel ∉ trace (backupTask taskset task rounds)) ∧
  (∀ taskset task rounds,
     CtxCancel ∉ trace (checkTask taskset task rounds)) ∧
  (∀ taskset task rounds,
     CtxCancel ∉ trace (restoreTask taskset task rounds)) ∧
  (∀ task rounds, CtxCancel ∉ trace (maintenanceTask task rounds)).
Proof.
  split; [|split; [|split; [|split]]].
  - intros taskset task rounds. unfold syncTask, sync_direction.
    repeat case_decide.
    + split; [|by intros [? _]].
      intros Hin. exfalso. revert Hin. apply not_cancelled, no_cancel_loop.
      intros. apply no_cancel_syncTick.
    + split; [|by intros (_ & ? & _)].
      intros Hin. exfalso. revert Hin. apply not_cancelled, no_cancel_loop.
      intros. apply no_cancel_syncTick.
    + split; [|by intros (_ & _ & ?)].
      intros Hin. exfalso. revert Hin. apply not_cancelled, no_cancel_loop.
      intros. apply no_cancel_syncTick.
    + split; [done|]. intros _. cbn. by left.
  - intros. apply not_cancelled, no_cancel_loop. intros. apply no_cancel_backupTick.
  - intros. apply not_cancelled, no_cancel_loop. intros. apply no_cancel_checkTick.
  - intros. apply not_cancelled, no_cancel_loop. intros. apply no_cancel_restoreTick.
  - intros. apply not_cancelled, no_cancel_loop. intros. apply no_cancel_maintenanceTick.
Qed.

End Loops.

#[local] Existing Instance Examples.externals.

(** The backup returns exit code 2: the report fails with code 1. *)
Lemma operation_failure_is_failed_witness :
  outcomes (trace (backupTick Examples.docs Examples.docs_backup
                     TaskExamples.backup_fails)) =
    [Failed 1 "Error creating backup: retval=%d, err=%s"
            [ArgInt 2; ArgErr None]] ∧
  purges (trace (backupTick Examples.docs Examples.docs_backup
                   TaskExamples.backup_fails)) = [] ∧
  snapshot_ids (trace (backupTick Examples.docs Examples.docs_backup
                         TaskExamples.backup_fails)) = [].
Proof.
  apply (proj1 operation_failure_is_failed Examples.docs Examples.docs_backup
           TaskExamples.backup_fails 9%nat 7%nat); reflexivity.
Defined.

(** The backup warns that files were skipped, then the purge fails: only
    the purge is reported. *)
Lemma backup_warning_outcome_witness :
  outcomes (trace (backupTick Examples.docs Examples.docs_backup
                     TaskExamples.warning_then_purge_fails)) =
    [Warning "Error removing obsolete backups: retval=%d, err=%s"
             [ArgInt 0; ArgErr (Some (Err "locked"))]].
Proof.
  apply (backup_warning_outcome Examples.docs Examples.docs_backup
           TaskExamples.warning_then_purge_fails 9%nat 7%nat
           (Err "2 files skipped")); try reflexivity.
  discriminate.
Defined.


(** The checks refuse what they are meant to refuse. *)
Example report_ended_twice_is_refused :
  check report_step [NewReport; TaskFailed 1 "x" []; TaskDone] NoReport = None.
Proof. reflexivity. Qed.

Example report_left_open_is_seen :
  check report_step [NewReport; TaskStart "check" "docs"] NoReport =
    Some ReportUnderWay.
Proof. reflexivity. Qed.

Example use_after_close_is_refused :
  check guard_step
    [StorageOpen ∅ (Some 7%nat); RepositoryNew 7%nat [] (Some 9%nat);
     RepoClose 9%nat; MaintenanceExecute 9%nat; StoreClose 7%nat] ([], []) = None.
Proof. reflexivity. Qed.

Example store_closed_under_repository_is_refused :
  check guard_step
    [StorageOpen ∅ (Some 7%nat); RepositoryNew 7%nat [] (Some 9%nat);
     StoreClose 7%nat; RepoClose 9%nat] ([], []) = None.
Proof. reflexivity. Qed.

End TasksExtra.

(** * Properties of a connection to the agent *)

Module AgentConnSpec.
Import Agent AgentConn.

Section WithConfiguration.
Context {Configuration : Type}.
Variable ParseConfigBytes : list byte → option Configuration * option error.
Variable GetVersion : string.

(** X20. On every path of [handleClient] the connection is closed once,
    as the last call. When the version of the client or the request cannot
    be decoded, or our version cannot be encoded, no request is dispatched:
    the daemon is as it was and no response is written. When the three
    succeed, the request is dispatched once and its response encoded once;
    the daemon is the one the handler left, whether or not the response
    could be written. *)
Theorem connection_served_once (x : Exchange) (d : Daemon Configuration) :
  (∃ pre,
     (handleConnection ParseConfigBytes GetVersion x d).1 = pre ++ [ConnClose] ∧
     Forall (λ c, is_ConnClose c = false) pre) ∧
  (decode_clientvers_err x ≠ None ∨ encode_ourvers_err x ≠ None ∨
   (∃ err, decode_request x = inr err) →
   (handleConnection ParseConfigBytes GetVersion x d).2 = Some d ∧
   responses (handleConnection ParseConfigBytes GetVersion x d).1 = []) ∧
  (∀ request response d',
     decode_clientvers_err x = None → encode_ourvers_err x = None →
     decode_request x = inl request →
     handleClient ParseConfigBytes request d = Some (response, d') →
     (handleConnection ParseConfigBytes GetVersion x d).2 = Some d' ∧
     responses (handleConnection ParseConfigBytes GetVersion x d).1 =
       [response]).
Proof.
  unfold handleConnection.
  destruct x as [dv ev dr er]; cbn [decode_clientvers_err encode_ourvers_err
                                      decode_request encode_response_err].
  split; [|split].
  - destruct dv; [by exists [DecodeVersion]; repeat constructor|].
    destruct ev; [by eexists [_; _]; repeat constructor|].
    destruct dr as [request|]; [|by eexists [_; _; _]; repeat constructor].
    destruct (handleClient _ request d) as [[response d']|].
    + by eexists [_; _; _; _]; repeat constructor.
    + by eexists [_; _; _]; repeat constructor.
  - intros Hfail. destruct dv; [done|]. destruct ev; [done|].
    destruct dr as [request|]; [|done].
    by destruct Hfail as [? | [? | [? ?]]].
  - intros request response d' -> -> -> Hhandle. by rewrite Hhandle.
Qed.

End WithConfiguration.

(** A start request on a daemon without configuration, on a connection
    that cannot carry the response back: the refusal is still the response
    that was encoded. *)
Lemma connection_served_once_witness :
  (handleConnection Examples.parse "v1.0.4"
     (mkExchange None None (inl Examples.start) (Some "broken pipe"))
     (Execute 0%nat)).2 = Some (Execute 0%nat) ∧
  responses
    (handleConnection Examples.parse "v1.0.4"
       (mkExchange None None (inl Examples.start) (Some "broken pipe"))
       (Execute 0%nat)).1 =
    [mkResponse 1 "agent scheduler does not have a configuration"].
Proof.
  apply (proj2 (proj2 (connection_served_once Examples.parse "v1.0.4"
           (mkExchange None None (inl Examples.start) (Some "broken pipe"))
           (Execute 0%nat)))
           Examples.start
           (mkResponse 1 "agent scheduler does not have a configuration")
           (Execute 0%nat)); reflexivity.
Defined.

End AgentConnSpec.

(** * Properties of [StoreFile] *)

Module ExporterSpec.
Import Exporter.

Lemma sent_cons_Read calls : sent (Read :: calls) = sent calls.
Proof. done. Qed.

Lemma sent_cons_SendData chunk calls :
  sent (SendData chunk :: calls) = chunk ++ sent calls.
Proof. done. Qed.

Lemma send_chunks_until_EOF (pre post : list Round) (eof : Round) :
  Forall (λ r, read_err r = ReadOK ∧ send_err r = None) pre →
  read_err eof = EOF →
  (send_chunks (pre ++ eof :: post)).2 = Break ∧
  sent (send_chunks (pre ++ eof :: post)).1 = mjoin (data <$> pre) ∧
  Forall (λ c, is_CloseAndRecv c = false) (send_chunks (pre ++ eof :: post)).1.
Proof.
  intros Hpre Heof. induction Hpre as [|r pre [Hr Hs] _ (IHe & IHs & IHc)].
  - cbn. rewrite Heof. cbn. by repeat constructor.
  - cbn [app send_chunks]. rewrite Hr, Hs.
    destruct (send_chunks (pre ++ eof :: post)) as [calls e]. cbn [fst snd] in *.
    split; [done|]. split.
    + rewrite sent_cons_Read, sent_cons_SendData, IHs. done.
    + by repeat constructor.
Qed.

(** X21. When the stream opens, the header is sent, every read before the
    end returns no error and every chunk is sent: [StoreFile] sends the
    header first, with the path and the size converted to [uint64], then
    the bytes of the reads, in order, then closes the stream and returns
    what closing returns. The bytes that a read returns together with
    [io.EOF] are not sent, and no read is made after [io.EOF]. *)
Theorem StoreFile_sends_what_it_reads (pathname : string) (size : Z)
    (pre post : list Round) (eof : Round) (close_err : option error) :
  Forall (λ r, read_err r = ReadOK ∧ send_err r = None) pre →
  read_err eof = EOF →
  (StoreFile pathname size None None (pre ++ eof :: post) close_err).2 =
    Some close_err ∧
  sent (StoreFile pathname size None None (pre ++ eof :: post) close_err).1 =
    mjoin (data <$> pre) ∧
  ∃ body,
    (StoreFile pathname size None None (pre ++ eof :: post) close_err).1 =
      OpenStream :: SendHeader pathname (size mod 2 ^ 64) :: body ++
      [CloseAndRecv] ∧
    Forall (λ c, is_CloseAndRecv c = false) body ∧
    length (filter (λ c, is_Read c = true) body) = S (length pre).
Proof.
  intros Hpre Heof.
  destruct (send_chunks_until_EOF pre post eof Hpre Heof) as (He & Hs & Hc).
  assert (Hreads : length (filter (λ c, is_Read c = true)
                             (send_chunks (pre ++ eof :: post)).1) =
                   S (length pre)).
  { clear He Hs Hc. induction Hpre as [|r pre [Hr Hsend] _ IH].
    - cbn. by rewrite Heof.
    - cbn [app send_chunks]. rewrite Hr, Hsend.
      destruct (send_chunks (pre ++ eof :: post)) as [calls e].
      cbn [fst length] in *. rewrite <- IH. done. }
  unfold StoreFile.
  destruct (send_chunks (pre ++ eof :: post)) as [calls e]. cbn [fst snd] in *.
  subst e. cbn [fst snd]. split; [done|]. split.
  - unfold sent in *. cbn [omap list_omap]. rewrite omap_app. cbn [omap list_omap].
    by rewrite app_nil_r.
  - by exists calls.
Qed.

Lemma send_chunks_prefix (rounds : list Round) :
  sent (send_chunks rounds).1 `prefix_of` mjoin (data <$> accepted rounds) ∧
  Forall (λ c, is_CloseAndRecv c = false) (send_chunks rounds).1 ∧
  ((send_chunks rounds).2 = Break →
   sent (send_chunks rounds).1 = mjoin (data <$> accepted rounds)).
Proof.
  induction rounds as [|r rest (IHp & IHc & IHb)].
  - cbn. split; [by exists [] | by repeat constructor].
  - cbn [send_chunks accepted]. destruct (read_err r).
    + destruct (send_err r).
      * cbn [fst snd]. split; [|split; [by repeat constructor | done]].
        cbn [fmap list_fmap mjoin list_join].
        rewrite sent_cons_Read, sent_cons_SendData.
        apply prefix_app, prefix_nil.
      * destruct (send_chunks rest) as [calls e]. cbn [fst snd] in *.
        split; [|split; [by repeat constructor|]].
        -- cbn [fmap list_fmap mjoin list_join].
           rewrite sent_cons_Read, sent_cons_SendData. by apply prefix_app.
        -- intros He. cbn [fmap list_fmap mjoin list_join].
           rewrite sent_cons_Read, sent_cons_SendData. by rewrite IHb.
    + cbn. split; [by exists [] | by repeat constructor].
    + cbn. split; [by exists [] | split; [by repeat constructor | done]].
Qed.

Lemma filter_no_close (calls : list Call) :
  Forall (λ c, is_CloseAndRecv c = false) calls →
  filter (λ c, is_CloseAndRecv c = true) calls = [].
Proof.
  induction 1 as [|c calls Hcf _ IH]; [done|].
  rewrite filter_cons. by rewrite decide_False by (by rewrite Hcf).
Qed.

Lemma send_chunks_error (pre post : list Round) (r : Round) (err : error) :
  Forall (λ r, read_err r = ReadOK ∧ send_err r = None) pre →
  read_err r = ReadFailed err ∨ read_err r = ReadOK ∧ send_err r = Some err →
  (send_chunks (pre ++ r :: post)).2 = Return err ∧
  last (send_chunks (pre ++ r :: post)).1 =
    Some (match read_err r with ReadOK => SendData (data r) | _ => Read end).
Proof.
  intros Hpre Herr. induction Hpre as [|r' pre [Hr Hs] _ [IHe IHl]].
  - cbn [app send_chunks]. by destruct Herr as [-> | [-> ->]].
  - cbn [app send_chunks]. rewrite Hr, Hs.
    destruct (send_chunks (pre ++ r :: post)) as [calls e]. cbn [fst snd] in *.
    split; [done|]. by rewrite !last_cons, IHl.
Qed.

Lemma StoreFile_sent_and_closed (pathname : string) (size : Z)
    (stream_err header_err : option error) (rounds : list Round)
    (close_err : option error) :
  sent (StoreFile pathname size stream_err header_err rounds close_err).1
    `prefix_of` mjoin (data <$> accepted rounds) ∧
  (filter (λ c, is_CloseAndRecv c = true)
     (StoreFile pathname size stream_err header_err rounds close_err).1 = [] ∨
   filter (λ c, is_CloseAndRecv c = true)
     (StoreFile pathname size stream_err header_err rounds close_err).1 =
     [CloseAndRecv] ∧
   (StoreFile pathname size stream_err header_err rounds close_err).2 =
     Some close_err) ∧
  ((StoreFile pathname size stream_err header_err rounds close_err).2 =
     Some None →
   close_err = None ∧
   filter (λ c, is_CloseAndRecv c = true)
     (StoreFile pathname size stream_err header_err rounds close_err).1 =
     [CloseAndRecv] ∧
   sent (StoreFile pathname size stream_err header_err rounds close_err).1 =
     mjoin (data <$> accepted rounds)).
Proof.
  destruct (send_chunks_prefix rounds) as (Hp & Hc & Hb).
  assert (Hnone : filter (λ c, is_CloseAndRecv c = true)
                         (send_chunks rounds).1 = []).
  { by apply filter_no_close. }
  unfold StoreFile.
  destruct stream_err;
    [cbn; split; [apply prefix_nil | split; [by left | done]]|].
  destruct header_err;
    [cbn; split; [apply prefix_nil | split; [by left | done]]|].
  destruct (send_chunks rounds) as [calls e]. cbn [fst snd] in *.
  destruct e; cbn [fst snd].
  - assert (Hsent : sent (OpenStream :: SendHeader pathname (to_uint64 size)
                            :: calls ++ [CloseAndRecv]) = sent calls).
    { unfold sent. cbn [omap list_omap]. rewrite omap_app. cbn [omap list_omap].
      by rewrite app_nil_r. }
    assert (Hclose : filter (λ c, is_CloseAndRecv c = true)
                       (OpenStream :: SendHeader pathname (to_uint64 size)
                          :: calls ++ [CloseAndRecv]) = [CloseAndRecv]).
    { rewrite !filter_cons. cbn [is_CloseAndRecv].
      rewrite !decide_False by done. by rewrite filter_app, Hnone. }
    rewrite Hsent, Hclose. split; [done|]. split; [by right|].
    intros [= ->]. by rewrite Hb.
  - split; [done|]. split; [|done]. left.
    rewrite !filter_cons. cbn [is_CloseAndRecv]. by rewrite !decide_False by done.
  - split; [done|]. split; [|done]. left.
    rewrite !filter_cons. cbn [is_CloseAndRecv]. by rewrite !decide_False by done.
Qed.

(** X22. Whatever the stream and the reader answer, [StoreFile] sends as
    data only bytes that were read without error, in the order read. It
    closes the stream at most once, and only after the reader returned
    [io.EOF]: on any error (opening the stream, sending the header, a
    read, a send) it returns that error without closing the stream, and
    the call that failed is its last. A nil error is returned only when
    the stream was closed without error, and then all the bytes read were
    sent. *)
Theorem StoreFile_never_sends_unread (pathname : string) (size : Z)
    (stream_err header_err : option error) (rounds : list Round)
    (close_err : option error) :
  sent (StoreFile pathname size stream_err header_err rounds close_err).1
    `prefix_of` mjoin (data <$> accepted rounds) ∧
  (filter (λ c, is_CloseAndRecv c = true)
     (StoreFile pathname size stream_err header_err rounds close_err).1 = [] ∨
   filter (λ c, is_CloseAndRecv c = true)
     (StoreFile pathname size stream_err header_err rounds close_err).1 =
     [CloseAndRecv] ∧
   (StoreFile pathname size stream_err header_err rounds close_err).2 =
     Some close_err) ∧
  ((StoreFile pathname size stream_err header_err rounds close_err).2 =
     Some None →
   close_err = None ∧
   filter (λ c, is_CloseAndRecv c = true)
     (StoreFile pathname size stream_err header_err rounds close_err).1 =
     [CloseAndRecv] ∧
   sent (StoreFile pathname size stream_err header_err rounds close_err).1 =
     mjoin (data <$> accepted rounds)) ∧
  (∀ err, stream_err = Some err →
     StoreFile pathname size stream_err header_err rounds close_err =
       ([OpenStream], Some (Some err))) ∧
  (∀ err, stream_err = None → header_err = Some err →
     StoreFile pathname size stream_err header_err rounds close_err =
       ([OpenStream; SendHeader pathname (size mod 2 ^ 64)],
        Some (Some err))) ∧
  (∀ pre r post err,
     stream_err = None → header_err = None →
     rounds = pre ++ r :: post →
     Forall (λ r, read_err r = ReadOK ∧ send_err r = None) pre →
     read_err r = ReadFailed err ∨
     read_err r = ReadOK ∧ send_err r = Some err →
     (StoreFile pathname size stream_err header_err rounds close_err).2 =
       Some (Some err) ∧
     last (StoreFile pathname size stream_err header_err rounds close_err).1 =
       Some (match read_err r with
             | ReadOK => SendData (data r)
             | _ => Read
             end) ∧
     filter (λ c, is_CloseAndRecv c = true)
       (StoreFile pathname size stream_err header_err rounds close_err).1 =
       []).
Proof.
  destruct (StoreFile_sent_and_closed pathname size stream_err header_err
              rounds close_err) as (Hsent & Hclose & Hnil).
  split; [exact Hsent|]. split; [exact Hclose|]. split; [exact Hnil|].
  split; [by intros err ->|]. split; [by intros err -> ->|].
  intros pre r post err -> -> -> Hpre Herr.
  destruct (send_chunks_error pre post r err Hpre Herr) as [He Hl].
  destruct (send_chunks_prefix (pre ++ r :: post)) as (_ & Hc & _).
  unfold StoreFile.
  destruct (send_chunks (pre ++ r :: post)) as [calls e].
  cbn [fst snd] in *. subst e. cbn [fst snd].
  split; [done|]. split.
  - rewrite !last_cons, Hl. done.
  - rewrite !filter_cons_False by done. by apply filter_no_close.
Qed.

(** Two reads of three bytes, then two bytes returned with [io.EOF]: six
    bytes are sent, the last two are not. *)
Lemma StoreFile_sends_what_it_reads_witness :
  (StoreFile "etc/motd" (-1) None None
     [mkRound ["a"; "b"; "c"]%byte ReadOK None;
      mkRound ["d"; "e"; "f"]%byte ReadOK None;
      mkRound ["g"; "h"]%byte EOF None] None).2 = Some None ∧
  sent (StoreFile "etc/motd" (-1) None None
          [mkRound ["a"; "b"; "c"]%byte ReadOK None;
           mkRound ["d"; "e"; "f"]%byte ReadOK None;
           mkRound ["g"; "h"]%byte EOF None] None).1 =
    ["a"; "b"; "c"; "d"; "e"; "f"]%byte.
Proof.
  pose proof (StoreFile_sends_what_it_reads "etc/motd" (-1)
    [mkRound ["a"; "b"; "c"]%byte ReadOK None;
     mkRound ["d"; "e"; "f"]%byte ReadOK None] []
    (mkRound ["g"; "h"]%byte EOF None) None) as Hstore.
  destruct Hstore as (Hret & Hsent & _).
  - by repeat constructor.
  - reflexivity.
  - split; [exact Hret | exact Hsent].
Defined.

Lemma StoreFile_never_sends_unread_witness :
  (None : option error) = None ∧
  filter (λ c, is_CloseAndRecv c = true)
    (StoreFile "etc/motd" 8 None None
       [mkRound ["a"; "b"; "c"]%byte ReadOK None;
        mkRound ["g"; "h"]%byte EOF None] (None : option error)).1 =
    [CloseAndRecv] ∧
  sent (StoreFile "etc/motd" 8 None None
          [mkRound ["a"; "b"; "c"]%byte ReadOK None;
           mkRound ["g"; "h"]%byte EOF None] (None : option error)).1 =
    mjoin (data <$> accepted [mkRound ["a"; "b"; "c"]%byte ReadOK None;
                              mkRound ["g"; "h"]%byte EOF None]).
Proof.
  apply (proj1 (proj2 (proj2
           (StoreFile_never_sends_unread "etc/motd" 8 None None
              [mkRound ["a"; "b"; "c"]%byte ReadOK None;
               mkRound ["g"; "h"]%byte EOF None] (None : option error))))).
  reflexivity.
Defined.

(** A read that fails after one chunk was sent: its error is returned,
    the read is the last call and the stream is not closed. *)
Example StoreFile_failed_read :
  StoreFile "etc/motd" 8 None None
    [mkRound ["a"; "b"; "c"]%byte ReadOK None;
     mkRound [] (ReadFailed "input/output error") None] None =
  ([OpenStream; SendHeader "etc/motd" 8; Read; SendData ["a"; "b"; "c"]%byte;
    Read],
   Some (Some "input/output error")).
Proof. reflexivity. Qed.

End ExporterSpec.

(** * Properties of the entry point of the container *)

Module EntrypointSpec.
Import Entrypoint.

Section WithShell.
Variable shell_words : string → list string + Z.

(** X23. With at least one argument the script never reads the two
    variables of the environment and never evaluates a command string: it
    always ends in [exec]. It runs [/usr/bin/plakar] with the arguments
    that follow when the first argument is [plakar], [/usr/bin/plakar]
    with all the arguments when the first starts with [-], and the
    arguments as a command otherwise; so a leading option runs the same
    program with the same arguments as with [plakar] put before it. *)
Theorem arguments_decide (first : string) (rest : list string)
    (startup command startup' command' : option string)
    (shell_words' : string → list string + Z) :
  entrypoint shell_words (first :: rest) startup command =
    entrypoint shell_words' (first :: rest) startup' command' ∧
  (∃ argv, entrypoint shell_words (first :: rest) startup command = Exec argv) ∧
  (first = "plakar" →
   entrypoint shell_words (first :: rest) startup command =
     Exec ("/usr/bin/plakar" :: rest)) ∧
  (String.prefix "-" first = true →
   entrypoint shell_words (first :: rest) startup command =
     Exec ("/usr/bin/plakar" :: first :: rest) ∧
   entrypoint shell_words (first :: rest) startup command =
     entrypoint shell_words ("plakar" :: first :: rest) startup command) ∧
  (first ≠ "plakar" → String.prefix "-" first = false →
   entrypoint shell_words (first :: rest) startup command =
     Exec (first :: rest)).
Proof.
  unfold entrypoint, starts_with_dash. split; [done|].
  split; [repeat case_decide; [by eexists | destruct (String.prefix "-" first); by eexists]|].
  split; [by intros ->|]. split.
  - intros Hdash. rewrite Hdash.
    rewrite decide_False by (intros ->; discriminate).
    by rewrite decide_True.
  - intros Hne Hdash. by rewrite decide_False, Hdash.
Qed.


End WithShell.

(** [docker run image -v] and [docker run image plakar -v]. *)
Lemma arguments_decide_witness :
  entrypoint words ["-v"] None None = Exec ["/usr/bin/plakar"; "-v"] ∧
  entrypoint words ["-v"] None None = entrypoint words ["plakar"; "-v"] None None.
Proof.
  apply (proj1 (proj2 (proj2 (proj2
           (arguments_decide words "-v" [] None None None None words))))).
  reflexivity.
Defined.


Example start_command_runs_plakar :
  entrypoint words [] (Some "") (Some "plakar scheduler start") =
    Exec ["/usr/bin/plakar"; "scheduler"; "start"].
Proof. reflexivity. Qed.

Example blank_start_command_exits :
  entrypoint words [] (Some "   ") None = Exit 1.
Proof. reflexivity. Qed.

Example option_as_start_command_is_a_program :
  entrypoint words [] (Some "-v") None = Exec ["-v"].
Proof. reflexivity. Qed.

End EntrypointSpec.

(** * Properties of [pkg create] *)

Module PkgCreateSpec.
Import PkgCreate.

(** X25. [PkgCreate.Execute] returns 0 exactly when every step succeeds,
    the closing of the store included, and 1 with an error otherwise. It
    closes the store it created only when every step before the closing
    succeeded: when [storage.Create] succeeds and a later step fails (the
    repository, the scan cache, the snapshot, the backup, the commit), the
    function returns 1 and the store is left open. *)
Theorem store_closed_only_on_success (Out : string) (Args : list string)
    (r : Results) :
  ((Execute Out Args r).2.1 = 0 ↔ populated r ∧ Close_err r = None) ∧
  ((Execute Out Args r).2.1 = 0 ∧ (Execute Out Args r).2.2 = None ∨
   (Execute Out Args r).2.1 = 1 ∧ (Execute Out Args r).2.2 ≠ None) ∧
  (populated r →
   ∃ st, created (Execute Out Args r).1 = [st] ∧
         closed (Execute Out Args r).1 = [st]) ∧
  (∀ st,
     ToBytes_err r = None → Serialize_err r = None → ReadAll_err r = None →
     Create_res r = inl st →
     ¬ populated r →
     created (Execute Out Args r).1 = [st] ∧
     closed (Execute Out Args r).1 = [] ∧
     (Execute Out Args r).2.1 = 1).
Proof.
  unfold Execute, populated.
  destruct r as [e1 e2 e3 cr e5 e6 e7 e8 e9 e10]; cbn.
  destruct e1; cbn.
  { split; [split; [done | by intros [(? & _) _]]|].
    split; [by right|]. split; [by intros (? & _) | done]. }
  destruct e2; cbn.
  { split; [split; [done | by intros [(_ & ? & _) _]]|].
    split; [by right|]. split; [by intros (_ & ? & _) | done]. }
  destruct e3; cbn.
  { split; [split; [done | by intros [(_ & _ & ? & _) _]]|].
    split; [by right|]. split; [by intros (_ & _ & ? & _) | done]. }
  destruct cr as [st|]; cbn.
  2:{ split; [split; [done | by intros [(_ & _ & _ & [? ?] & _) _]]|].
      split; [by right|]. split; [by intros (_ & _ & _ & [? ?] & _) | done]. }
  destruct e5; cbn.
  { split; [split; [done | by intros [(_ & _ & _ & _ & ? & _) _]]|].
    split; [by right|]. split; [by intros (_ & _ & _ & _ & ? & _)|].
    by intros st' _ _ _ [= <-] _. }
  destruct e6; cbn.
  { split; [split; [done | by intros [(_ & _ & _ & _ & _ & ? & _) _]]|].
    split; [by right|]. split; [by intros (_ & _ & _ & _ & _ & ? & _)|].
    by intros st' _ _ _ [= <-] _. }
  destruct e7; cbn.
  { split; [split; [done | by intros [(_ & _ & _ & _ & _ & _ & ? & _) _]]|].
    split; [by right|]. split; [by intros (_ & _ & _ & _ & _ & _ & ? & _)|].
    by intros st' _ _ _ [= <-] _. }
  destruct e8; cbn.
  { split; [split; [done | by intros [(_ & _ & _ & _ & _ & _ & _ & ? & _) _]]|].
    split; [by right|]. split; [by intros (_ & _ & _ & _ & _ & _ & _ & ? & _)|].
    by intros st' _ _ _ [= <-] _. }
  destruct e9; cbn.
  { split; [split; [done | by intros [(_ & _ & _ & _ & _ & _ & _ & _ & ?) _]]|].
    split; [by right|]. split; [by intros (_ & _ & _ & _ & _ & _ & _ & _ & ?)|].
    by intros st' _ _ _ [= <-] _. }
  destruct e10; cbn.
  - split; [split; [done | by intros [_ ?]]|].
    split; [by right|]. split; [by eauto|].
    intros st' _ _ _ [= <-] Hnot. exfalso. apply Hnot. by repeat split; eauto.
  - split; [split; [|done]|].
    { intros _. by repeat split; eauto. }
    split; [by left|]. split; [by eauto|].
    intros st' _ _ _ [= <-] Hnot. exfalso. apply Hnot. by repeat split; eauto.
Qed.

(** The snapshot cannot be populated: store 3 is created and not closed. *)
Lemma store_closed_only_on_success_witness :
  created (Execute "fs-v1.0.0.ptar" ["manifest.yaml"; "fs"]
             (mkResults None None None (inl 3%nat) None None None
                        (Some "no such file") None None)).1 = [3%nat] ∧
  closed (Execute "fs-v1.0.0.ptar" ["manifest.yaml"; "fs"]
            (mkResults None None None (inl 3%nat) None None None
                       (Some "no such file") None None)).1 = [] ∧
  (Execute "fs-v1.0.0.ptar" ["manifest.yaml"; "fs"]
     (mkResults None None None (inl 3%nat) None None None
                (Some "no such file") None None)).2.1 = 1.
Proof.
  apply (proj2 (proj2 (proj2 (store_closed_only_on_success "fs-v1.0.0.ptar"
           ["manifest.yaml"; "fs"]
           (mkResults None None None (inl 3%nat) None None None
                      (Some "no such file") None None)))) 3%nat);
    try reflexivity.
  by intros (_ & _ & _ & _ & _ & _ & _ & ? & _).
Defined.

End PkgCreateSpec.

(** * Properties of [loadplugin] *)

Module PluginsSpec.
Import Plugins.

Section WithLibraries.
Variable Join : string → string → string.
Variable Ext : string → string.
Variable ParseFlag : string → option Z.

Lemma register_protocols_known type flags exe protocols :
  type = "importer" ∨ type = "exporter" ∨ type = "storage" →
  (register_protocols type flags exe protocols).2 = None ∧
  registered (register_protocols type flags exe protocols).1 =
    ((λ proto, (type, proto, flags, exe)) <$> protocols).
Proof.
  intros Htype. induction protocols as [|proto rest [IHe IHr]]; [done|].
  cbn [register_protocols].
  destruct (register_protocols type flags exe rest) as [calls err].
  cbn [fst snd] in *.
  repeat case_decide; [| | |tauto];
    (split; [done|]); cbn [fst]; unfold registered in *;
    cbn [omap list_omap]; rewrite IHr; by subst type.
Qed.

Lemma register_protocols_unknown type flags exe proto rest :
  ¬ (type = "importer" ∨ type = "exporter" ∨ type = "storage") →
  register_protocols type flags exe (proto :: rest) =
    ([], Some (Errorf "unknown plugin type: %s" [type])).
Proof.
  intros Htype. cbn [register_protocols].
  rewrite !decide_False by tauto. done.
Qed.

Lemma register_entry_spec plugin name e :
  ((register_entry Join ParseFlag plugin name e).2 = None ↔
   entry_ok Join ParseFlag plugin e = true) ∧
  registered (register_entry Join ParseFlag plugin name e).1 =
    (if entry_ok Join ParseFlag plugin e
     then wanted Join ParseFlag plugin e else []).
Proof.
  unfold register_entry, entry_ok, wanted.
  destruct (String.prefix plugin (Join plugin (Executable e))); cbn [negb andb];
    [|done].
  destruct (parse_flags ParseFlag 0 (LocationFlags e)) as [flags|flag];
    cbn [andb]; [|done].
  destruct (Protocols e) as [|proto rest] eqn:Hp; [done|].
  destruct (decide (Type_ e = "importer" ∨ Type_ e = "exporter" ∨
                    Type_ e = "storage")) as [Hk|Hk].
  - rewrite bool_decide_eq_true_2 by done.
    destruct (register_protocols_known (Type_ e) flags
                (Join plugin (Executable e)) (proto :: rest) Hk) as [He Hr].
    by rewrite He, Hr.
  - rewrite bool_decide_eq_false_2 by done.
    by rewrite register_protocols_unknown.
Qed.

(** X26. The loop of [loadplugin] over the manifest registers the entries
    in order, each one whole or not at all: for every entry before the
    first one that it refuses, one connector per protocol in the registry
    of the entry's type, with the flags of the entry or-ed together and the
    executable joined to the directory of the plugin; for the refused entry
    and those after it, nothing. It returns nil exactly when it refuses no
    entry, and what was registered before a refusal stays registered. An
    entry without a protocol is accepted whatever its type; with a
    protocol, a type other than importer, exporter and storage is
    refused. *)
Theorem manifest_registered_entry_by_entry (plugin name : string)
    (manifest : list Entry) :
  ((register_manifest Join ParseFlag plugin name manifest).2 = None ↔
   Forall (λ e, entry_ok Join ParseFlag plugin e = true) manifest) ∧
  registered (register_manifest Join ParseFlag plugin name manifest).1 =
    (accepted Join ParseFlag plugin manifest ≫= wanted Join ParseFlag plugin) ∧
  (∀ e, e ∈ manifest → Protocols e = [] →
     String.prefix plugin (Join plugin (Executable e)) = true →
     (∃ flags, parse_flags ParseFlag 0 (LocationFlags e) = inl flags) →
     register_entry Join ParseFlag plugin name e = ([], None)).
Proof.
  split; [|split].
  - induction manifest as [|e rest IH]; [done|].
    cbn [register_manifest].
    destruct (register_entry_spec plugin name e) as [He _].
    destruct (register_entry Join ParseFlag plugin name e) as [calls [err|]];
      cbn [snd] in *.
    + split; [done|]. intros Hall. apply Forall_cons in Hall as [Hok _].
      by apply He in Hok.
    + destruct (register_manifest Join ParseFlag plugin name rest) as [calls' err'].
      cbn [snd] in *. rewrite IH. split.
      * intros Hall. constructor; [by apply He | done].
      * by intros [_ ?]%Forall_cons.
  - induction manifest as [|e rest IH]; [done|].
    cbn [register_manifest accepted].
    destruct (register_entry_spec plugin name e) as [He Hr].
    destruct (register_entry Join ParseFlag plugin name e) as [calls [err|]];
      cbn [fst snd] in *.
    + destruct (entry_ok Join ParseFlag plugin e); [|done].
      discriminate (proj2 He eq_refl).
    + rewrite (proj1 He eq_refl) in *.
      destruct (register_manifest Join ParseFlag plugin name rest) as [calls' err'].
      cbn [fst] in *. unfold registered in *. rewrite omap_app.
      cbn [mbind list_bind]. by rewrite Hr, IH.
  - intros e _ Hp Hprefix [flags Hflags]. unfold register_entry.
    by rewrite Hprefix, Hflags, Hp.
Qed.

End WithLibraries.

End PluginsSpec.

Module PluginCallsSpec.
Import Plugins PluginCalls.

Section WithLibraries.
Variable Join : string → string → string.
Variable Ext : string → string.
Variable ParseFlag : string → option Z.





End WithLibraries.

End PluginCallsSpec.

(** * Properties of [extract] *)

Module PluginExtractSpec.
Import PluginExtract.

Section WithLibraries.
Variable Dir : string → string.

Ltac break :=
  repeat match goal with
         | H : _ ∧ _ |- _ => destruct H
         | H : ∃ _, _ |- _ => destruct H
         end;
  try done; try congruence.

Ltac early :=
  split; [split; [done | intros; break] |];
  split; [intros; break |];
  split; [done |];
  split; [intros; break |];
  split; [done |];
  split; [try done; intros; break | done].

(** X28. [extract] returns nil exactly when every step succeeds, the
    renaming included. The destination is written by one call only, the
    renaming of the temporary directory, and only after the archive was
    restored there in full; when an earlier step fails, nothing is renamed.
    The temporary directory is removed once, as the last call, on every
    path after its creation, also after a renaming that succeeded. An
    archive that does not hold exactly one snapshot is refused with the
    count in the error, also when it holds none, and the error that
    [LocateSnapshotIDs] returns does not change what [extract] does. *)
Theorem extract_renames_after_restore (plugin destDir : string)
    (r : Results) :
  let calls := (extract Dir plugin destDir r).1 in
  let err := (extract Dir plugin destDir r).2 in
  (err = None ↔ restored r ∧ Rename_err r = None) ∧
  (restored r →
     ∃ tmpdir before,
       MkdirTemp_res r = inl tmpdir ∧
       calls = before ++ [Restore tmpdir (base r) 1 (base r);
                          Rename tmpdir destDir; RemoveAll tmpdir] ∧
       before ≫= touches = []) ∧
  (¬ restored r → filter (λ c, is_Rename c = true) calls = []) ∧
  (∀ tmpdir, loaded r → MkdirTemp_res r = inl tmpdir →
     ∃ body, calls = body ++ [RemoveAll tmpdir] ∧
             filter (λ c, is_RemoveAll c = true) body = []) ∧
  (¬ (loaded r ∧ ∃ tmpdir, MkdirTemp_res r = inl tmpdir) →
     filter (λ c, is_RemoveAll c = true) calls = []) ∧
  (Open_err r = None → New_err r = None → length (Locate_ids r) ≠ 1%nat →
     err = Some (Errorf_d "too many snapshot in ptar plugin: %d"
                          (Z.of_nat (length (Locate_ids r))))) ∧
  (∀ e, extract Dir plugin destDir
          (mkResults (Open_err r) (New_err r) (Locate_ids r) e (Load_err r)
                     (NewFSExporter_err r) (MkdirTemp_res r) (base r)
                     (Restore_err r) (Rename_err r)) =
        extract Dir plugin destDir r).
Proof.
  intros calls err. subst calls err.
  unfold extract, install, restored, loaded.
  destruct r as [eo en ids el eld ef mk b er ern]; cbn [Open_err New_err
    Locate_ids Locate_err Load_err NewFSExporter_err MkdirTemp_res base
    Restore_err Rename_err].
  destruct eo as [?|]; cbn; [early|].
  destruct en as [?|]; cbn; [early|].
  destruct ids as [|snapid [|snapid' ids]]; cbn; [early| |early].
  destruct eld as [?|]; cbn; [early|].
  destruct ef as [?|]; cbn; [early|].
  destruct mk as [tmpdir|?]; cbn; [|early].
  destruct er as [?|]; cbn.
  { split; [split; [done | intros; break]|].
    split; [intros; break|]. split; [done|]. split.
    { intros ? _ [= <-]. by eexists [_; _; _; _; _; _; _]. }
    split; [|done]. intros H. exfalso. apply H. by eauto 10. }
  assert (restored (mkResults None None [snapid] el None None (inl tmpdir) b
                              None ern)) as Hrestored.
  { unfold restored, loaded. cbn. by eauto 10. }
  unfold restored, loaded in Hrestored. cbn in Hrestored.
  destruct ern as [?|]; cbn.
  all: split; [split; [intros; try done; by split | intros; break]|].
  all: split; [intros _; exists tmpdir; by eexists [_; _; _; _; _; _]|].
  all: split; [intros H; by destruct (H Hrestored)|].
  all: split; [intros ? _ [= <-]; by eexists [_; _; _; _; _; _; _; _]|].
  all: split; [|done].
  all: intros H; exfalso; apply H; by eauto 10.
Qed.

End WithLibraries.

End PluginExtractSpec.

Module PluginExamplesSpec.
Import Plugins PluginExamples.

(** The importer of the first entry is registered for its two protocols
    with both flags; the misspelt type ends the loading with an error, the
    storage after it is not registered, the two registrations stay, and the
    manifest is closed. *)
Example loadplugin_misspelt_type :
  loadplugin Join Ext ParseFlag "/plugins" "/cache" "fs_v1.0.0.ptar" not_cached =
    ([Stat "/cache/fs_v1.0.0";
      Extract "/plugins/fs_v1.0.0.ptar" "/cache/fs_v1.0.0";
      Open "/cache/fs_v1.0.0/manifest.yaml"; Decode;
      RegisterImporter "fs" 3 "/cache/fs_v1.0.0/fs-importer";
      RegisterImporter "file" 3 "/cache/fs_v1.0.0/fs-importer";
      Close],
     Some (Errorf "unknown plugin type: %s" ["exportr"])).
Proof. reflexivity. Qed.

(** An archive without a snapshot is refused as holding too many. *)
Example extract_empty_archive :
  PluginExtract.extract (λ _, "/cache") "/plugins/fs_v1.0.0.ptar"
                        "/cache/fs_v1.0.0" empty_archive =
    ([PluginExtract.StorageOpen "ptar:///plugins/fs_v1.0.0.ptar";
      PluginExtract.RepositoryNew; PluginExtract.LocateSnapshotIDs],
     Some (PluginExtract.Errorf_d "too many snapshot in ptar plugin: %d" 0)).
Proof. reflexivity. Qed.

End PluginExamplesSpec.

(** * Properties of [PkgCreate.Parse] *)

Module PkgCreateParseSpec.
Import PkgCreateParse.

Lemma Execute_location_and_files (Out : string) (Args : list string)
    (r : PkgCreate.Results) :
  Forall (eq ("ptar:" +:+ Out)) (locations (PkgCreate.Execute Out Args r).1) ∧
  Forall (eq Args) (packed (PkgCreate.Execute Out Args r).1).
Proof.
  unfold PkgCreate.Execute.
  destruct r as [e1 e2 e3 cr e5 e6 e7 e8 e9 e10]; cbn.
  destruct e1; cbn; [by split|].
  destruct e2; cbn; [by split|].
  destruct e3; cbn; [by split|].
  destruct cr as [st|]; cbn; [|by split; repeat constructor].
  destruct e5; cbn; [by split; repeat constructor|].
  destruct e6; cbn; [by split; repeat constructor|].
  destruct e7; cbn; [by split; repeat constructor|].
  destruct e8; cbn; [by split; repeat constructor|].
  destruct e9; cbn; [by split; repeat constructor|].
  destruct e10; cbn; by split; repeat constructor.
Qed.

Section WithLibraries.
Variable Join : string → string → string.

(** X29. When [PkgCreate.Parse] returns nil, there were at least two
    positional arguments, the first was opened as the manifest, decoded
    and closed, and nothing else was opened. The output is the value of
    [-out] as it was given, not joined to the working directory, or, when
    that is empty, the name and the version of the manifest as
    [name-vversion.ptar] in the working directory. [Execute], run on
    what [Parse] leaves, creates no store but the ptar at that output and
    packs all the positional arguments, the manifest first among them. *)
Theorem Parse_then_Execute (CWD out : string) (positional : list string)
    (cmd cmd' : PkgCreate) (r : Results) (calls : list Call) :
  Parse Join CWD out positional cmd r = (cmd', calls, None) →
  ∃ path files m,
    positional = path :: files ∧ files ≠ [] ∧
    calls = [Open path; Decode; Close] ∧
    Decode_res r = inl m ∧
    cmd' = mkPkgCreate
             (if decide (out = "")
              then Join CWD (Name m +:+ "-v" +:+ Version m +:+ ".ptar")
              else out)
             positional m ∧
    ∀ r',
      Forall (eq ("ptar:" +:+ Out cmd'))
             (locations (PkgCreate.Execute (Out cmd') (Args cmd') r').1) ∧
      Forall (eq (path :: files))
             (packed (PkgCreate.Execute (Out cmd') (Args cmd') r').1).
Proof.
  unfold Parse. intros HParse.
  destruct positional as [|path [|file files]]; [done..|].
  destruct (Open_err r) as [e|]; [done|].
  destruct (Decode_res r) as [m|e] eqn:HDecode; [|done].
  cbn [Out Args Manifest_] in HParse.
  exists path, (file :: files), m.
  assert (cmd' = mkPkgCreate
            (if decide (out = "")
             then Join CWD (Name m +:+ "-v" +:+ Version m +:+ ".ptar")
             else out)
            (path :: file :: files) m) as Hcmd.
  { by destruct (decide (out = "")); injection HParse as <- _. }
  assert (calls = [Open path; Decode; Close]) as ->.
  { by destruct (decide (out = "")); injection HParse as _ <-. }
  repeat (split; [done|]).
  intros r'. rewrite Hcmd. cbn [Out Args].
  apply Execute_location_and_files.
Qed.

End WithLibraries.

(** Without [-out], in [/work], with a manifest for [fs] at 1.0.0. *)
Lemma Parse_then_Execute_witness :
  ∃ path files m,
    ["manifest.yaml"; "fs-importer"] = path :: files ∧ files ≠ [] ∧
    [Open "manifest.yaml"; Decode; Close] = [Open path; Decode; Close] ∧
    Decode_res (mkResults None (inl (mkManifest "fs" "1.0.0"))) = inl m ∧
    mkPkgCreate "/work/fs-v1.0.0.ptar" ["manifest.yaml"; "fs-importer"]
                (mkManifest "fs" "1.0.0") =
      mkPkgCreate
        (if decide ("" = "")
         then PluginExamples.Join "/work"
                (Name m +:+ "-v" +:+ Version m +:+ ".ptar")
         else "")
        ["manifest.yaml"; "fs-importer"] m ∧
    ∀ r',
      Forall (eq ("ptar:" +:+ "/work/fs-v1.0.0.ptar"))
             (locations (PkgCreate.Execute "/work/fs-v1.0.0.ptar"
                           ["manifest.yaml"; "fs-importer"] r').1) ∧
      Forall (eq (path :: files))
             (packed (PkgCreate.Execute "/work/fs-v1.0.0.ptar"
                        ["manifest.yaml"; "fs-importer"] r').1).
Proof.
  apply (Parse_then_Execute PluginExamples.Join "/work" ""
           ["manifest.yaml"; "fs-importer"]
           (mkPkgCreate "" [] (mkManifest "" ""))
           (mkPkgCreate "/work/fs-v1.0.0.ptar" ["manifest.yaml"; "fs-importer"]
                        (mkManifest "fs" "1.0.0"))
           (mkResults None (inl (mkManifest "fs" "1.0.0")))
           [Open "manifest.yaml"; Decode; Close]).
  reflexivity.
Defined.

(** With one positional argument nothing is opened, and the value of
    [-out] is stored all the same. *)
Example Parse_one_argument :
  Parse PluginExamples.Join "/work" "fs.ptar" ["manifest.yaml"]
        (mkPkgCreate "" [] (mkManifest "" ""))
        (mkResults None (inl (mkManifest "fs" "1.0.0"))) =
    (mkPkgCreate "fs.ptar" [] (mkManifest "" ""), [],
     Some (Errorf "not enough arguments" [])).
Proof. reflexivity. Qed.

End PkgCreateParseSpec.
